(** * MAPIE examples: the Barber (2020) simulation harness

    A shallow embedding of [examples/plot_barber2020_simulations.py] and of
    [examples/plot_homoscedastic_1d_data.py].

    Numbers.  A numpy [float64] is modelled as [option R]: [Some r] is a finite
    value, taken as the real number it denotes (rounding is not modelled), and
    [None] is a value that is not a number.  The only place where the harness
    itself can produce such a value is the division [beta/beta_norm]; infinities
    are folded into [None].  The sign of a zero is not modelled either.  Where
    a comparison or a sign test is made on a value that comes from outside (a
    predicted bound, [sigma]) and the answer for an infinity or a negative
    zero would differ, the statement is for a value that is a number.  Where
    the rounding itself is the question, lines 87-88 are read a second time
    in binary64, in the module [Binary64].

    Arrays.  A one-dimensional array is a [list float], a matrix a list of rows.
    The arrays of the result table live in a store of arrays, addressed by
    position, because the harness fills them in place.

    Random numbers.  The process-wide generator of [numpy.random] is a state of
    an abstract type, threaded through every draw.

    The estimator.  [MapieRegressor] is an external collaborator; [fit] and
    [predict] are parameters of the development and may raise.  They are
    functions of their arguments: they do not use the generator and do not
    change the arrays they are given.

    Plotting.  The backend is a list of the commands it received; an axis of
    the 1D example is the list of the calls it received.  Neither checks its
    arguments. *)

From Stdlib Require Import String ZArith Bool Arith Reals Lra Lia List FinFun.
From Stdlib Require SpecFloat.
Import ListNotations.
Open Scope R_scope.

(** ** numpy arithmetic on floats and arrays *)

Module NP.

Definition float := option R.

Definition flift2 (f : R -> R -> R) (a b : float) : float :=
  match a, b with
  | Some x, Some y => Some (f x y)
  | _, _ => None
  end.

Definition fadd := flift2 Rplus.
Definition fsub := flift2 Rminus.
Definition fmul := flift2 Rmult.

(** [a / b]: numpy does not raise on a zero divisor, the result is not a
    number. *)
Definition fdiv (a b : float) : float :=
  match a, b with
  | Some x, Some y => if Req_dec_T y 0 then None else Some (x / y)
  | _, _ => None
  end.

Definition fsqrt (a : float) : float :=
  match a with
  | Some x => if Rlt_dec x 0 then None else Some (sqrt x)
  | None => None
  end.

(** [a ** n] for a literal exponent. *)
Definition fpow (a : float) (n : nat) : float :=
  match a with
  | Some x => Some (x ^ n)
  | None => None
  end.

(** [a <= b]; a comparison with a value that is not a number is [False].
    With an infinity numpy's answer can be [True]: the statements that
    compare with a predicted bound say where the bound has to be a number. *)
Definition fle (a b : float) : bool :=
  match a, b with
  | Some x, Some y => if Rle_dec x y then true else false
  | _, _ => false
  end.

(** [a >= b]. *)
Definition fge (a b : float) : bool := fle b a.

Definition of_nat (n : nat) : float := Some (INR n).

(** [arr.sum()]. *)
Definition sum (xs : list float) : float :=
  fold_left fadd xs (Some 0).

(** [arr.mean()]: the sum over the number of elements; the mean of an empty
    array is not a number. *)
Definition mean (xs : list float) : float :=
  fdiv (sum xs) (of_nat (length xs)).

(** [arr.mean()] on an array of booleans: [True] counts as [1.0]. *)
Definition of_bool (b : bool) : float := Some (if b then 1 else 0).

Definition mean_bool (bs : list bool) : float :=
  mean (map of_bool bs).

(** [arr.std()]: the square root of the mean squared deviation from the
    mean. *)
Definition std (xs : list float) : float :=
  let m := mean xs in
  fsqrt (mean (map (fun x => fpow (fsub x m) 2) xs)).

(** [X.dot(beta)] for a matrix [X] and a vector [beta]: one inner product per
    row.  The harness only calls it with rows as long as [beta]. *)
Definition inner (row beta : list float) : float :=
  sum (map (fun p => fmul (fst p) (snd p)) (combine row beta)).

Definition dot (X : list (list float)) (beta : list float) : list float :=
  map (fun row => inner row beta) X.

(** Elementwise addition and subtraction of two arrays of one length. *)
Definition vadd (xs ys : list float) : list float :=
  map (fun p => fadd (fst p) (snd p)) (combine xs ys).

Definition vsub (xs ys : list float) : list float :=
  map (fun p => fsub (fst p) (snd p)) (combine xs ys).

End NP.

Import NP.

(** ** Collaborators *)

(** The process-wide generator of [numpy.random].  [seed] is
    [np.random.seed], [gauss] draws one standard normal value and [expo] one
    standard exponential value, each returning the next state. *)
Class RandomSource : Type := {
  G : Type;
  seed : Z -> G;
  gauss : G -> R * G;
  expo : G -> R * G
}.

Inductive base_model : Type := LinearRegression.

(** The arguments the harness passes to the constructor [MapieRegressor]. *)
Record MapieRegressor : Type := {
  estimator : base_model;
  alpha : float;
  method : string;
  n_splits : nat;
  shuffle : bool;
  return_pred : string
}.

(** A row of [mapie.predict(X)]: the prediction (column 0), the lower bound
    (column 1) and the upper bound (column 2). *)
Definition pred_row : Type := (float * float * float)%type.

(** The external estimator: [fit] and [predict] either raise ([inl]) or
    return ([inr]); [fitted] is the state of a fitted estimator. *)
Class Estimator : Type := {
  exn : Type;
  fitted : Type;
  fit : MapieRegressor -> list (list float) -> list float -> exn + fitted;
  predict : fitted -> list (list float) -> exn + list pred_row
}.

(** ** Errors, the world and the monad of the scripts *)

Inductive error {E : Estimator} : Type :=
| Raised (e : exn)      (* raised by the estimator, passed on unchanged *)
| ValueError            (* numpy: operands could not be broadcast together *)
| IndexError            (* numpy: index out of bounds *)
| KeyError              (* dict: missing key *)
| Dangling.             (* a reference outside the store; no Python counterpart *)

Inductive result {E : Estimator} (A : Type) : Type :=
| Ok (a : A)
| Err (e : error).

Arguments Ok {E A} a.
Arguments Err {E A} e.

(** Commands received by the plotting backend; the first argument of a command
    on an axis is the axis (1 or 2). *)
Inductive command : Type :=
| Subplots (rows cols : nat)
| RcParams (key : string) (value : nat)
| Suptitle (title : string)
| Plot (ax : nat) (x : list nat) (y : list float) (label : string)
| FillBetween (ax : nat) (x : list nat) (lo hi : list float) (alpha : float)
| Axhline (ax : nat) (y : float)
| SetYlim (ax : nat) (lo hi : float)
| SetXlabel (ax : nat) (s : string)
| SetYlabel (ax : nat) (s : string)
| Legend (ax : nat).

(** The state the scripts run in: the generator, the store of arrays, the
    commands drawn so far, and two components that no Python code reads:
    [wlog], the trace of element assignments [(address, index)], newest first,
    and [junk], the content of memory that [np.empty] hands out
    uninitialised. *)
Record world {RS : RandomSource} : Type := {
  rng : G;
  heap : list (list float);
  drawn : list command;
  wlog : list (nat * nat);
  junk : nat -> nat -> float
}.

Section Scripts.

Context {RS : RandomSource} {E : Estimator}.

Definition M (A : Type) : Type := world -> result (A * world).

Definition ret {A} (a : A) : M A := fun w => Ok (a, w).

Definition bind {A B} (c : M A) (k : A -> M B) : M B :=
  fun w => match c w with
           | Ok (a, w') => k a w'
           | Err e => Err e
           end.

Definition raise {A} (e : error) : M A := fun _ => Err e.

(** A call into the estimator: an exception is passed on. *)
Definition call {A} (r : exn + A) : M A :=
  match r with
  | inl e => raise (Raised e)
  | inr a => ret a
  end.

(** Sequencing of pure computations that may raise. *)
Definition rbind {A B} (r : result A) (k : A -> result B) : result B :=
  match r with
  | Ok a => k a
  | Err e => Err e
  end.

(** A pure computation that may raise. *)
Definition lift {A} (r : result A) : M A :=
  fun w => match r with
           | Ok a => Ok (a, w)
           | Err e => Err e
           end.

End Scripts.

Declare Scope script_scope.
Delimit Scope script_scope with script.
Notation "x <- c ;; k" := (bind c (fun x => k))
  (at level 61, c at next level, right associativity) : script_scope.
Notation "c ;;; k" := (bind c (fun _ => k))
  (at level 61, right associativity) : script_scope.
Open Scope script_scope.

Section Store.

Context {RS : RandomSource} {E : Estimator}.

Definition set_rng (w : world) (g : G) : world :=
  {| rng := g; heap := heap w; drawn := drawn w; wlog := wlog w; junk := junk w |}.

Definition set_heap (w : world) (h : list (list float)) : world :=
  {| rng := rng w; heap := h; drawn := drawn w; wlog := wlog w; junk := junk w |}.

(** Replace element [i] of a list; the caller checks the range. *)
Fixpoint update {A} (i : nat) (v : A) (xs : list A) : list A :=
  match xs, i with
  | [], _ => []
  | _ :: xs', O => v :: xs'
  | x :: xs', S i' => x :: update i' v xs'
  end.

(** [np.empty(n)]: a new array of [n] elements with whatever the memory
    holds. *)
Definition np_empty (n : nat) : M nat :=
  fun w => let a := length (heap w) in
           Ok (a, set_heap w (heap w ++ [map (junk w a) (seq 0 n)])).

(** [np.zeros(n)]. *)
Definition np_zeros (n : nat) : M nat :=
  fun w => Ok (length (heap w), set_heap w (heap w ++ [repeat (Some 0) n])).

(** The array behind a reference. *)
Definition deref (a : nat) : M (list float) :=
  fun w => match nth_error (heap w) a with
           | Some arr => Ok (arr, w)
           | None => Err Dangling
           end.

(** [arr[i] = v] for [i >= 0]. *)
Definition setitem (a i : nat) (v : float) : M unit :=
  fun w => match nth_error (heap w) a with
           | Some arr =>
               if i <? length arr
               then Ok (tt, {| rng := rng w;
                               heap := update a (update i v arr) (heap w);
                               drawn := drawn w;
                               wlog := (a, i) :: wlog w;
                               junk := junk w |})
               else Err IndexError
           | None => Err Dangling
           end.

(** A call of the plotting backend. *)
Definition draw (c : command) : M unit :=
  fun w => Ok (tt, {| rng := rng w; heap := heap w; drawn := drawn w ++ [c];
                      wlog := wlog w; junk := junk w |}).

(** [for x in xs: body(x)]. *)
Fixpoint for_each {A} (xs : list A) (body : A -> M unit) : M unit :=
  match xs with
  | [] => ret tt
  | x :: xs' => body x ;;; for_each xs' body
  end.

End Store.

(** ** Dictionaries *)

(** Keys with a decidable equality. *)
Class Key (K : Type) : Type := {
  keqb : K -> K -> bool;
  keqb_eq : forall x y, keqb x y = true <-> x = y
}.

#[export] Instance string_key : Key string :=
  {| keqb := String.eqb; keqb_eq := String.eqb_eq |}.

#[export] Instance nat_key : Key nat :=
  {| keqb := Nat.eqb; keqb_eq := Nat.eqb_eq |}.

(** A dict keeps its keys in insertion order. *)
Definition dict (K V : Type) : Type := list (K * V).

Fixpoint dict_get {K V} `{Key K} (d : dict K V) (k : K) : option V :=
  match d with
  | [] => None
  | (k', v) :: d' => if keqb k' k then Some v else dict_get d' k
  end.

(** [d[k] = v]: a key already present keeps its place and takes the new
    value. *)
Fixpoint dict_set {K V} `{Key K} (k : K) (v : V) (d : dict K V) : dict K V :=
  match d with
  | [] => [(k, v)]
  | (k', v') :: d' => if keqb k' k then (k', v) :: d' else (k', v') :: dict_set k v d'
  end.

Definition keys {K V} (d : dict K V) : list K := map fst d.

(** The innermost dict of the result table, with its two fixed keys: the
    references of the two arrays. *)
Module Cell.
Record cell : Type := { coverage : nat; width_mean : nat }.
End Cell.

Abbreviation cell := Cell.cell.

Definition table : Type := dict string (dict nat cell).

(** ** [plot_barber2020_simulations.py]: the simulation harness *)

Section Barber.

Context {RS : RandomSource} {E : Estimator}.

Definition getitem {K V} `{Key K} (d : dict K V) (k : K) : M V :=
  fun w => match dict_get d k with
           | Some v => Ok (v, w)
           | None => Err KeyError
           end.

(** Lines 73-75. *)
Definition n_train : nat := 100.
Definition n_test : nat := 100.
Definition SNR : nat := 10.

(** [k] successive standard normal draws from the generator. *)
Fixpoint draws (k : nat) (g : G) : list float * G :=
  match k with
  | O => ([], g)
  | S k' => let (x, g1) := gauss g in
            let (xs, g2) := draws k' g1 in
            (Some x :: xs, g2)
  end.

(** [np.random.normal(size=k)]. *)
Definition normal (size : nat) : M (list float) :=
  fun w => let (xs, g) := draws size (rng w) in Ok (xs, set_rng w g).

(** [np.random.normal(size=(rows, cols))]: the matrix is filled row by row. *)
Fixpoint normal2 (rows cols : nat) : M (list (list float)) :=
  match rows with
  | O => ret []
  | S r => row <- normal cols ;;
           rest <- normal2 r cols ;;
           ret (row :: rest)
  end.

(** Lines 87-88: [beta_norm = np.sqrt((beta**2).sum())] and
    [beta = beta/beta_norm*np.sqrt(SNR)]. *)
Definition beta_norm (beta : list float) : float :=
  fsqrt (sum (map (fun b => fpow b 2) beta)).

Definition normalize (beta : list float) : list float :=
  map (fun b => fmul (fdiv b (beta_norm beta)) (fsqrt (of_nat SNR))) beta.

(** The local variables of one trial, lines 86-94. *)
Record trial_data : Type := {
  beta : list float;
  X_train : list (list float);
  noise_train : list float;
  noise_test : list float;
  y_train : list float;
  X_test : list (list float);
  y_test : list float
}.

Definition draw_trial_data (dimension : nat) : M trial_data :=
  beta0 <- normal dimension ;;
  let beta := normalize beta0 in
  X_train <- normal2 n_train dimension ;;
  noise_train <- normal n_train ;;
  noise_test <- normal n_test ;;
  let y_train := vadd (dot X_train beta) noise_train in
  X_test <- normal2 n_test dimension ;;
  let y_test := vadd (dot X_test beta) noise_test in
  ret {| beta := beta; X_train := X_train; noise_train := noise_train;
         noise_test := noise_test; y_train := y_train; X_test := X_test;
         y_test := y_test |}.

(** An elementwise operation on two one-dimensional arrays, with numpy's
    broadcasting: an operand of length one is stretched, otherwise the lengths
    must agree. *)
Definition broadcast2 {A B C} (f : A -> B -> C) (xs : list A) (ys : list B)
  : result (list C) :=
  match xs, ys with
  | [x], _ => Ok (map (f x) ys)
  | _, [y] => Ok (map (fun x => f x y) xs)
  | _, _ => if length xs =? length ys
            then Ok (map (fun p => f (fst p) (snd p)) (combine xs ys))
            else Err ValueError
  end.

(** [y_preds[:, 1]] and [y_preds[:, 2]]. *)
Definition lower (y_preds : list pred_row) : list float :=
  map (fun r => snd (fst r)) y_preds.

Definition upper (y_preds : list pred_row) : list float :=
  map snd y_preds.

(** Lines 107-110. *)
Definition coverage_of (y_preds : list pred_row) (y_test : list float)
  : result float :=
  rbind (broadcast2 fle (lower y_preds) y_test) (fun below =>
  rbind (broadcast2 fge (upper y_preds) y_test) (fun above =>
  rbind (broadcast2 andb below above) (fun both =>
  Ok (mean_bool both)))).

(** Line 111. *)
Definition width_mean_of (y_preds : list pred_row) : result float :=
  rbind (broadcast2 fsub (upper y_preds) (lower y_preds)) (fun widths =>
  Ok (mean widths)).

(** Lines 97-104: the estimator the harness builds for a method. *)
Definition mapie_of (alpha : float) (method : string) : MapieRegressor :=
  {| estimator := LinearRegression;
     alpha := alpha;
     method := method;
     n_splits := 10;
     shuffle := false;
     return_pred := "ensemble" |}.

(** Lines 97-113: the body of the loop over the methods. *)
Definition method_body (results : table) (alpha : float)
    (dimension trial : nat) (data : trial_data) (method : string) : M unit :=
  let mapie := mapie_of alpha method in
  fitted <- call (fit mapie (X_train data) (y_train data)) ;;
  y_preds <- call (predict fitted (X_test data)) ;;
  cov <- lift (coverage_of y_preds (y_test data)) ;;
  wid <- lift (width_mean_of y_preds) ;;
  (r_m <- getitem results method ;;
   r_d <- getitem r_m dimension ;;
   setitem (Cell.coverage r_d) trial cov) ;;;
  (r_m <- getitem results method ;;
   r_d <- getitem r_m dimension ;;
   setitem (Cell.width_mean r_d) trial wid).

(** Lines 86-113: the body of the loop over the trials. *)
Definition trial_body (results : table) (methods : list string) (alpha : float)
    (dimension trial : nat) : M unit :=
  data <- draw_trial_data dimension ;;
  for_each methods (method_body results alpha dimension trial data).

(** Lines 76-83: the dict comprehensions.  The arrays of a key that occurs
    again are replaced by new ones. *)
Fixpoint inner_dict (n_trial : nat) (dimensions : list nat) (acc : dict nat cell)
  : M (dict nat cell) :=
  match dimensions with
  | [] => ret acc
  | dimension :: rest =>
      c <- np_empty n_trial ;;
      wm <- np_empty n_trial ;;
      inner_dict n_trial rest
        (dict_set dimension {| Cell.coverage := c; Cell.width_mean := wm |} acc)
  end.

Fixpoint outer_dict (n_trial : nat) (dimensions : list nat)
    (methods : list string) (acc : table) : M table :=
  match methods with
  | [] => ret acc
  | method :: rest =>
      d <- inner_dict n_trial dimensions [] ;;
      outer_dict n_trial dimensions rest (dict_set method d acc)
  end.

(** Lines 34-114. *)
Definition PIs_vs_dimensions (methods : list string) (alpha : float)
    (n_trial : nat) (dimensions : list nat) : M table :=
  results <- outer_dict n_trial dimensions methods [] ;;
  for_each dimensions (fun dimension =>
    for_each (seq 0 n_trial) (fun trial =>
      trial_body results methods alpha dimension trial)) ;;;
  ret results.

End Barber.

(** ** [plot_barber2020_simulations.py]: the plotting step *)

Section Plotting.

Context {RS : RandomSource} {E : Estimator}.

(** [enumerate(xs)]. *)
Definition enumerate {A} (xs : list A) : list (nat * A) :=
  combine (seq 0 (length xs)) xs.

(** Lines 146-149: the body of the loop over the dimensions of a method.
    [ntrial] is the global variable of the script that the function reads;
    the four arrays are the local ones of the method. *)
Definition plot_dimension (ntrial : nat) (results : table) (method : string)
    (coverage_mean coverage_SE width_mean width_SE : nat)
    (idim dimension : nat) : M unit :=
  (r_m <- getitem results method ;;
   r_d <- getitem r_m dimension ;;
   arr <- deref (Cell.coverage r_d) ;;
   setitem coverage_mean idim (mean arr)) ;;;
  (r_m <- getitem results method ;;
   r_d <- getitem r_m dimension ;;
   arr <- deref (Cell.coverage r_d) ;;
   setitem coverage_SE idim (fdiv (std arr) (fsqrt (of_nat ntrial)))) ;;;
  (r_m <- getitem results method ;;
   r_d <- getitem r_m dimension ;;
   arr <- deref (Cell.width_mean r_d) ;;
   setitem width_mean idim (mean arr)) ;;;
  (r_m <- getitem results method ;;
   r_d <- getitem r_m dimension ;;
   arr <- deref (Cell.width_mean r_d) ;;
   setitem width_SE idim (fdiv (std arr) (fsqrt (of_nat ntrial)))).

(** Lines 140-157: the body of the loop over the methods of the table. *)
Definition plot_method (ntrial : nat) (results : table) (method : string)
  : M unit :=
  r <- getitem results method ;;
  let dimensions := keys r in
  let n_dim := length dimensions in
  coverage_mean <- np_zeros n_dim ;;
  coverage_SE <- np_zeros n_dim ;;
  width_mean <- np_zeros n_dim ;;
  width_SE <- np_zeros n_dim ;;
  for_each (enumerate dimensions) (fun '(idim, dimension) =>
    plot_dimension ntrial results method
      coverage_mean coverage_SE width_mean width_SE idim dimension) ;;;
  cm <- deref coverage_mean ;;
  cse <- deref coverage_SE ;;
  wm <- deref width_mean ;;
  wse <- deref width_SE ;;
  draw (Plot 1 dimensions cm method) ;;;
  draw (FillBetween 1 dimensions (vsub cm cse) (vadd cm cse) (Some (25 / 100))) ;;;
  draw (Plot 2 dimensions wm method) ;;;
  draw (FillBetween 2 dimensions (vsub wm wse) (vadd wm wse) (Some (25 / 100))).

(** Lines 117-166.  [ntrial] and [alpha] are the globals of the script; the
    parameter [methods] is not used by the body. *)
Definition plot_simulation_results (ntrial : nat) (alpha : float)
    (results : table) (methods : list string) (title : string) : M unit :=
  draw (Subplots 1 2) ;;;
  draw (RcParams "font.size" 14) ;;;
  draw (Suptitle title) ;;;
  for_each (keys results) (plot_method ntrial results) ;;;
  draw (Axhline 1 (fsub (Some 1) alpha)) ;;;
  draw (SetYlim 1 (Some 0) (Some 1)) ;;;
  draw (SetXlabel 1 "Dimension d") ;;;
  draw (SetYlabel 1 "Coverage") ;;;
  draw (Legend 1) ;;;
  draw (SetYlim 2 (Some 0) (Some 20)) ;;;
  draw (SetXlabel 2 "Dimension d") ;;;
  draw (SetYlabel 2 "Interval width") ;;;
  draw (Legend 2).

End Plotting.

(** ** [plot_barber2020_simulations.py]: the script *)

Section Script.

Context {RS : RandomSource} {E : Estimator}.

(** Lines 169-174; [np.arange(5, 205, 5)] is 5, 10, ..., 200. *)
Definition methods : list string :=
  ["naive"; "jackknife"; "jackknife_plus"; "jackknife_minmax"; "cv";
   "cv_plus"; "cv_minmax"]%string.

Definition script_alpha : float := Some (1 / 10).

Definition ntrial : nat := 10.

Definition dimensions : list nat := map (fun i => (5 + 5 * i)%nat) (seq 0 40).

(** Lines 175-176. *)
Definition script : M unit :=
  results <- PIs_vs_dimensions methods script_alpha ntrial dimensions ;;
  plot_simulation_results ntrial script_alpha results methods
    "Coverages and interval widths".

End Script.

(** ** [plot_homoscedastic_1d_data.py]: the data of the 1D example *)

Section Homoscedastic.

Context {RS : RandomSource} {E : Estimator}.

(** Line 23: [5*x + 5*x ** 4 - 9*x**2]. *)
Definition f (x : float) : float :=
  fsub (fadd (fmul (Some 5) x) (fmul (Some 5) (fpow x 4))) (fmul (Some 9) (fpow x 2)).

(** [np.random.seed(s)]. *)
Definition random_seed (s : Z) : M unit :=
  fun w => Ok (tt, set_rng w (seed s)).

(** [k] successive standard exponential draws. *)
Fixpoint exp_draws (k : nat) (g : G) : list float * G :=
  match k with
  | O => ([], g)
  | S k' => let (x, g1) := expo g in
            let (xs, g2) := exp_draws k' g1 in
            (Some x :: xs, g2)
  end.

(** [np.random.exponential(scale, size)]. *)
Definition exponential (scale : float) (size : nat) : M (list float) :=
  fun w => let (xs, g) := exp_draws size (rng w) in
           Ok (map (fmul scale) xs, set_rng w g).

(** [scale < 0], the test numpy makes on the scale of a distribution; it is
    false of a value that is not a number.  numpy makes the test on the sign
    bit, so that it also rejects the negative zero and the negative
    infinity, which the model of the numbers does not tell from the positive
    zero and from a value that is not a number: the statements below are for
    a scale that is a number other than zero. *)
Definition negative (a : float) : bool :=
  match a with
  | Some x => if Rlt_dec x 0 then true else false
  | None => false
  end.

(** [np.random.normal(loc, scale, size)]: a negative scale raises
    [ValueError] before anything is drawn. *)
Definition normal_loc_scale (loc scale : float) (size : nat) : M (list float) :=
  if negative scale then raise ValueError
  else xs <- normal size ;;
       ret (map (fun x => fadd loc (fmul scale x)) xs).

(** [np.linspace(start, stop, num, endpoint=False)]. *)
Definition linspace (start stop : float) (num : nat) : list float :=
  let step := fdiv (fsub stop start) (of_nat num) in
  map (fun i => fadd start (fmul (of_nat i) step)) (seq 0 num).

(** Lines 68-75. *)
Definition get_homoscedastic_data (n_samples n_test : nat) (sigma : float)
  : M (list float * list float * list float * list float * float) :=
  random_seed 59 ;;;
  let q90 := Some (18 / 10) in
  X_train <- exponential (Some (4 / 10)) n_samples ;;
  let X_test := linspace (Some (1 / 1000)) (Some (12 / 10)) n_test in
  noise <- normal_loc_scale (Some 0) sigma n_samples ;;
  let y_train := vadd (map f X_train) noise in
  let y_test := map f X_test in
  let y_test_sig := fmul q90 sigma in
  ret (X_train, y_train, X_test, y_test, y_test_sig).

End Homoscedastic.

(** ** Lines 87-88 in binary64 *)

(** The arithmetic of the definitions above is that of the real numbers.
    Where the rounding of [float64] is the question, lines 87-88 are read
    here in binary64, with the operations of IEEE 754 rounded to nearest,
    ties to even.  [beta**2] is [beta*beta].  numpy chooses the order of the
    additions of [sum]; for the one or two elements of the vectors used below
    every order gives the same sum. *)
Module Binary64.

Definition prec : Z := 53.
Definition emax : Z := 1024.

Definition float64 : Set := SpecFloat.spec_float.

Definition add : float64 -> float64 -> float64 := SpecFloat.SFadd prec emax.
Definition mul : float64 -> float64 -> float64 := SpecFloat.SFmul prec emax.
Definition div : float64 -> float64 -> float64 := SpecFloat.SFdiv prec emax.
Definition sqrt : float64 -> float64 := SpecFloat.SFsqrt prec emax.

(** The [float64] of an integer. *)
Definition of_Z (z : Z) : float64 :=
  SpecFloat.binary_normalize prec emax z 0 false.

(** Line 87: [np.sqrt((beta**2).sum())]. *)
Definition beta_norm (beta : list float64) : float64 :=
  sqrt (fold_left add (map (fun b => mul b b) beta) (of_Z 0)).

(** Line 88: [beta/beta_norm*np.sqrt(SNR)]. *)
Definition normalize (beta : list float64) : list float64 :=
  map (fun b => mul (div b (beta_norm beta)) (sqrt (of_Z 10))) beta.


End Binary64.

(** ** Reference notions used in the statements *)

(** The sum of a list of reals. *)
Definition Rsum (rs : list R) : R := fold_right Rplus 0 rs.

(** The Euclidean norm of a vector of reals. *)
Definition euclidean_norm (rs : list R) : R :=
  sqrt (Rsum (map (fun r => r * r) rs)).

(** The arithmetic mean of a non-empty list of reals. *)
Definition arithmetic_mean (rs : list R) : R := Rsum rs / INR (length rs).

(** The finite values of an array, when all of them are finite. *)
Fixpoint all_finite (xs : list float) : option (list R) :=
  match xs with
  | [] => Some []
  | Some r :: xs' => option_map (cons r) (all_finite xs')
  | None :: _ => None
  end.

(** ** Instances used in the examples *)

(** A generator whose state is a counter: draw number [g] returns the real
    number [g]. *)
Definition counting : RandomSource :=
  {| G := Z;
     seed := fun s => s;
     gauss := fun g => (IZR g, (g + 1)%Z);
     expo := fun g => (IZR g, (g + 1)%Z) |}.

(** An estimator that never raises and predicts the same row for every test
    point. *)
Definition constant_estimator (row : pred_row) : Estimator :=
  {| exn := unit;
     fitted := unit;
     fit := fun _ _ _ => inr tt;
     predict := fun _ X => inr (map (fun _ => row) X) |}.

(** An estimator that knows the method ["naive"] only: [fit] raises the name
    of any other method. *)
Definition naive_only (row : pred_row) : Estimator :=
  {| exn := string;
     fitted := unit;
     fit := fun mapie _ _ =>
              if String.eqb (method mapie) "naive" then inr tt
              else inl (method mapie);
     predict := fun _ X => inr (map (fun _ => row) X) |}.

(** A world with an empty store, nothing drawn, and [None] in all
    uninitialised memory. *)
Definition start {RS : RandomSource} (g : G) : world :=
  {| rng := g; heap := []; drawn := []; wlog := []; junk := fun _ _ => None |}.

(** ** Notions about the store and the table *)

(** Element [i] of the array behind reference [a]. *)
Definition read (h : list (list float)) (a i : nat) : option float :=
  match nth_error h a with
  | Some arr => nth_error arr i
  | None => None
  end.

(** The lengths of the arrays of a store. *)
Definition shape (h : list (list float)) : list nat := map (@length float) h.

(** The references held by a dict, given those of its values. *)
Definition refs_of {K V} (r : V -> list nat) (d : dict K V) : list nat :=
  flat_map (fun kv => r (snd kv)) d.

Definition cell_refs (c : cell) : list nat :=
  [Cell.coverage c; Cell.width_mean c].

Definition inner_refs (d : dict nat cell) : list nat := refs_of cell_refs d.

Definition table_refs (t : table) : list nat := refs_of inner_refs t.

(** [results[method][dimension]], when both keys are present. *)
Definition lookup (t : table) (method : string) (dimension : nat) : option cell :=
  match dict_get t method with
  | Some r => dict_get r dimension
  | None => None
  end.

(** The number of assignments to element [i] of the array [a] in a trace. *)
Definition pair_eq_dec (p q : nat * nat) : {p = q} + {p <> q}.
Proof. decide equality; apply Nat.eq_dec. Defined.

Definition writes (log : list (nat * nat)) (a i : nat) : nat :=
  count_occ pair_eq_dec log (a, i).

(** The content of a table: every array in place of its reference. *)
Definition contents (t : table) (h : list (list float))
  : dict string (dict nat (option (list float) * option (list float))) :=
  map (fun kv =>
         (fst kv,
          map (fun kc => (fst kc, (nth_error h (Cell.coverage (snd kc)),
                                   nth_error h (Cell.width_mean (snd kc)))))
              (snd kv)))
      t.

(** The references of a dict are distinct, not below [base], and arrays of
    length [n] in a store of shape [sh]. *)
Definition good {K V} (r : V -> list nat) (n base : nat) (d : dict K V)
    (sh : list nat) : Prop :=
  NoDup (refs_of r d) /\
  forall a, In a (refs_of r d) -> (base <= a)%nat /\ nth_error sh a = Some n.

(** A table is well formed for arrays of length [n] in a store of shape
    [sh]. *)
Definition table_wf (n base : nat) (t : table) (sh : list nat) : Prop :=
  good inner_refs n base t sh.

(** What a method records for the data of a trial: the estimator is fitted
    and asked for predictions, then the coverage and the mean width are
    computed (lines 105-111). *)
Definition evaluate {E : Estimator} (alpha : float) (data : trial_data)
    (method : string) : result (float * float) :=
  match fit (mapie_of alpha method) (X_train data) (y_train data) with
  | inl e => Err (Raised e)
  | inr fitted =>
      match predict fitted (X_test data) with
      | inl e => Err (Raised e)
      | inr y_preds =>
          rbind (coverage_of y_preds (y_test data)) (fun cov =>
          rbind (width_mean_of y_preds) (fun wid => Ok (cov, wid)))
      end
  end.

(** The number of test points inside their interval: [lower <= y] and
    [y <= upper]. *)
Definition covered (y_preds : list pred_row) (y_test : list float) : nat :=
  length (filter (fun p => fle (snd (fst (fst p))) (snd p) && fle (snd p) (snd (fst p)))
                 (combine y_preds y_test)).

(** ** The draws of a trial as a function of the generator *)

(** [rows] times [cols] successive standard normal draws, as a matrix filled
    row by row. *)
Fixpoint draw_rows {RS : RandomSource} (rows cols : nat) (g : G)
  : list (list float) * G :=
  match rows with
  | O => ([], g)
  | S r => let (row, g1) := draws cols g in
           let (rest, g2) := draw_rows r cols g1 in
           (row :: rest, g2)
  end.

(** The data of a trial when the draws are made in the order of the three
    steps of the specification: the coefficient vector, then both design
    matrices, then the two noise vectors. *)
Definition trial_draws_in_step_order {RS : RandomSource} (d : nat) (g : G)
  : trial_data * G :=
  let (beta0, g1) := draws d g in
  let beta := normalize beta0 in
  let (X_train, g2) := draw_rows n_train d g1 in
  let (X_test, g3) := draw_rows n_test d g2 in
  let (noise_train, g4) := draws n_train g3 in
  let (noise_test, g5) := draws n_test g4 in
  ({| beta := beta; X_train := X_train; noise_train := noise_train;
      noise_test := noise_test;
      y_train := vadd (dot X_train beta) noise_train;
      X_test := X_test;
      y_test := vadd (dot X_test beta) noise_test |}, g5).

(** The value of a boolean in an array of floats. *)
Definition indicator (b : bool) : R := if b then 1 else 0.

(** In a store of shape [sh], every cell of the table assigned since the
    trace was [log0] holds values with the property [P]. *)
Definition cells_ok {RS : RandomSource} (results : table) (sh : list nat)
    (log0 : list (nat * nat)) (P : string -> nat -> float -> float -> Prop)
    (w : world) : Prop :=
  shape (heap w) = sh /\
  forall m d c t,
    lookup results m d = Some c ->
    (writes log0 (Cell.coverage c) t < writes (wlog w) (Cell.coverage c) t)%nat ->
    exists cov wid,
      read (heap w) (Cell.coverage c) t = Some cov /\
      read (heap w) (Cell.width_mean c) t = Some wid /\
      P m d cov wid.

(** A predicted row whose bounds are finite and in order. *)
Definition ordered (row : pred_row) : Prop :=
  exists l u, snd (fst row) = Some l /\ snd row = Some u /\ l <= u.

(** ** The panels as a function of the table and the store *)

(** A statistic of the array that [sel] picks in the cell of a dimension. *)
Definition stat (f : list float -> float) (sel : cell -> nat)
    (h : list (list float)) (r : dict nat cell) (d : nat) : float :=
  match dict_get r d with
  | Some c => match nth_error h (sel c) with
              | Some arr => f arr
              | None => None
              end
  | None => None
  end.

(** [arr.std()/np.sqrt(ntrial)]. *)
Definition standard_error (ntrial : nat) (arr : list float) : float :=
  fdiv (std arr) (fsqrt (of_nat ntrial)).

(** What is drawn for a method. *)
Definition method_panels (ntrial : nat) (results : table)
    (h : list (list float)) (method : string) : list command :=
  match dict_get results method with
  | Some r =>
      let cm := map (stat mean Cell.coverage h r) (keys r) in
      let cse := map (stat (standard_error ntrial) Cell.coverage h r) (keys r) in
      let wm := map (stat mean Cell.width_mean h r) (keys r) in
      let wse := map (stat (standard_error ntrial) Cell.width_mean h r) (keys r) in
      [Plot 1 (keys r) cm method;
       FillBetween 1 (keys r) (vsub cm cse) (vadd cm cse) (Some (25 / 100));
       Plot 2 (keys r) wm method;
       FillBetween 2 (keys r) (vsub wm wse) (vadd wm wse) (Some (25 / 100))]
  | None => []
  end.

(** What is drawn for a table. *)
Definition panels (ntrial : nat) (alpha : float) (results : table)
    (title : string) (h : list (list float)) : list command :=
  [Subplots 1 2; RcParams "font.size" 14; Suptitle title]
  ++ flat_map (method_panels ntrial results h) (keys results)
  ++ [Axhline 1 (fsub (Some 1) alpha);
      SetYlim 1 (Some 0) (Some 1);
      SetXlabel 1 "Dimension d";
      SetYlabel 1 "Coverage";
      Legend 1;
      SetYlim 2 (Some 0) (Some 20);
      SetXlabel 2 "Dimension d";
      SetYlabel 2 "Interval width";
      Legend 2].

(** Two runs of the loops, on the tables [r1] and [r2] in stores of shapes
    [sh1] and [sh2], agree: the generators are equal, and every cell assigned
    in the first run since its trace was [log1] holds the same values in
    both. *)
Definition agree {RS : RandomSource} (r1 r2 : table) (sh1 sh2 : list nat)
    (log1 : list (nat * nat)) (w1 w2 : world) : Prop :=
  rng w1 = rng w2 /\ shape (heap w1) = sh1 /\ shape (heap w2) = sh2 /\
  forall m d c1 c2 t,
    lookup r1 m d = Some c1 -> lookup r2 m d = Some c2 ->
    (writes log1 (Cell.coverage c1) t
     < writes (wlog w1) (Cell.coverage c1) t)%nat ->
    read (heap w1) (Cell.coverage c1) t = read (heap w2) (Cell.coverage c2) t /\
    read (heap w1) (Cell.width_mean c1) t = read (heap w2) (Cell.width_mean c2) t.

(** Two outcomes are the same error, or two results related by [R]. *)
Definition same_outcome {E : Estimator} {A B} (R : A -> B -> Prop)
    (o1 : result A) (o2 : result B) : Prop :=
  match o1, o2 with
  | Ok a, Ok b => R a b
  | Err e1, Err e2 => e1 = e2
  | _, _ => False
  end.

(** The number of values drawn in a trial of dimension [d], and in a whole
    run of the harness. *)
Definition draws_per_trial (d : nat) : nat :=
  (d + n_train * d + n_train + n_test + n_test * d)%nat.

Definition total_draws (n_trial : nat) (dimensions : list nat) : nat :=
  list_sum (map (fun d => (n_trial * draws_per_trial d)%nat) dimensions).

(** Both bounds of a predicted row are numbers. *)
Definition finite_bounds (r : pred_row) : Prop :=
  exists l u, snd (fst r) = Some l /\ snd r = Some u.

(** The interval of the predicted row [r'] contains that of [r]: when both
    bounds of [r] are numbers, so are those of [r'], and they are not
    inside. *)
Definition wider (r r' : pred_row) : Prop :=
  forall l u, snd (fst r) = Some l -> snd r = Some u ->
    exists l' u', snd (fst r') = Some l' /\ snd r' = Some u' /\
                  l' <= l /\ u <= u'.

(** ** The trials of a call as a function of the generator *)

(** Lines 86-94: the data of one trial of dimension [d], drawn from the
    generator [g] in the order of the code, and the generator afterwards. *)
Definition trial_data_of {RS : RandomSource} (d : nat) (g : G)
  : trial_data * G :=
  let (beta0, g1) := draws d g in
  let beta := normalize beta0 in
  let (X_train, g2) := draw_rows n_train d g1 in
  let (noise_train, g3) := draws n_train g2 in
  let (noise_test, g4) := draws n_test g3 in
  let (X_test, g5) := draw_rows n_test d g4 in
  ({| beta := beta; X_train := X_train; noise_train := noise_train;
      noise_test := noise_test;
      y_train := vadd (dot X_train beta) noise_train;
      X_test := X_test;
      y_test := vadd (dot X_test beta) noise_test |}, g5).

(** Line 85: the trials [ts] of the dimension [d], each with its data, in
    the order of the loop. *)
Fixpoint trials_of {RS : RandomSource} (d : nat) (ts : list nat) (g : G)
  : list (nat * nat * trial_data) * G :=
  match ts with
  | [] => ([], g)
  | t :: rest => let (data, g1) := trial_data_of d g in
                 let (runs, g2) := trials_of d rest g1 in
                 ((d, t, data) :: runs, g2)
  end.

(** Lines 84-85: all the trials of a call, in the order of the two outer
    loops, when the generator is [g] at the start. *)
Fixpoint schedule {RS : RandomSource} (n_trial : nat) (dimensions : list nat)
    (g : G) : list (nat * nat * trial_data) * G :=
  match dimensions with
  | [] => ([], g)
  | d :: rest => let (runs, g1) := trials_of d (seq 0 n_trial) g in
                 let (more, g2) := schedule n_trial rest g1 in
                 (runs ++ more, g2)
  end.

(** Line 96: what every method records for every trial of a list, in the
    order of the loops. *)
Definition evaluations {E : Estimator} (alpha : float) (methods : list string)
    (runs : list (nat * nat * trial_data)) : list (result (float * float)) :=
  flat_map (fun r => map (evaluate alpha (snd r)) methods) runs.

(** The first error of a list of outcomes. *)
Fixpoint first_error {E : Estimator} {A} (rs : list (result A))
  : option error :=
  match rs with
  | [] => None
  | Ok _ :: rest => first_error rest
  | Err e :: _ => Some e
  end.

(** The data of the last trial with dimension [d] and index [t] in a list of
    trials: a dimension that occurs again in [dimensions] is run again, and
    the later trial overwrites what the earlier one recorded. *)
Fixpoint last_data (runs : list (nat * nat * trial_data)) (d t : nat)
  : option trial_data :=
  match runs with
  | [] => None
  | (d', t', data) :: rest =>
      match last_data rest d t with
      | Some later => Some later
      | None => if ((d' =? d) && (t' =? t))%nat then Some data else None
      end
  end.

(** The estimator raises [e] for a method on the data of a trial, in [fit]
    or in [predict]. *)
Definition estimator_raises {E : Estimator} (alpha : float) (data : trial_data)
    (method : string) (e : exn) : Prop :=
  fit (mapie_of alpha method) (X_train data) (y_train data) = inl e \/
  exists ft,
    fit (mapie_of alpha method) (X_train data) (y_train data) = inr ft /\
    predict ft (X_test data) = inl e.

(** In the store [h], every cell of a trial of [runs] holds what its method
    records for the data of the last such trial. *)
Definition filled {E : Estimator} (results : table) (alpha : float)
    (methods : list string) (runs : list (nat * nat * trial_data))
    (h : list (list float)) : Prop :=
  forall m d t data,
    In m methods -> last_data runs d t = Some data ->
    exists c cov wid,
      lookup results m d = Some c /\
      evaluate alpha data m = Ok (cov, wid) /\
      read h (Cell.coverage c) t = Some cov /\
      read h (Cell.width_mean c) t = Some wid.

(** ** [plot_homoscedastic_1d_data.py]: the panels and the script *)

(** The calls an axis of the 1D example receives; a keyword argument that a
    call leaves out is [None].  An axis is the list of the calls it
    received, oldest first. *)
Inductive axis_call : Type :=
| set_xlabel (s : string)
| set_ylabel (s : string)
| set_xlim (lo hi : float)
| set_ylim (lo hi : float)
| scatter (x y : list float) (color : string) (alpha : float) (label : string)
| plot (x y : list float) (color label ls : option string)
| fill_between (x lo hi : list float) (alpha : float)
| set_title (s : string)
| legend.

Definition axis : Type := list axis_call.

(** Lines 78-128.  The function changes the axis in place and returns
    nothing; here it returns the axis. *)
Definition plot_1d_data (X_train y_train X_test y_test : list float)
    (y_test_sigma : float) (y_pred y_pred_low y_pred_up : list float)
    (ax : axis) (title : string) : axis :=
  ax ++ [set_xlabel "x";
         set_ylabel "y";
         set_xlim (Some 0) (Some (11 / 10));
         set_ylim (Some 0) (Some 1);
         scatter X_train y_train "red" (Some (3 / 10)) "training";
         plot X_test y_test (Some "gray"%string)
           (Some "True confidence intervals"%string) None;
         plot X_test (map (fun y => fsub y y_test_sigma) y_test)
           (Some "gray"%string) None (Some "--"%string);
         plot X_test (map (fun y => fadd y y_test_sigma) y_test)
           (Some "gray"%string) None (Some "--"%string);
         plot X_test y_pred None (Some "Prediction intervals"%string) None;
         fill_between X_test y_pred_low y_pred_up (Some (3 / 10));
         set_title title;
         legend].

(** Lines 135-140 and 147-153: the pipeline and the arguments the script
    passes to the constructor [MapieRegressor]. *)
Module OneD.

Inductive step : Type :=
| PolynomialFeatures (degree : nat)
| LinearRegression (fit_intercept : bool).

Record MapieRegressor : Type := {
  estimator : list (string * step);
  method : string;
  alpha : float;
  n_splits : nat;
  return_pred : string
}.

End OneD.

(** [fit] of the estimator built on a pipeline; its fitted state and its
    [predict] are those of [Estimator]. *)
Class PipelineEstimator {E : Estimator} : Type := {
  fit_pipeline :
    OneD.MapieRegressor -> list (list float) -> list float -> exn + fitted
}.

Section HomoscedasticScript.

Context {RS : RandomSource} {E : Estimator} {PE : PipelineEstimator}.

(** [X.reshape(-1, 1)]. *)
Definition reshape_column (xs : list float) : list (list float) :=
  map (fun x => [x]) xs.

(** [y_preds[:, 0]]. *)
Definition column_0 (y_preds : list pred_row) : list float :=
  map (fun r => fst (fst r)) y_preds.

Definition polyn_model : list (string * OneD.step) :=
  [("poly"%string, OneD.PolynomialFeatures 4);
   ("linear"%string, OneD.LinearRegression false)].

(** Line 142. *)
Definition methods_1d : list string :=
  ["jackknife"; "jackknife_plus"; "jackknife_minmax"; "cv"; "cv_plus";
   "cv_minmax"]%string.

(** Lines 147-153. *)
Definition pireg_of (method : string) : OneD.MapieRegressor :=
  {| OneD.estimator := polyn_model;
     OneD.method := method;
     OneD.alpha := Some (5 / 100);
     OneD.n_splits := 10;
     OneD.return_pred := "ensemble" |}.

(** [axs[i]]. *)
Definition axis_at (axs : list axis) (i : nat) : M axis :=
  lift (match nth_error axs i with
        | Some ax => Ok ax
        | None => Err IndexError
        end).

(** Lines 147-167: the body of the loop over the methods; [axs] is the list
    of the axes of the figure. *)
Definition panel_body
    (data : list float * list float * list float * list float * float)
    (axs : list axis) (i : nat) (method : string) : M (list axis) :=
  let '(X_train, y_train, X_test, y_test, y_test_sigma) := data in
  fitted <- call (fit_pipeline (pireg_of method) (reshape_column X_train) y_train) ;;
  y_preds <- call (predict fitted (reshape_column X_test)) ;;
  ax <- axis_at axs i ;;
  ret (update i
         (plot_1d_data X_train y_train X_test y_test y_test_sigma
            (column_0 y_preds) (lower y_preds) (upper y_preds) ax method)
         axs).

(** [for i, method in enumerate(methods): ...]. *)
Fixpoint panel_loop
    (data : list float * list float * list float * list float * float)
    (items : list (nat * string)) (axs : list axis) : M (list axis) :=
  match items with
  | [] => ret axs
  | (i, method) :: rest =>
      axs' <- panel_body data axs i method ;;
      panel_loop data rest axs'
  end.

(** Lines 131-167: the script; it returns the six axes of its figure. *)
Definition script_1d : M (list axis) :=
  data <- get_homoscedastic_data 200 200 (Some (1 / 10)) ;;
  draw (Subplots 2 3) ;;;
  panel_loop data (enumerate methods_1d) (repeat [] 6).

(** The estimator returns for a method on the data of the script, and [ax]
    is the panel of the method on a new axis. *)
Definition panel_of (X_train y_train X_test y_test : list float)
    (y_test_sigma : float) (method : string) (ax : axis) : Prop :=
  exists ft y_preds,
    fit_pipeline (pireg_of method) (reshape_column X_train) y_train = inr ft /\
    predict ft (reshape_column X_test) = inr y_preds /\
    ax = plot_1d_data X_train y_train X_test y_test y_test_sigma
           (column_0 y_preds) (lower y_preds) (upper y_preds) [] method.

(** The estimator raises [e] for a method on the data of the script, in [fit]
    or in [predict]. *)
Definition raises (X_train y_train X_test : list float) (method : string)
    (e : exn) : Prop :=
  fit_pipeline (pireg_of method) (reshape_column X_train) y_train = inl e \/
  exists ft,
    fit_pipeline (pireg_of method) (reshape_column X_train) y_train = inr ft /\
    predict ft (reshape_column X_test) = inl e.

End HomoscedasticScript.

(** An estimator on a pipeline that never raises. *)
Definition constant_pipeline (row : pred_row)
  : @PipelineEstimator (constant_estimator row) :=
  @Build_PipelineEstimator (constant_estimator row)
    (fun _ _ _ => @inr unit unit tt).

(** An estimator on a pipeline that knows the method ["jackknife"] only. *)
Definition jackknife_only (row : pred_row)
  : @PipelineEstimator (naive_only row) :=
  @Build_PipelineEstimator (naive_only row)
    (fun mapie _ _ =>
       if String.eqb (OneD.method mapie) "jackknife" then @inr string unit tt
       else @inl string unit (OneD.method mapie)).

(** * Properties *)

(** ** Arithmetic *)

Lemma fold_fadd_finite (rs : list R) (a : R) :
  fold_left fadd (map Some rs) (Some a) = Some (a + Rsum rs).
Proof.
  revert a; induction rs as [|r rs IH]; intros a; simpl.
  - f_equal; lra.
  - rewrite IH. f_equal; lra.
Qed.

Lemma sum_finite (rs : list R) : sum (map Some rs) = Some (Rsum rs).
Proof.
  unfold sum. rewrite fold_fadd_finite. f_equal; lra.
Qed.

Lemma fold_fadd_None (xs : list float) : fold_left fadd xs None = None.
Proof.
  induction xs as [|x xs IH]; simpl; auto.
Qed.


Lemma Rsum_squares_nonneg (rs : list R) : 0 <= Rsum (map (fun r => r * r) rs).
Proof.
  induction rs as [|r rs IH]; simpl; [lra | nra].
Qed.

Lemma Rsum_squares_pos (rs : list R) :
  (exists r, In r rs /\ r <> 0) -> 0 < Rsum (map (fun r => r * r) rs).
Proof.
  induction rs as [|r rs IH]; intros [x [Hin Hx]]; simpl in *.
  - contradiction.
  - pose proof (Rsum_squares_nonneg rs) as Hn.
    destruct Hin as [-> | Hin].
    + assert (0 < x * x) by nra. lra.
    + assert (0 < Rsum (map (fun r => r * r) rs)) by (apply IH; eauto).
      nra.
Qed.

Lemma Rsum_squares_zero (rs : list R) :
  (forall r, In r rs -> r = 0) -> Rsum (map (fun r => r * r) rs) = 0.
Proof.
  induction rs as [|r rs IH]; intros H; simpl; [reflexivity|].
  rewrite IH by (intros; apply H; simpl; auto).
  rewrite (H r) by (simpl; auto). lra.
Qed.

Section Normalisation.

Context {RS : RandomSource}.

Lemma squares_finite (rs : list R) :
  map (fun b => fpow b 2) (map Some rs) = map Some (map (fun r => r * r) rs).
Proof.
  rewrite !map_map. apply map_ext. intros r. simpl. f_equal; lra.
Qed.

Lemma beta_norm_finite (rs : list R) :
  beta_norm (map Some rs) = Some (euclidean_norm rs).
Proof.
  unfold beta_norm, euclidean_norm.
  rewrite squares_finite, sum_finite. simpl.
  destruct (Rlt_dec _ 0) as [Hlt|_]; [|reflexivity].
  pose proof (Rsum_squares_nonneg rs). lra.
Qed.

Lemma sqrt_SNR : fsqrt (of_nat SNR) = Some (sqrt 10).
Proof.
  unfold fsqrt, of_nat, SNR.
  replace (INR 10) with 10 by (simpl; lra).
  destruct (Rlt_dec 10 0); [lra | reflexivity].
Qed.

Lemma draws_finite (k : nat) (g : G) :
  exists rs, fst (draws k g) = map Some rs /\ length rs = k.
Proof.
  revert g; induction k as [|k IH]; intros g; simpl.
  - exists []; auto.
  - destruct (gauss g) as [x g1]. specialize (IH g1).
    destruct (draws k g1) as [xs g2]. simpl in *.
    destruct IH as [rs [-> Hlen]]. exists (x :: rs). simpl. auto.
Qed.

Lemma normalize_nonzero (rs : list R) :
  (exists r, In r rs /\ r <> 0) ->
  normalize (map Some rs)
  = map Some (map (fun r => r / euclidean_norm rs * sqrt 10) rs).
Proof.
  intros Hnz. unfold normalize.
  rewrite beta_norm_finite, sqrt_SNR, !map_map.
  apply map_ext. intros r. simpl.
  destruct (Req_dec_T (euclidean_norm rs) 0) as [Hz|_]; [|reflexivity].
  exfalso. unfold euclidean_norm in Hz.
  apply sqrt_eq_0 in Hz; pose proof (Rsum_squares_pos rs Hnz); lra.
Qed.


End Normalisation.

Section NormalisationClaims.

Context {RS : RandomSource}.

Lemma zero_or_not (rs : list R) :
  (forall r, In r rs -> r = 0) \/ (exists r, In r rs /\ r <> 0).
Proof.
  induction rs as [|r rs [IH|[x [Hin Hx]]]].
  - left. intros r [].
  - destruct (Req_dec r 0) as [Hr|Hr].
    + left. intros x [<-|Hin]; auto.
    + right. exists r. simpl; auto.
  - right. exists x. simpl; auto.
Qed.

Lemma normalize_zero (rs : list R) :
  (forall r, In r rs -> r = 0) ->
  beta_norm (map Some rs) = Some 0 /\
  forall b, In b (map Some rs) -> fdiv b (beta_norm (map Some rs)) = None.
Proof.
  intros Hz.
  assert (Hn : beta_norm (map Some rs) = Some 0).
  { rewrite beta_norm_finite. unfold euclidean_norm.
    rewrite Rsum_squares_zero by assumption. now rewrite sqrt_0. }
  split; [exact Hn|].
  intros b Hb. rewrite Hn. apply in_map_iff in Hb as [r [<- _]]. simpl.
  destruct (Req_dec_T 0 0) as [_|Hne]; [reflexivity | contradiction].
Qed.


(** C10.  Line 88 divides every component of the drawn vector by its norm
    without a test.  When some component is not zero the norm is not zero and
    every component of the result is a number; when the drawn vector is the
    zero vector the norm is zero, every division is a division by zero and no
    component of the result is a number.  So for [d >= 1] the result is
    defined exactly when the drawn vector is not the zero vector. *)
Theorem normalisation_needs_nonzero_beta (d : nat) (g : G) :
  let beta0 := fst (draws d g) in
  ((exists x, In (Some x) beta0 /\ x <> 0) ->
     beta_norm beta0 <> Some 0 /\
     forall b, In b (normalize beta0) -> b <> None) /\
  ((forall x, In (Some x) beta0 -> x = 0) ->
     beta_norm beta0 = Some 0 /\
     (forall b, In b beta0 -> fdiv b (beta_norm beta0) = None) /\
     (forall b, In b (normalize beta0) -> b = None)) /\
  ((1 <= d)%nat ->
     ((forall b, In b (normalize beta0) -> b <> None) <->
      (exists x, In (Some x) beta0 /\ x <> 0))).
Proof.
  intros beta0. subst beta0.
  destruct (draws_finite d g) as [rs [Hrs Hlen]]. rewrite Hrs.
  assert (Hnz_case : (exists x, In (Some x) (map Some rs) /\ x <> 0) ->
     beta_norm (map Some rs) <> Some 0 /\
     forall b, In b (normalize (map Some rs)) -> b <> None).
  { intros [x [Hin Hx]].
    assert (Hnz : exists r, In r rs /\ r <> 0).
    { apply in_map_iff in Hin as [r [Hr Hin]]. inversion Hr; subst. eauto. }
    split.
    - rewrite beta_norm_finite. intros H. inversion H as [H0].
      unfold euclidean_norm in H0. apply sqrt_eq_0 in H0;
        pose proof (Rsum_squares_pos rs Hnz); lra.
    - rewrite normalize_nonzero by assumption.
      intros b Hb. apply in_map_iff in Hb as [r [<- _]]. discriminate. }
  assert (Hz_case : (forall x, In (Some x) (map Some rs) -> x = 0) ->
     beta_norm (map Some rs) = Some 0 /\
     (forall b, In b (map Some rs) -> fdiv b (beta_norm (map Some rs)) = None) /\
     (forall b, In b (normalize (map Some rs)) -> b = None)).
  { intros Hz.
    assert (Hz' : forall r, In r rs -> r = 0).
    { intros r Hr. apply Hz. now apply in_map. }
    destruct (normalize_zero rs Hz') as [Hn Hdiv].
    split; [exact Hn|]. split; [exact Hdiv|].
    intros b Hb. unfold normalize in Hb.
    apply in_map_iff in Hb as [b0 [<- Hb0]].
    now rewrite (Hdiv b0 Hb0). }
  split; [exact Hnz_case|]. split; [exact Hz_case|].
  intros Hd. split.
  - intros Hdef. destruct (zero_or_not rs) as [Hz|[r [Hin Hr]]].
    + exfalso.
      assert (Hz0 : forall x, In (Some x) (map Some rs) -> x = 0).
      { intros x Hx. apply in_map_iff in Hx as [r [Hr Hin]].
        inversion Hr; subst. now apply Hz. }
      destruct (Hz_case Hz0) as [_ [_ Hall]].
      destruct rs as [|r rs]; [simpl in Hlen; lia|].
      apply (Hdef (fmul (fdiv (Some r) (beta_norm (map Some (r :: rs))))
                        (fsqrt (of_nat SNR)))).
      * unfold normalize. simpl. left. reflexivity.
      * apply Hall. unfold normalize. simpl. left. reflexivity.
    + exists r. split; [now apply in_map | exact Hr].
  - intros Hnz. apply Hnz_case. exact Hnz.
Qed.

End NormalisationClaims.

Lemma counting_draws (k : nat) (g : Z) :
  @draws counting k g
  = (map (fun i => Some (IZR (g + Z.of_nat i))) (seq 0 k), (g + Z.of_nat k)%Z).
Proof.
  revert g; induction k as [|k IH]; intros g.
  - simpl. now rewrite Z.add_0_r.
  - cbn [draws gauss counting]. rewrite IH. cbn [seq map].
    rewrite Z.add_0_r. f_equal.
    + f_equal. rewrite <- seq_shift, map_map. apply map_ext.
      intros i. do 2 f_equal. lia.
    + lia.
Qed.

(** A draw of zero in dimension one: the norm is zero and the normalised
    coefficient is not a number. *)
Example zero_draw_not_a_number :
  beta_norm (fst (@draws counting 1 0%Z)) = Some 0 /\
  normalize (fst (@draws counting 1 0%Z)) = [None].
Proof.
  rewrite counting_draws. cbn [fst seq map].
  destruct (normalize_zero [0]) as [Hn Hdiv].
  { intros r [<-|[]]. reflexivity. }
  replace (IZR (0 + Z.of_nat 0)) with 0 by (simpl; reflexivity).
  cbn [map] in Hn, Hdiv. split; [exact Hn|].
  unfold normalize. cbn [map]. rewrite (Hdiv (Some 0)); [reflexivity|].
  simpl. auto.
Qed.



(** ** The monad and the loops *)

Section MonadLemmas.

Context {RS : RandomSource} {E : Estimator}.

Lemma bind_ok {A B} (c : M A) (k : A -> M B) w b w' :
  bind c k w = Ok (b, w') <->
  exists a w1, c w = Ok (a, w1) /\ k a w1 = Ok (b, w').
Proof.
  unfold bind. split.
  - destruct (c w) as [[a w1]|e]; [eauto | discriminate].
  - intros [a [w1 [-> H]]]. exact H.
Qed.

Lemma bind_err {A B} (c : M A) (k : A -> M B) w e :
  bind c k w = Err e <->
  c w = Err e \/ exists a w1, c w = Ok (a, w1) /\ k a w1 = Err e.
Proof.
  unfold bind. split.
  - destruct (c w) as [[a w1]|e']; intros H; [right; eauto | left; congruence].
  - intros [-> | [a [w1 [-> H]]]]; [reflexivity | exact H].
Qed.

(** An invariant of the body that also adds up a quantity. *)
Lemma for_each_count {A} (I : world -> Prop) (cnt : world -> nat)
    (k : A -> nat) (body : A -> M unit) (xs : list A) :
  (forall x w w', In x xs -> I w -> body x w = Ok (tt, w') ->
                  I w' /\ cnt w' = (cnt w + k x)%nat) ->
  forall w w', I w -> for_each xs body w = Ok (tt, w') ->
               I w' /\ cnt w' = (cnt w + list_sum (map k xs))%nat.
Proof.
  induction xs as [|x xs IH]; intros Hbody w w' HI Hrun; simpl in *.
  - inversion Hrun; subst. split; [assumption | lia].
  - apply bind_ok in Hrun as [[] [w1 [Hx Hrest]]].
    destruct (Hbody x w w1) as [HI1 Hc1]; auto.
    destruct (IH (fun y u u' Hy => Hbody y u u' (or_intror Hy)) w1 w' HI1 Hrest)
      as [HI' Hc'].
    split; [assumption | lia].
Qed.

Lemma for_each_inv {A} (I : world -> Prop) (body : A -> M unit) (xs : list A) :
  (forall x w w', In x xs -> I w -> body x w = Ok (tt, w') -> I w') ->
  forall w w', I w -> for_each xs body w = Ok (tt, w') -> I w'.
Proof.
  intros Hbody w w' HI Hrun.
  apply (for_each_count I (fun _ => O) (fun _ => O) body xs) with (w := w);
    auto.
  intros x u u' Hx Hu Hr. split; [eauto | reflexivity].
Qed.

(** What the body establishes for its element, and nothing later undoes,
    holds for every element after the loop. *)
Lemma for_each_post {A} (I : world -> Prop) (Q : A -> world -> Prop)
    (body : A -> M unit) (xs : list A) :
  (forall x w w', In x xs -> I w -> body x w = Ok (tt, w') ->
                  I w' /\ Q x w' /\ forall y, Q y w -> Q y w') ->
  forall w w', I w -> for_each xs body w = Ok (tt, w') ->
               I w' /\ forall x, In x xs -> Q x w'.
Proof.
  induction xs as [|x xs IH]; intros Hbody w w' HI Hrun; simpl in *.
  - inversion Hrun; subst. split; [assumption | intros ? []].
  - apply bind_ok in Hrun as [[] [w1 [Hx Hrest]]].
    destruct (Hbody x w w1) as [HI1 [HQ1 Hst1]]; auto.
    assert (Hkeep : forall w2 w3, I w2 -> for_each xs body w2 = Ok (tt, w3) ->
                                  forall y, Q y w2 -> Q y w3).
    { clear - Hbody. induction xs as [|z zs IHz]; intros w2 w3 HI2 Hr y Hy;
        simpl in *.
      - inversion Hr; subst; assumption.
      - apply bind_ok in Hr as [[] [w4 [Hz Hr]]].
        destruct (Hbody z w2 w4) as [HI4 [_ Hst]]; auto.
        eapply IHz; eauto.
        intros x0 u u' [->|Hin] Hu Hb; apply Hbody; auto. }
    destruct (IH (fun y u u' Hy => Hbody y u u' (or_intror Hy)) w1 w' HI1 Hrest)
      as [HI' HQ'].
    split; [assumption|].
    clear IH.
    intros y [<-|Hy].
    + apply (Hkeep w1 w' HI1 Hrest x HQ1).
    + apply HQ'. exact Hy.
Qed.

(** The first failing iteration of a loop that fails. *)
Lemma for_each_err {A} (body : A -> M unit) (xs : list A) w e :
  for_each xs body w = Err e ->
  exists xs1 x xs2 w1,
    xs = xs1 ++ x :: xs2 /\
    for_each xs1 body w = Ok (tt, w1) /\
    body x w1 = Err e.
Proof.
  revert w; induction xs as [|x xs IH]; intros w Hrun; simpl in *.
  - discriminate.
  - apply bind_err in Hrun as [Hx | [[] [w1 [Hx Hrest]]]].
    + exists [], x, xs, w. simpl. auto.
    + destruct (IH w1 Hrest) as [xs1 [y [xs2 [w2 [-> [Hpre Hy]]]]]].
      exists (x :: xs1), y, xs2, w2. simpl. split; [reflexivity|].
      split; [|assumption].
      apply bind_ok. exists tt, w1. auto.
Qed.

(** A loop whose body cannot fail under an invariant does not fail. *)
Lemma for_each_total {A} (I : world -> Prop) (body : A -> M unit) (xs : list A) :
  (forall x w, In x xs -> I w -> exists w', body x w = Ok (tt, w') /\ I w') ->
  forall w, I w -> exists w', for_each xs body w = Ok (tt, w') /\ I w'.
Proof.
  induction xs as [|x xs IH]; intros Hbody w HI; simpl.
  - exists w. auto.
  - destruct (Hbody x w) as [w1 [Hx HI1]]; simpl; auto.
    destruct (IH (fun y u Hy => Hbody y u (or_intror Hy)) w1 HI1) as [w' [Hr HI']].
    exists w'. split; [|assumption].
    apply bind_ok. exists tt, w1. auto.
Qed.

End MonadLemmas.

(** ** Dictionaries *)

Lemma NoDup_app_inv {A} (l1 l2 : list A) :
  NoDup (l1 ++ l2) ->
  NoDup l1 /\ NoDup l2 /\ forall a, In a l1 -> ~ In a l2.
Proof.
  intros Hnd. split; [eapply NoDup_app_remove_r; eauto|].
  split; [eapply NoDup_app_remove_l; eauto|].
  induction l1 as [|x l1 IH]; simpl in *; intros a Ha; [contradiction|].
  inversion Hnd as [|? ? Hx Hrest]; subst.
  destruct Ha as [->|Ha].
  - intros Hin. apply Hx. apply in_app_iff. now right.
  - now apply IH.
Qed.

Section DictLemmas.

Context {K V : Type} `{Key K}.

Lemma keqb_refl (k : K) : keqb k k = true.
Proof. now apply keqb_eq. Qed.

Lemma keqb_neq (k k' : K) : k <> k' -> keqb k k' = false.
Proof.
  intros Hne. destruct (keqb k k') eqn:Heq; [|reflexivity].
  apply keqb_eq in Heq. contradiction.
Qed.

Lemma key_eq_dec (k k' : K) : {k = k'} + {k <> k'}.
Proof.
  destruct (keqb k k') eqn:Heq.
  - left. now apply keqb_eq.
  - right. intros ->. rewrite keqb_refl in Heq. discriminate.
Qed.

Lemma dict_get_set_same (d : dict K V) k v :
  dict_get (dict_set k v d) k = Some v.
Proof.
  induction d as [|[k' v'] d IH]; simpl.
  - now rewrite keqb_refl.
  - destruct (keqb k' k) eqn:Heq; simpl; rewrite Heq; auto.
Qed.

Lemma dict_get_set_other (d : dict K V) k k' v :
  k <> k' -> dict_get (dict_set k v d) k' = dict_get d k'.
Proof.
  intros Hne. induction d as [|[k0 v0] d IH]; simpl.
  - now rewrite keqb_neq.
  - destruct (keqb k0 k) eqn:Heq; simpl.
    + apply keqb_eq in Heq; subst k0. now rewrite keqb_neq.
    + rewrite IH. reflexivity.
Qed.

Lemma dict_get_In (d : dict K V) k v :
  dict_get d k = Some v -> In (k, v) d.
Proof.
  induction d as [|[k' v'] d IH]; simpl; [discriminate|].
  destruct (keqb k' k) eqn:Heq.
  - intros Hv. inversion Hv; subst. apply keqb_eq in Heq; subst. now left.
  - intros Hv. right. auto.
Qed.

Lemma dict_get_keys (d : dict K V) k :
  In k (keys d) <-> exists v, dict_get d k = Some v.
Proof.
  induction d as [|[k' v'] d IH]; simpl.
  - split; [intros [] | intros [v Hv]; discriminate].
  - destruct (keqb k' k) eqn:Heq.
    + apply keqb_eq in Heq; subst. split; eauto.
    + split.
      * intros [->|Hin]; [rewrite keqb_refl in Heq; discriminate|].
        now apply IH.
      * intros Hv. right. now apply IH.
Qed.

Lemma keys_dict_set (d : dict K V) k v k' :
  In k' (keys (dict_set k v d)) <-> k' = k \/ In k' (keys d).
Proof.
  rewrite !dict_get_keys.
  destruct (key_eq_dec k k') as [->|Hne].
  - rewrite dict_get_set_same. split; [auto | eauto].
  - rewrite dict_get_set_other by assumption.
    split; [auto | intros [->|Hv]; [contradiction | assumption]].
Qed.

Variable r : V -> list nat.

Lemma refs_of_In (d : dict K V) k v a :
  In (k, v) d -> In a (r v) -> In a (refs_of r d).
Proof.
  intros Hin Ha. unfold refs_of. apply in_flat_map.
  exists (k, v). auto.
Qed.

Lemma refs_of_get (d : dict K V) k v a :
  dict_get d k = Some v -> In a (r v) -> In a (refs_of r d).
Proof.
  intros Hget. apply refs_of_In with (k := k). now apply dict_get_In.
Qed.

Lemma dict_set_refs (d : dict K V) k v a :
  In a (refs_of r (dict_set k v d)) -> In a (r v) \/ In a (refs_of r d).
Proof.
  induction d as [|[k' v'] d IH]; simpl.
  - rewrite app_nil_r. auto.
  - destruct (keqb k' k); simpl; rewrite !in_app_iff.
    + intros [Ha|Ha]; auto.
    + intros [Ha|Ha]; auto. destruct (IH Ha); auto.
Qed.

Lemma dict_set_NoDup (d : dict K V) k v :
  NoDup (r v) -> NoDup (refs_of r d) ->
  (forall a, In a (r v) -> ~ In a (refs_of r d)) ->
  NoDup (refs_of r (dict_set k v d)).
Proof.
  intros Hv. induction d as [|[k' v'] d IH]; simpl; intros Hd Hdisj.
  - now rewrite app_nil_r.
  - apply NoDup_app_inv in Hd as [Hv' [Hd' Hsep]].
    destruct (keqb k' k); simpl; apply NoDup_app.
    + assumption.
    + assumption.
    + intros a Ha Hin. apply (Hdisj a Ha). apply in_app_iff. now right.
    + assumption.
    + apply IH; [assumption|].
      intros a Ha Hin. apply (Hdisj a Ha). apply in_app_iff. now right.
    + intros a Ha Hin. apply dict_set_refs in Hin as [Hin|Hin].
      * apply (Hdisj a Hin). apply in_app_iff. now left.
      * exact (Hsep a Ha Hin).
Qed.

(** Under distinct references, a reference determines its entry. *)
Lemma refs_of_inj (d : dict K V) k1 v1 k2 v2 a :
  NoDup (refs_of r d) ->
  In (k1, v1) d -> In (k2, v2) d -> In a (r v1) -> In a (r v2) ->
  (k1, v1) = (k2, v2).
Proof.
  induction d as [|[k v] d IH]; simpl; intros Hnd H1 H2 Ha1 Ha2.
  - contradiction.
  - apply NoDup_app_inv in Hnd as [Hv [Hd Hsep]].
    destruct H1 as [H1|H1], H2 as [H2|H2].
    + congruence.
    + inversion H1; subst. exfalso. apply (Hsep a Ha1).
      eapply refs_of_In; eauto.
    + inversion H2; subst. exfalso. apply (Hsep a Ha2).
      eapply refs_of_In; eauto.
    + auto.
Qed.

Lemma refs_of_NoDup_entry (d : dict K V) k v :
  NoDup (refs_of r d) -> In (k, v) d -> NoDup (r v).
Proof.
  induction d as [|[k0 v0] d IH]; simpl; intros Hnd Hin; [contradiction|].
  apply NoDup_app_inv in Hnd as [Hv [Hd _]].
  destruct Hin as [Heq|Hin]; [inversion Heq; subst; assumption | auto].
Qed.

End DictLemmas.

(** ** The store *)

Section StoreLemmas.

Context {RS : RandomSource} {E : Estimator}.

Lemma length_update {A} (i : nat) (v : A) (xs : list A) :
  length (update i v xs) = length xs.
Proof.
  revert i; induction xs as [|x xs IH]; intros [|i]; simpl; auto.
Qed.

Lemma nth_error_update_same {A} (i : nat) (v : A) (xs : list A) :
  (i < length xs)%nat -> nth_error (update i v xs) i = Some v.
Proof.
  revert i; induction xs as [|x xs IH]; intros [|i] Hi; simpl in *;
    try lia; auto.
  apply IH. lia.
Qed.

Lemma nth_error_update_other {A} (i j : nat) (v : A) (xs : list A) :
  i <> j -> nth_error (update i v xs) j = nth_error xs j.
Proof.
  revert i j; induction xs as [|x xs IH]; intros [|i] [|j] Hne; simpl;
    try reflexivity; try contradiction.
  apply IH. lia.
Qed.

Lemma shape_update (a : nat) (arr arr' : list float) (h : list (list float)) :
  nth_error h a = Some arr -> length arr' = length arr ->
  shape (update a arr' h) = shape h.
Proof.
  revert a; induction h as [|x h IH]; intros [|a] Ha Hl; simpl in *;
    try discriminate.
  - inversion Ha; subst. now rewrite Hl.
  - f_equal. now apply IH.
Qed.

Lemma shape_nth (h : list (list float)) (a n : nat) :
  nth_error (shape h) a = Some n <->
  exists arr, nth_error h a = Some arr /\ length arr = n.
Proof.
  unfold shape. rewrite nth_error_map.
  destruct (nth_error h a) as [arr|]; simpl; split.
  - intros Hn. inversion Hn. eauto.
  - intros [arr' [Ha Hl]]. inversion Ha; subst. reflexivity.
  - discriminate.
  - intros [arr' [Ha _]]. discriminate.
Qed.

Lemma shape_app (h h' : list (list float)) : shape (h ++ h') = shape h ++ shape h'.
Proof. apply map_app. Qed.

Lemma shape_length (h : list (list float)) : length (shape h) = length h.
Proof. apply length_map. Qed.

(** What an element assignment does. *)
Lemma setitem_ok (a i : nat) (v : float) (w w' : world) :
  setitem a i v w = Ok (tt, w') ->
  rng w' = rng w /\ drawn w' = drawn w /\ junk w' = junk w /\
  wlog w' = (a, i) :: wlog w /\
  shape (heap w') = shape (heap w) /\
  read (heap w') a i = Some v /\
  (forall a' i', (a', i') <> (a, i) ->
                 read (heap w') a' i' = read (heap w) a' i').
Proof.
  unfold setitem. destruct (nth_error (heap w) a) as [arr|] eqn:Ha;
    [|discriminate].
  destruct (Nat.ltb_spec i (length arr)) as [Hi|Hi]; [|discriminate].
  intros Hw. inversion Hw; subst; clear Hw. simpl.
  assert (Hlen : (a < length (heap w))%nat).
  { apply nth_error_Some. congruence. }
  repeat split.
  - eapply shape_update; eauto. apply length_update.
  - unfold read. rewrite nth_error_update_same by assumption.
    now apply nth_error_update_same.
  - intros a' i' Hne. unfold read.
    destruct (Nat.eq_dec a a') as [<-|Hna].
    + rewrite nth_error_update_same by assumption. rewrite Ha.
      apply nth_error_update_other. congruence.
    + now rewrite nth_error_update_other.
Qed.

Lemma setitem_total (a i n : nat) (v : float) (w : world) :
  nth_error (shape (heap w)) a = Some n -> (i < n)%nat ->
  exists w', setitem a i v w = Ok (tt, w').
Proof.
  intros Ha Hi. apply shape_nth in Ha as [arr [Ha Hl]].
  unfold setitem. rewrite Ha.
  destruct (Nat.ltb_spec i (length arr)); [eauto | lia].
Qed.

End StoreLemmas.

(** ** The dict comprehensions of lines 76-83 *)

Section Comprehension.

Context {RS : RandomSource} {E : Estimator}.

Lemma nth_error_app_Some {A} (l l' : list A) (a : nat) (x : A) :
  nth_error l a = Some x -> nth_error (l ++ l') a = Some x.
Proof.
  intros Ha. rewrite nth_error_app1; [assumption|].
  apply nth_error_Some. congruence.
Qed.

Lemma good_nil {K V} (r : V -> list nat) (n base : nat) (sh : list nat) :
  good r n base (@nil (K * V)) sh.
Proof.
  split; [constructor | intros a []].
Qed.

Lemma good_set {K V} `{Key K} (r : V -> list nat) (n base : nat)
    (d : dict K V) (sh sh' : list nat) (k : K) (v : V) :
  good r n base d sh ->
  NoDup (r v) ->
  (forall a, In a (r v) ->
             (length sh <= a)%nat /\ (base <= a)%nat /\
             nth_error (sh ++ sh') a = Some n) ->
  good r n base (dict_set k v d) (sh ++ sh').
Proof.
  intros [Hnd Hall] Hv Hnew. split.
  - apply dict_set_NoDup; auto.
    intros a Ha Hin. destruct (Hnew a Ha) as [Hge _].
    destruct (Hall a Hin) as [_ Hn].
    assert (a < length sh)%nat by (apply nth_error_Some; congruence). lia.
  - intros a Ha. apply dict_set_refs in Ha as [Ha|Ha].
    + destruct (Hnew a Ha) as [_ [Hb Hn]]. auto.
    + destruct (Hall a Ha) as [Hb Hn]. split; [assumption|].
      now apply nth_error_app_Some.
Qed.

Lemma inner_dict_spec (n base : nat) (dimensions : list nat) :
  forall (acc : dict nat cell) (w : world),
    (base <= length (heap w))%nat ->
    good cell_refs n base acc (shape (heap w)) ->
    exists r w',
      inner_dict n dimensions acc w = Ok (r, w') /\
      good cell_refs n base r (shape (heap w')) /\
      rng w' = rng w /\ drawn w' = drawn w /\ wlog w' = wlog w /\
      junk w' = junk w /\
      (exists news, heap w' = heap w ++ news) /\
      (forall d, In d (keys r) <-> In d dimensions \/ In d (keys acc)).
Proof.
  induction dimensions as [|d rest IH]; intros acc w Hbase Hgood.
  - exists acc, w. simpl. unfold ret.
    split; [reflexivity|]. split; [assumption|].
    do 4 (split; [reflexivity|]). split.
    + exists []. now rewrite app_nil_r.
    + intros d; split; [auto | intros [[]|Hin]; assumption].
  - simpl. unfold bind at 1. unfold np_empty at 1. cbn beta iota.
    unfold bind at 1. unfold np_empty at 1. cbn beta iota.
    set (L := length (heap w)).
    set (a1 := map (junk w L) (seq 0 n)).
    set (w1 := set_heap w (heap w ++ [a1])).
    set (a2 := map (junk w1 (length (heap w1))) (seq 0 n)).
    set (w2 := set_heap w1 (heap w1 ++ [a2])).
    assert (Hh2 : heap w2 = heap w ++ [a1; a2]).
    { unfold w2, w1. simpl. now rewrite <- app_assoc. }
    assert (Hl1 : length (heap w1) = S L).
    { unfold w1. simpl. rewrite length_app. simpl. unfold L. lia. }
    assert (Hsh2 : shape (heap w2) = shape (heap w) ++ [n; n]).
    { rewrite Hh2, shape_app. simpl. unfold a1, a2.
      now rewrite !length_map, !length_seq. }
    assert (Henv : rng w2 = rng w /\ drawn w2 = drawn w /\
                   wlog w2 = wlog w /\ junk w2 = junk w).
    { unfold w2, w1. simpl. auto. }
    destruct Henv as [Er [Ed [El Ej]]].
    set (L1 := length (heap w1)) in *.
    clearbody L1 w2 a1 a2. clear w1. subst L1.
    destruct (IH (dict_set d {| Cell.coverage := L;
                                Cell.width_mean := S L |} acc) w2)
      as [r [w' [Hrun [Hg [Hr [Hd [Hl [Hj [[news Hn] Hk]]]]]]]]].
    + rewrite Hh2, length_app. lia.
    + rewrite Hsh2. apply good_set; auto.
      * unfold cell_refs. cbn [Cell.coverage Cell.width_mean].
        constructor; [simpl; lia|].
        constructor; [simpl; tauto | constructor].
      * unfold cell_refs. cbn [Cell.coverage Cell.width_mean].
        rewrite shape_length. fold L.
        intros a [<-|[<-|[]]].
        -- split; [lia|]. split; [lia|].
           rewrite nth_error_app2 by (rewrite shape_length; fold L; lia).
           rewrite shape_length. fold L. now rewrite Nat.sub_diag.
        -- split; [lia|]. split; [lia|].
           rewrite nth_error_app2 by (rewrite shape_length; fold L; lia).
           rewrite shape_length. fold L.
           replace (S L - L)%nat with 1%nat by lia. reflexivity.
    + exists r, w'. split; [exact Hrun|]. split; [exact Hg|].
      split; [congruence|]. split; [congruence|].
      split; [congruence|]. split; [congruence|]. split.
      * exists ([a1; a2] ++ news). rewrite Hn, Hh2. now rewrite <- app_assoc.
      * intros k. split.
        -- intros Hin. apply Hk in Hin as [Hin|Hin]; [left; now right|].
           apply keys_dict_set in Hin as [->|Hin]; [left; now left | now right].
        -- intros [[<-|Hin]|Hin]; apply Hk.
           ++ right. apply keys_dict_set. now left.
           ++ now left.
           ++ right. apply keys_dict_set. now right.
Qed.

Lemma outer_dict_spec (n base : nat) (dimensions : list nat)
    (methods : list string) :
  forall (acc : table) (w : world),
    (base <= length (heap w))%nat ->
    good inner_refs n base acc (shape (heap w)) ->
    (forall m r, dict_get acc m = Some r ->
                 forall d, In d (keys r) <-> In d dimensions) ->
    exists t w',
      outer_dict n dimensions methods acc w = Ok (t, w') /\
      good inner_refs n base t (shape (heap w')) /\
      rng w' = rng w /\ drawn w' = drawn w /\ wlog w' = wlog w /\
      junk w' = junk w /\
      (exists news, heap w' = heap w ++ news) /\
      (forall m, In m (keys t) <-> In m methods \/ In m (keys acc)) /\
      (forall m r, dict_get t m = Some r ->
                   forall d, In d (keys r) <-> In d dimensions).
Proof.
  induction methods as [|m rest IH]; intros acc w Hbase Hgood Hkeys.
  - exists acc, w. simpl. unfold ret.
    split; [reflexivity|]. split; [assumption|].
    do 4 (split; [reflexivity|]). split; [|split; [|assumption]].
    + exists []. now rewrite app_nil_r.
    + intros k; split; [auto | intros [[]|Hin]; assumption].
  - simpl. unfold bind at 1.
    destruct (inner_dict_spec n (length (heap w)) dimensions [] w)
      as [r [w1 [Hrun [Hg [Hr [Hd [Hl [Hj [[news Hn] Hk]]]]]]]]].
    + lia.
    + apply good_nil.
    + rewrite Hrun.
      assert (Hsh : shape (heap w1) = shape (heap w) ++ shape news).
      { now rewrite Hn, shape_app. }
      destruct (IH (dict_set m r acc) w1)
        as [t [w' [Hrun' [Hg' [Hr' [Hd' [Hl' [Hj' [[news' Hn'] [Hk' Hin']]]]]]]]]].
      * rewrite Hn, length_app. lia.
      * rewrite Hsh. apply good_set; auto.
        -- apply Hg.
        -- intros a Ha. destruct Hg as [_ Hall].
           destruct (Hall a Ha) as [Hge Hsome].
           rewrite shape_length. split; [assumption|].
           split; [lia|]. now rewrite <- Hsh.
      * intros m' r'. destruct (key_eq_dec m m') as [<-|Hne].
        -- rewrite dict_get_set_same. intros Heq; inversion Heq; subst.
           intros d. rewrite Hk. simpl. tauto.
        -- rewrite dict_get_set_other by assumption. apply Hkeys.
      * exists t, w'. split; [exact Hrun'|]. split; [exact Hg'|].
        split; [congruence|]. split; [congruence|].
        split; [congruence|]. split; [congruence|].
        split; [|split; [|assumption]].
        -- exists (news ++ news'). rewrite Hn', Hn. now rewrite <- app_assoc.
        -- intros k. rewrite Hk'. rewrite keys_dict_set. simpl.
           split; [intros [H|[H|H]] | intros [[H|H]|H]]; auto.
Qed.

End Comprehension.

(** ** The table *)

Lemma lookup_inv (t : table) (m : string) (d : nat) (c : cell) :
  lookup t m d = Some c ->
  exists r, dict_get t m = Some r /\ dict_get r d = Some c.
Proof.
  unfold lookup. destruct (dict_get t m) as [r|]; [eauto | discriminate].
Qed.

Lemma lookup_refs (t : table) (m : string) (d : nat) (c : cell) (a : nat) :
  lookup t m d = Some c -> In a (cell_refs c) -> In a (table_refs t).
Proof.
  intros Hl Ha. apply lookup_inv in Hl as [r [Hm Hd]].
  eapply refs_of_get; eauto. eapply refs_of_get; eauto.
Qed.

Lemma lookup_distinct (t : table) m d c m' d' c' (a : nat) :
  NoDup (table_refs t) ->
  lookup t m d = Some c -> lookup t m' d' = Some c' ->
  In a (cell_refs c) -> In a (cell_refs c') ->
  m = m' /\ d = d' /\ c = c'.
Proof.
  intros Hnd Hl Hl' Ha Ha'.
  apply lookup_inv in Hl as [r [Hm Hd]].
  apply lookup_inv in Hl' as [r' [Hm' Hd']].
  apply dict_get_In in Hm, Hm', Hd, Hd'.
  assert (Heq : (m, r) = (m', r')).
  { eapply (refs_of_inj inner_refs); eauto;
      eapply (refs_of_In cell_refs); eauto. }
  inversion Heq; subst.
  assert (Hr : NoDup (inner_refs r')).
  { eapply (refs_of_NoDup_entry inner_refs); eauto. }
  assert (Heq' : (d, c) = (d', c')).
  { eapply (refs_of_inj cell_refs); eauto. }
  inversion Heq'; subst. auto.
Qed.

Lemma cell_distinct (t : table) m d c :
  NoDup (table_refs t) -> lookup t m d = Some c ->
  Cell.coverage c <> Cell.width_mean c.
Proof.
  intros Hnd Hl. apply lookup_inv in Hl as [r [Hm Hd]].
  apply dict_get_In in Hm, Hd.
  assert (Hr : NoDup (inner_refs r)).
  { eapply (refs_of_NoDup_entry inner_refs); eauto. }
  assert (Hc : NoDup (cell_refs c)).
  { eapply (refs_of_NoDup_entry cell_refs); eauto. }
  unfold cell_refs in Hc. inversion Hc as [|? ? Hnot _]; subst.
  intros Heq. apply Hnot. simpl. auto.
Qed.

Lemma lookup_keys (t : table) (dims : list nat) m d :
  (forall m r, dict_get t m = Some r -> forall d, In d (keys r) <-> In d dims) ->
  (exists c, lookup t m d = Some c) <-> In m (keys t) /\ In d dims.
Proof.
  intros Hk. unfold lookup. split.
  - intros [c Hc]. destruct (dict_get t m) as [r|] eqn:Hm; [|discriminate].
    split.
    + apply dict_get_keys. eauto.
    + apply (Hk m r Hm). apply dict_get_keys. eauto.
  - intros [Hm Hd]. apply dict_get_keys in Hm as [r Hm]. rewrite Hm.
    apply dict_get_keys. now apply (Hk m r Hm).
Qed.

(** ** One method on the data of one trial *)

Section MethodBody.

Context {RS : RandomSource} {E : Estimator}.

Lemma method_body_err (results : table) alpha d t data m w e :
  evaluate alpha data m = Err e ->
  method_body results alpha d t data m w = Err e.
Proof.
  unfold evaluate, method_body, bind, call, lift, raise, ret, rbind.
  destruct (fit _ _ _) as [e1|ft]; [congruence|].
  destruct (predict _ _) as [e2|yp]; [congruence|].
  destruct (coverage_of _ _) as [cov|e3]; [|congruence].
  destruct (width_mean_of _) as [wid|e4]; [discriminate | congruence].
Qed.

Lemma method_body_ok (results : table) alpha d t data m w n base c cov wid :
  table_wf n base results (shape (heap w)) ->
  lookup results m d = Some c -> (t < n)%nat ->
  evaluate alpha data m = Ok (cov, wid) ->
  exists w',
    method_body results alpha d t data m w = Ok (tt, w') /\
    rng w' = rng w /\ drawn w' = drawn w /\ junk w' = junk w /\
    wlog w' = (Cell.width_mean c, t) :: (Cell.coverage c, t) :: wlog w /\
    shape (heap w') = shape (heap w) /\
    read (heap w') (Cell.coverage c) t = Some cov /\
    read (heap w') (Cell.width_mean c) t = Some wid /\
    (forall a i, (a, i) <> (Cell.coverage c, t) ->
                 (a, i) <> (Cell.width_mean c, t) ->
                 read (heap w') a i = read (heap w) a i).
Proof.
  intros [Hnd Hall] Hl Ht Hev.
  pose proof (cell_distinct results m d c Hnd Hl) as Hcw.
  assert (Hc : nth_error (shape (heap w)) (Cell.coverage c) = Some n).
  { apply Hall. eapply lookup_refs; eauto. simpl; auto. }
  assert (Hw : nth_error (shape (heap w)) (Cell.width_mean c) = Some n).
  { apply Hall. eapply lookup_refs; eauto. simpl; auto. }
  apply lookup_inv in Hl as [r [Hm Hd]].
  destruct (setitem_total (Cell.coverage c) t n cov w Hc Ht) as [w1 H1].
  destruct (setitem_ok _ _ _ _ _ H1) as [R1 [D1 [J1 [L1 [S1 [V1 F1]]]]]].
  rewrite <- S1 in Hw.
  destruct (setitem_total (Cell.width_mean c) t n wid w1 Hw Ht) as [w2 H2].
  destruct (setitem_ok _ _ _ _ _ H2) as [R2 [D2 [J2 [L2 [S2 [V2 F2]]]]]].
  exists w2. split.
  - revert Hev.
    unfold evaluate, method_body, bind, call, lift, raise, ret, rbind, getitem.
    destruct (fit _ _ _) as [e1|ft]; [discriminate|].
    destruct (predict _ _) as [e2|yp]; [discriminate|].
    destruct (coverage_of _ _) as [cov'|e3]; [|discriminate].
    destruct (width_mean_of _) as [wid'|e4]; [|discriminate].
    intros Hev. inversion Hev; subst.
    rewrite Hm. cbn beta iota. rewrite !Hd. cbn beta iota.
    rewrite H1. cbn beta iota. rewrite H2. reflexivity.
  - split; [congruence|]. split; [congruence|]. split; [congruence|].
    split; [congruence|]. split; [congruence|]. split; [|split].
    + rewrite F2; [assumption|]. congruence.
    + assumption.
    + intros a i Hc' Hw'. rewrite F2, F1; auto.
Qed.

(** A method body that returns has evaluated the estimator. *)
Lemma method_body_inv (results : table) alpha d t data m w w' :
  method_body results alpha d t data m w = Ok (tt, w') ->
  exists cov wid, evaluate alpha data m = Ok (cov, wid).
Proof.
  destruct (evaluate alpha data m) as [[cov wid]|e] eqn:Hev; [eauto|].
  rewrite (method_body_err results alpha d t data m w e Hev). discriminate.
Qed.

End MethodBody.

(** ** The data of a trial *)

Section TrialData.

Context {RS : RandomSource} {E : Estimator}.

Lemma draws_length (k : nat) (g : G) : length (fst (draws k g)) = k.
Proof.
  destruct (draws_finite k g) as [rs [-> Hlen]]. now rewrite length_map.
Qed.

Lemma draw_rows_length (rows cols : nat) (g : G) :
  length (fst (draw_rows rows cols g)) = rows /\
  Forall (fun row => length row = cols) (fst (draw_rows rows cols g)).
Proof.
  revert g; induction rows as [|r IH]; intros g; simpl.
  - split; [reflexivity | constructor].
  - pose proof (draws_length cols g) as Hrow.
    destruct (draws cols g) as [row g1]. specialize (IH g1).
    destruct (draw_rows r cols g1) as [rest g2]. simpl in *.
    destruct IH as [Hl Hall]. split; [lia | now constructor].
Qed.

Lemma normal_run (size : nat) (w : world) :
  normal size w
  = Ok (fst (draws size (rng w)), set_rng w (snd (draws size (rng w)))).
Proof.
  unfold normal. now destruct (draws size (rng w)).
Qed.

Lemma normal2_run (rows cols : nat) (w : world) :
  normal2 rows cols w
  = Ok (fst (draw_rows rows cols (rng w)),
        set_rng w (snd (draw_rows rows cols (rng w)))).
Proof.
  revert w; induction rows as [|r IH]; intros w; simpl.
  - unfold ret. destruct w; reflexivity.
  - unfold bind. rewrite normal_run, IH. unfold ret. simpl.
    destruct (draws cols (rng w)) as [row g1]. simpl.
    destruct (draw_rows r cols g1) as [rest g2]. reflexivity.
Qed.

Lemma vadd_length (xs ys : list float) :
  length xs = length ys -> length (vadd xs ys) = length ys.
Proof.
  intros Hl. unfold vadd. rewrite length_map, length_combine. lia.
Qed.

Lemma dot_length (X : list (list float)) (b : list float) :
  length (dot X b) = length X.
Proof. apply length_map. Qed.

End TrialData.

Section DrawOrder.

Context {RS : RandomSource} {E : Estimator}.

(** The draws of one trial, in order. *)
Lemma draw_trial_data_run (d : nat) (w : world) :
  exists beta0 g1 Xtr g2 ntr g3 nte g4 Xte g5,
    draws d (rng w) = (beta0, g1) /\
    draw_rows n_train d g1 = (Xtr, g2) /\
    draws n_train g2 = (ntr, g3) /\
    draws n_test g3 = (nte, g4) /\
    draw_rows n_test d g4 = (Xte, g5) /\
    draw_trial_data d w
    = Ok ({| beta := normalize beta0;
             X_train := Xtr;
             noise_train := ntr;
             noise_test := nte;
             y_train := vadd (dot Xtr (normalize beta0)) ntr;
             X_test := Xte;
             y_test := vadd (dot Xte (normalize beta0)) nte |},
          set_rng w g5) /\
    length beta0 = d /\
    length Xtr = n_train /\ Forall (fun row => length row = d) Xtr /\
    length ntr = n_train /\ length nte = n_test /\
    length Xte = n_test /\ Forall (fun row => length row = d) Xte.
Proof.
  pose proof (draws_length d (rng w)) as Lb.
  destruct (draws d (rng w)) as [beta0 g1] eqn:Eb.
  pose proof (draw_rows_length n_train d g1) as [Lx Fx].
  destruct (draw_rows n_train d g1) as [Xtr g2] eqn:Ex.
  pose proof (draws_length n_train g2) as Ln.
  destruct (draws n_train g2) as [ntr g3] eqn:En.
  pose proof (draws_length n_test g3) as Lt.
  destruct (draws n_test g3) as [nte g4] eqn:Et.
  pose proof (draw_rows_length n_test d g4) as [Ly Fy].
  destruct (draw_rows n_test d g4) as [Xte g5] eqn:Ey.
  exists beta0, g1, Xtr, g2, ntr, g3, nte, g4, Xte, g5.
  cbn [fst] in Lb, Lx, Fx, Ln, Lt, Ly, Fy.
  do 5 (split; [first [reflexivity | eassumption]|]).
  split; [|repeat split; assumption].
  unfold draw_trial_data, bind, ret.
  rewrite normal_run, Eb. cbn [fst snd].
  rewrite normal2_run. cbn [rng set_rng]. rewrite Ex. cbn [fst snd].
  rewrite normal_run. cbn [rng set_rng]. rewrite En. cbn [fst snd].
  rewrite normal_run. cbn [rng set_rng]. rewrite Et. cbn [fst snd].
  rewrite normal2_run. cbn [rng set_rng]. rewrite Ey. cbn [fst snd].
  reflexivity.
Qed.

(** C5 (as amended).  Within a trial the draws are made in the order of lines
    86-93: the coefficient vector ([d] values), the training design matrix
    ([100] rows of [d] values), the training noise ([100] values), the test
    noise ([100] values) and, last, the test design matrix ([100] rows of [d]
    values).  The targets are the design matrix times the normalised
    coefficient vector plus the noise, and nothing but the generator
    changes. *)
Theorem draw_order (d : nat) (w : world) :
  exists beta0 g1 Xtr g2 ntr g3 nte g4 Xte g5,
    draws d (rng w) = (beta0, g1) /\
    draw_rows n_train d g1 = (Xtr, g2) /\
    draws n_train g2 = (ntr, g3) /\
    draws n_test g3 = (nte, g4) /\
    draw_rows n_test d g4 = (Xte, g5) /\
    draw_trial_data d w
    = Ok ({| beta := normalize beta0;
             X_train := Xtr;
             noise_train := ntr;
             noise_test := nte;
             y_train := vadd (dot Xtr (normalize beta0)) ntr;
             X_test := Xte;
             y_test := vadd (dot Xte (normalize beta0)) nte |},
          set_rng w g5) /\
    length beta0 = d /\
    length Xtr = n_train /\ Forall (fun row => length row = d) Xtr /\
    length ntr = n_train /\ length nte = n_test /\
    length Xte = n_test /\ Forall (fun row => length row = d) Xte.
Proof. exact (draw_trial_data_run d w). Qed.

(** The data of a trial has [100] test targets. *)
Lemma draw_trial_data_total (d : nat) (w : world) :
  exists data g,
    draw_trial_data d w = Ok (data, set_rng w g) /\
    length (y_test data) = n_test /\ length (X_test data) = n_test.
Proof.
  destruct (draw_trial_data_run d w)
    as (b & g1 & Xtr & g2 & ntr & g3 & nte & g4 & Xte & g5 & _ & _ & _ & _ & _
        & Hrun & _ & _ & _ & _ & Lt & Ly & _).
  eexists _, g5. split; [exact Hrun|]. simpl. split; [|assumption].
  rewrite vadd_length; [assumption|]. rewrite dot_length. congruence.
Qed.

End DrawOrder.

(** ** The nested loops: how often a cell is assigned *)

Lemma list_sum_indicator {A} (dec : forall x y : A, {x = y} + {x <> y})
    (y : A) (c : nat) (xs : list A) :
  list_sum (map (fun x => if dec x y then c else O) xs)
  = (count_occ dec xs y * c)%nat.
Proof.
  induction xs as [|x xs IH]; simpl; [reflexivity|].
  rewrite IH. destruct (dec x y); simpl; lia.
Qed.

Lemma count_occ_seq (n t : nat) :
  (t < n)%nat -> count_occ Nat.eq_dec (seq 0 n) t = 1%nat.
Proof.
  intros Ht. apply NoDup_count_occ'; [apply seq_NoDup|].
  apply in_seq. lia.
Qed.

Lemma writes_cons (a i a0 i0 : nat) (log : list (nat * nat)) :
  writes ((a, i) :: log) a0 i0
  = ((if pair_eq_dec (a, i) (a0, i0) then 1 else 0) + writes log a0 i0)%nat.
Proof.
  unfold writes. destruct (pair_eq_dec (a, i) (a0, i0)) as [Heq|Hne].
  - now rewrite (count_occ_cons_eq pair_eq_dec log Heq).
  - now rewrite (count_occ_cons_neq pair_eq_dec log Hne).
Qed.

Section Loops.

Context {RS : RandomSource} {E : Estimator}.

Variables (results : table) (methods : list string) (alpha : float).
Variables (n base : nat) (dimensions : list nat) (sh : list nat).

Hypothesis Hwf : table_wf n base results sh.
Hypothesis Hlook : forall m d, In m methods -> In d dimensions ->
                               exists c, lookup results m d = Some c.

Lemma method_step d t data m w w' :
  In m methods -> In d dimensions -> (t < n)%nat -> shape (heap w) = sh ->
  method_body results alpha d t data m w = Ok (tt, w') ->
  exists c cov wid,
    lookup results m d = Some c /\
    evaluate alpha data m = Ok (cov, wid) /\
    rng w' = rng w /\ drawn w' = drawn w /\ junk w' = junk w /\
    wlog w' = (Cell.width_mean c, t) :: (Cell.coverage c, t) :: wlog w /\
    shape (heap w') = sh /\
    read (heap w') (Cell.coverage c) t = Some cov /\
    read (heap w') (Cell.width_mean c) t = Some wid /\
    (forall a i, (a, i) <> (Cell.coverage c, t) ->
                 (a, i) <> (Cell.width_mean c, t) ->
                 read (heap w') a i = read (heap w) a i).
Proof.
  intros Hm Hd Ht Hsh Hrun.
  destruct (Hlook m d Hm Hd) as [c Hc].
  destruct (method_body_inv _ _ _ _ _ _ _ _ Hrun) as [cov [wid Hev]].
  rewrite <- Hsh in Hwf.
  destruct (method_body_ok results alpha d t data m w n base c cov wid
              Hwf Hc Ht Hev)
    as [w'' [Hrun' [Hr [Hd' [Hj [Hl [Hs [Hc1 [Hc2 Hf]]]]]]]]].
  rewrite Hrun in Hrun'. inversion Hrun'; subst w''.
  exists c, cov, wid. repeat split; try assumption. congruence.
Qed.

(** The cell whose assignments are counted. *)
Variables (m0 : string) (d0 : nat) (c0 : cell) (a0 t0 : nat).

Hypothesis Hc0 : lookup results m0 d0 = Some c0.
Hypothesis Ha0 : In a0 (cell_refs c0).

Lemma method_step_count d t data m w w' :
  In m methods -> In d dimensions -> (t < n)%nat -> shape (heap w) = sh ->
  method_body results alpha d t data m w = Ok (tt, w') ->
  shape (heap w') = sh /\
  writes (wlog w') a0 t0
  = (writes (wlog w) a0 t0
     + (if string_dec m m0
        then (if Nat.eq_dec d d0 then if Nat.eq_dec t t0 then 1 else 0 else 0)
        else 0))%nat.
Proof.
  intros Hm Hd Ht Hsh Hrun.
  destruct (method_step d t data m w w' Hm Hd Ht Hsh Hrun)
    as (c & cov & wid & Hc & _ & _ & _ & _ & Hl & Hs & _).
  split; [assumption|]. rewrite Hl, !writes_cons.
  destruct Hwf as [Hnd _].
  pose proof (cell_distinct results m0 d0 c0 Hnd Hc0) as Hne0.
  assert (Hsame : forall a, In a (cell_refs c) -> a = a0 ->
                            m = m0 /\ d = d0 /\ c = c0).
  { intros a Ha ->. eapply lookup_distinct; eauto. }
  destruct (string_dec m m0) as [->|Hnm];
    [destruct (Nat.eq_dec d d0) as [->|Hnd0];
     [destruct (Nat.eq_dec t t0) as [->|Hnt]|]|].
  - assert (c = c0) by congruence. subst c.
    destruct Ha0 as [<-|[<-|[]]].
    + destruct (pair_eq_dec (Cell.width_mean c0, t0) (Cell.coverage c0, t0))
        as [Heq|_]; [inversion Heq; congruence|].
      destruct (pair_eq_dec (Cell.coverage c0, t0) (Cell.coverage c0, t0));
        [lia | congruence].
    + destruct (pair_eq_dec (Cell.width_mean c0, t0) (Cell.width_mean c0, t0));
        [|congruence].
      destruct (pair_eq_dec (Cell.coverage c0, t0) (Cell.width_mean c0, t0))
        as [Heq|_]; [inversion Heq; congruence | lia].
  - destruct (pair_eq_dec _ _) as [Heq|_]; [inversion Heq; congruence|].
    destruct (pair_eq_dec _ _) as [Heq|_]; [inversion Heq; congruence|]. lia.
  - destruct (pair_eq_dec _ _) as [Heq|_].
    { inversion Heq. destruct (Hsame (Cell.width_mean c)) as [_ [? _]];
        simpl; auto; congruence. }
    destruct (pair_eq_dec _ _) as [Heq|_].
    { inversion Heq. destruct (Hsame (Cell.coverage c)) as [_ [? _]];
        simpl; auto; congruence. }
    lia.
  - destruct (pair_eq_dec _ _) as [Heq|_].
    { inversion Heq. destruct (Hsame (Cell.width_mean c)) as [? _];
        simpl; auto; congruence. }
    destruct (pair_eq_dec _ _) as [Heq|_].
    { inversion Heq. destruct (Hsame (Cell.coverage c)) as [? _];
        simpl; auto; congruence. }
    lia.
Qed.

Lemma trial_body_count d t w w' :
  In d dimensions -> (t < n)%nat -> shape (heap w) = sh ->
  trial_body results methods alpha d t w = Ok (tt, w') ->
  shape (heap w') = sh /\
  writes (wlog w') a0 t0
  = (writes (wlog w) a0 t0
     + (if Nat.eq_dec t t0
        then (if Nat.eq_dec d d0 then count_occ string_dec methods m0 else 0)
        else 0))%nat.
Proof.
  intros Hd Ht Hsh Hrun. unfold trial_body in Hrun.
  apply bind_ok in Hrun as [data [w1 [Hdata Hloop]]].
  destruct (draw_trial_data_total d w) as [data' [g [Hdata' _]]].
  rewrite Hdata in Hdata'. inversion Hdata'; subst data' w1. clear Hdata'.
  destruct (for_each_count (fun u => shape (heap u) = sh)
              (fun u => writes (wlog u) a0 t0)
              (fun m => if string_dec m m0
                        then (if Nat.eq_dec d d0
                              then if Nat.eq_dec t t0 then 1 else 0 else 0)
                        else 0)%nat
              (method_body results alpha d t data) methods)
    with (w := set_rng w g) (w' := w') as [Hs Hc]; auto.
  - intros m u u' Hm Hu Hb. eapply method_step_count; eauto.
  - split; [assumption|]. rewrite Hc, list_sum_indicator. simpl.
    destruct (Nat.eq_dec t t0), (Nat.eq_dec d d0); lia.
Qed.

Lemma trial_loop_count d w w' :
  In d dimensions -> (t0 < n)%nat -> shape (heap w) = sh ->
  for_each (seq 0 n) (fun t => trial_body results methods alpha d t) w
  = Ok (tt, w') ->
  shape (heap w') = sh /\
  writes (wlog w') a0 t0
  = (writes (wlog w) a0 t0
     + (if Nat.eq_dec d d0 then count_occ string_dec methods m0 else 0))%nat.
Proof.
  intros Hd Ht0 Hsh Hrun.
  destruct (for_each_count (fun u => shape (heap u) = sh)
              (fun u => writes (wlog u) a0 t0)
              (fun t => if Nat.eq_dec t t0
                        then (if Nat.eq_dec d d0
                              then count_occ string_dec methods m0 else 0)
                        else 0)%nat
              (fun t => trial_body results methods alpha d t) (seq 0 n))
    with (w := w) (w' := w') as [Hs Hc]; auto.
  - intros t u u' Hin Hu Hb. apply in_seq in Hin.
    eapply trial_body_count; eauto. lia.
  - split; [assumption|].
    rewrite Hc, list_sum_indicator, count_occ_seq by assumption. lia.
Qed.

Lemma dimension_loop_count w w' :
  (t0 < n)%nat -> shape (heap w) = sh ->
  for_each dimensions (fun d =>
    for_each (seq 0 n) (fun t => trial_body results methods alpha d t)) w
  = Ok (tt, w') ->
  shape (heap w') = sh /\
  writes (wlog w') a0 t0
  = (writes (wlog w) a0 t0
     + count_occ Nat.eq_dec dimensions d0 * count_occ string_dec methods m0)%nat.
Proof.
  intros Ht0 Hsh Hrun.
  destruct (for_each_count (fun u => shape (heap u) = sh)
              (fun u => writes (wlog u) a0 t0)
              (fun d => if Nat.eq_dec d d0
                        then count_occ string_dec methods m0 else 0)%nat
              (fun d => for_each (seq 0 n)
                          (fun t => trial_body results methods alpha d t))
              dimensions)
    with (w := w) (w' := w') as [Hs Hc]; auto.
  - intros d u u' Hin Hu Hb. eapply trial_loop_count; eauto.
  - split; [assumption|]. now rewrite Hc, list_sum_indicator.
Qed.

End Loops.

(** ** The harness as a whole *)

Section Harness.

Context {RS : RandomSource} {E : Estimator}.

(** The two phases of the harness: the table is built, then filled. *)
Lemma harness_phases methods alpha n dimensions w0 :
  exists results w1,
    outer_dict n dimensions methods [] w0 = Ok (results, w1) /\
    table_wf n (length (heap w0)) results (shape (heap w1)) /\
    rng w1 = rng w0 /\ drawn w1 = drawn w0 /\ wlog w1 = wlog w0 /\
    junk w1 = junk w0 /\
    (exists news, heap w1 = heap w0 ++ news) /\
    (forall m d, (exists c, lookup results m d = Some c) <->
                 In m methods /\ In d dimensions) /\
    PIs_vs_dimensions methods alpha n dimensions w0
    = match for_each dimensions (fun dimension =>
              for_each (seq 0 n) (fun trial =>
                trial_body results methods alpha dimension trial)) w1 with
      | Ok (_, w') => Ok (results, w')
      | Err e => Err e
      end.
Proof.
  destruct (outer_dict_spec n (length (heap w0)) dimensions methods [] w0)
    as (results & w1 & Hrun & Hg & Hr & Hd & Hl & Hj & Hn & Hk & Hin).
  - lia.
  - apply good_nil.
  - intros m r Hm. discriminate.
  - exists results, w1. repeat (split; [assumption|]). split.
    + intros m d. rewrite (lookup_keys results dimensions m d Hin), Hk.
      simpl. tauto.
    + unfold PIs_vs_dimensions, bind, ret. rewrite Hrun.
      destruct (for_each _ _ w1) as [[[] w']|e]; reflexivity.
Qed.

(** The keys of the table are the methods and the dimensions. *)
Lemma harness_keys methods alpha n dimensions w0 results w' :
  PIs_vs_dimensions methods alpha n dimensions w0 = Ok (results, w') ->
  forall m d, (exists c, lookup results m d = Some c) <->
              In m methods /\ In d dimensions.
Proof.
  intros Hrun.
  destruct (harness_phases methods alpha n dimensions w0)
    as (res & w1 & _ & _ & _ & _ & _ & _ & _ & Hlk & Heq).
  rewrite Hrun in Heq.
  destruct (for_each _ _ w1) as [[[] w2]|e]; [|discriminate].
  inversion Heq; subst res w2. exact Hlk.
Qed.

(** The number of assignments to every element of every array of the table
    during a run. *)
Lemma harness_writes methods alpha n dimensions w0 results w' :
  PIs_vs_dimensions methods alpha n dimensions w0 = Ok (results, w') ->
  shape (heap w') = shape (heap w0) ++ skipn (length (heap w0)) (shape (heap w')) /\
  table_wf n (length (heap w0)) results (shape (heap w')) /\
  forall m d c a t,
    lookup results m d = Some c -> In a (cell_refs c) -> (t < n)%nat ->
    writes (wlog w') a t
    = (writes (wlog w0) a t
       + count_occ Nat.eq_dec dimensions d * count_occ string_dec methods m)%nat.
Proof.
  intros Hrun.
  destruct (harness_phases methods alpha n dimensions w0)
    as (res & w1 & _ & Hwf & _ & _ & Hl & _ & [news Hn] & Hlk & Heq).
  rewrite Heq in Hrun.
  destruct (for_each _ _ w1) as [[[] w2]|e] eqn:Hloop; [|discriminate].
  inversion Hrun; subst res w2. clear Hrun.
  assert (Hlook : forall m d, In m methods -> In d dimensions ->
                              exists c, lookup results m d = Some c).
  { intros m d Hm Hd. apply Hlk. auto. }
  assert (Hshape : shape (heap w') = shape (heap w1)).
  { eapply (for_each_inv (fun u => shape (heap u) = shape (heap w1)));
      [| reflexivity | exact Hloop].
    intros d u u' Hd Hu Hb.
    eapply (for_each_inv (fun u => shape (heap u) = shape (heap w1)));
      [| exact Hu | exact Hb].
    intros t v v' Ht Hv Hb'. apply in_seq in Ht.
    unfold trial_body in Hb'.
    apply bind_ok in Hb' as [data [v1 [Hdata Hm]]].
    destruct (draw_trial_data_total d v) as [data' [g [Hdata' _]]].
    rewrite Hdata in Hdata'. inversion Hdata'; subst data' v1.
    eapply (for_each_inv (fun u => shape (heap u) = shape (heap w1)));
      [| | exact Hm]; [|exact Hv].
    intros m x x' Hin Hx Hb''.
    destruct (method_step results methods alpha n (length (heap w0))
                dimensions (shape (heap w1)) Hwf Hlook d t data m x x')
      as (c & cov & wid & _ & _ & _ & _ & _ & _ & Hs & _); auto. lia. }
  split; [|split].
  - rewrite Hshape, Hn, shape_app.
    rewrite <- (shape_length (heap w0)), skipn_app, skipn_all, Nat.sub_diag.
    reflexivity.
  - now rewrite Hshape.
  - intros m d c a t Hc Ha Ht.
    destruct (dimension_loop_count results methods alpha n (length (heap w0))
                dimensions (shape (heap w1)) Hwf Hlook m d c a t Hc Ha w1 w')
      as [_ Hcount]; auto.
    now rewrite Hcount, Hl.
Qed.

End Harness.

(** ** Coverage and mean width *)

Section Metrics.

Context {E : Estimator}.

Lemma broadcast2_same {A B C} (f : A -> B -> C) (xs : list A) (ys : list B) :
  length xs = length ys ->
  broadcast2 f xs ys = Ok (map (fun p => f (fst p) (snd p)) (combine xs ys)).
Proof.
  intros Hl. unfold broadcast2.
  destruct xs as [|x [|x' xs]], ys as [|y [|y' ys]]; simpl in *;
    try discriminate; try reflexivity.
  inversion Hl as [Hl']. now rewrite Hl', Nat.eqb_refl.
Qed.

Lemma broadcast2_length {A B C} (f : A -> B -> C) xs ys zs :
  broadcast2 f xs ys = Ok zs -> length ys <> 1%nat -> length zs = length ys.
Proof.
  unfold broadcast2.
  destruct xs as [|x [|x' xs]], ys as [|y [|y' ys]]; simpl;
    intros Hz Hne; try discriminate; try (exfalso; apply Hne; reflexivity);
    try (inversion Hz; subst; simpl; now rewrite ?length_map).
  destruct (length xs =? length ys) eqn:Hl; [|discriminate].
  apply Nat.eqb_eq in Hl. inversion Hz; subst. simpl.
  rewrite length_map, length_combine. lia.
Qed.

Lemma Rsum_indicator (bs : list bool) :
  Rsum (map indicator bs) = INR (length (filter (fun b => b) bs)).
Proof.
  induction bs as [|[|] bs IH]; simpl; [reflexivity| |].
  - rewrite IH. destruct (length (filter (fun b => b) bs)); simpl; lra.
  - rewrite IH. lra.
Qed.

Lemma filter_length_le {A} (f : A -> bool) (xs : list A) :
  (length (filter f xs) <= length xs)%nat.
Proof.
  induction xs as [|x xs IH]; simpl; [lia|]. destruct (f x); simpl; lia.
Qed.

Lemma mean_bool_value (bs : list bool) :
  bs <> [] ->
  mean_bool bs
  = Some (INR (length (filter (fun b => b) bs)) / INR (length bs)).
Proof.
  intros Hne. unfold mean_bool, mean, of_nat.
  replace (map of_bool bs) with (map Some (map indicator bs))
    by (rewrite map_map; reflexivity).
  rewrite sum_finite, Rsum_indicator, !length_map. simpl.
  destruct (Req_dec_T (INR (length bs)) 0) as [Hz|_]; [|reflexivity].
  exfalso. apply INR_eq with (m := O) in Hz.
  destruct bs; [contradiction | discriminate].
Qed.

Lemma fraction_range (k n : nat) :
  (k <= n)%nat -> (0 < n)%nat -> 0 <= INR k / INR n <= 1.
Proof.
  intros Hk Hn.
  assert (0 < INR n) by (apply lt_0_INR; assumption).
  assert (0 <= INR k) by apply pos_INR.
  assert (INR k <= INR n) by (apply le_INR; assumption).
  split.
  - apply Rmult_le_pos; [assumption|]. left. now apply Rinv_0_lt_compat.
  - apply (Rmult_le_reg_r (INR n)); [assumption|].
    unfold Rdiv. rewrite Rmult_assoc, Rinv_l by lra. lra.
Qed.

(** The coverage recorded against [n_test] targets is a fraction. *)
Lemma coverage_of_range (y_preds : list pred_row) (y_test : list float) cov :
  length y_test = n_test ->
  coverage_of y_preds y_test = Ok cov ->
  exists v, cov = Some v /\ 0 <= v <= 1.
Proof.
  intros Hl. unfold coverage_of, rbind.
  destruct (broadcast2 fle _ _) as [below|] eqn:Hb; [|discriminate].
  destruct (broadcast2 fge _ _) as [above|] eqn:Ha; [|discriminate].
  destruct (broadcast2 andb _ _) as [both|] eqn:Hboth; [|discriminate].
  intros Hc. inversion Hc; subst cov.
  assert (Hne : length y_test <> 1%nat) by (rewrite Hl; discriminate).
  apply broadcast2_length in Hb, Ha; try assumption.
  assert (Hlb : length both = n_test).
  { rewrite <- Hl, <- Ha. apply (broadcast2_length andb below above); auto.
    congruence. }
  assert (Hnil : both <> []).
  { intros ->. discriminate. }
  rewrite (mean_bool_value both Hnil).
  eexists. split; [reflexivity|].
  apply fraction_range; [apply filter_length_le | rewrite Hlb; unfold n_test; lia].
Qed.

(** With one row per test point, the coverage is the fraction of the test
    points inside their interval. *)
Lemma coverage_of_value (y_preds : list pred_row) (y_test : list float) :
  length y_preds = length y_test -> y_test <> [] ->
  coverage_of y_preds y_test
  = Ok (Some (INR (covered y_preds y_test) / INR (length y_test))).
Proof.
  intros Hl Hne. unfold coverage_of.
  rewrite (broadcast2_same fle) by (unfold lower; now rewrite length_map).
  cbn [rbind].
  rewrite (broadcast2_same fge) by (unfold upper; now rewrite length_map).
  cbn [rbind].
  rewrite (broadcast2_same andb)
    by (rewrite !length_map, !length_combine; unfold lower, upper;
        rewrite !length_map; lia).
  cbn [rbind].
  set (inside := fun p : pred_row * float =>
                   fle (snd (fst (fst p))) (snd p) && fle (snd p) (snd (fst p))).
  assert (Hboth :
    map (fun p => fst p && snd p)
      (combine (map (fun p => fle (fst p) (snd p)) (combine (lower y_preds) y_test))
               (map (fun p => fge (fst p) (snd p)) (combine (upper y_preds) y_test)))
    = map inside (combine y_preds y_test)).
  { clear. revert y_test. induction y_preds as [|r rs IH]; intros [|y ys];
      simpl; try reflexivity.
    now rewrite IH. }
  rewrite Hboth.
  assert (Hn : map inside (combine y_preds y_test) <> []).
  { destruct y_preds, y_test; simpl in *; congruence. }
  rewrite (mean_bool_value _ Hn). do 2 f_equal.
  unfold covered. fold inside.
  rewrite length_map, length_combine, Hl, Nat.min_id. f_equal.
  f_equal. clear. subst inside.
  induction (combine y_preds y_test) as [|p ps IH]; simpl; [reflexivity|].
  destruct (fle _ _ && fle _ _); simpl; now rewrite IH.
Qed.

(** The mean width, when every bound is finite, is the arithmetic mean of
    the differences; otherwise it is not a number. *)
Lemma mean_finite (rs : list R) :
  rs <> [] -> mean (map Some rs) = Some (arithmetic_mean rs).
Proof.
  intros Hne. unfold mean, arithmetic_mean, of_nat.
  rewrite sum_finite, length_map. simpl.
  destruct (Req_dec_T (INR (length rs)) 0) as [Hz|_]; [|reflexivity].
  exfalso. apply INR_eq with (m := O) in Hz.
  destruct rs; [contradiction | discriminate].
Qed.

Lemma all_finite_Some (xs : list float) (rs : list R) :
  all_finite xs = Some rs <-> xs = map Some rs.
Proof.
  revert rs; induction xs as [|[x|] xs IH]; intros rs; simpl.
  - split; [intros Hs; inversion Hs; reflexivity|].
    destruct rs; [reflexivity | discriminate].
  - destruct (all_finite xs) as [rs'|] eqn:Hf; simpl.
    + split.
      * intros Hs. inversion Hs; subst. simpl. f_equal. now apply IH.
      * destruct rs as [|r rs]; [discriminate|]. simpl. intros Hs.
        inversion Hs; subst. f_equal. f_equal.
        assert (Some rs' = Some rs) by (apply IH; reflexivity). congruence.
    + split; [discriminate|].
      destruct rs as [|r rs]; [discriminate|]. simpl. intros Hs.
      inversion Hs; subst.
      assert (None = Some rs) by (apply IH; reflexivity). discriminate.
  - split; [discriminate|]. destruct rs; discriminate.
Qed.

Lemma sum_not_finite (xs : list float) :
  all_finite xs = None -> sum xs = None.
Proof.
  unfold sum. generalize (Some 0) as acc.
  induction xs as [|[x|] xs IH]; intros acc; simpl.
  - discriminate.
  - destruct (all_finite xs); [discriminate|]. intros _. now apply IH.
  - intros _. destruct acc; simpl; apply fold_fadd_None.
Qed.

Lemma mean_value (xs : list float) :
  xs <> [] ->
  mean xs = match all_finite xs with
            | Some rs => Some (arithmetic_mean rs)
            | None => None
            end.
Proof.
  intros Hne. destruct (all_finite xs) as [rs|] eqn:Hf.
  - apply all_finite_Some in Hf. subst xs. apply mean_finite.
    intros ->. contradiction.
  - unfold mean. now rewrite (sum_not_finite xs Hf).
Qed.

Lemma width_mean_of_value (y_preds : list pred_row) :
  width_mean_of y_preds = Ok (mean (vsub (upper y_preds) (lower y_preds))).
Proof.
  unfold width_mean_of.
  rewrite (broadcast2_same fsub) by (unfold upper, lower; now rewrite !length_map).
  reflexivity.
Qed.

End Metrics.

(** ** Runs that complete *)

Section Totality.

Context {RS : RandomSource} {E : Estimator}.

Lemma evaluate_value alpha data m ft yp :
  fit (mapie_of alpha m) (X_train data) (y_train data) = inr ft ->
  predict ft (X_test data) = inr yp ->
  length yp = length (y_test data) -> y_test data <> [] ->
  evaluate alpha data m
  = Ok (Some (INR (covered yp (y_test data)) / INR (length (y_test data))),
        mean (vsub (upper yp) (lower yp))).
Proof.
  intros Hfit Hpred Hl Hne. unfold evaluate. rewrite Hfit, Hpred.
  rewrite coverage_of_value by assumption. cbn [rbind].
  rewrite width_mean_of_value. reflexivity.
Qed.

(** When no method fails on the data of any trial, the harness returns. *)
Lemma harness_total methods alpha n dimensions w0 :
  (forall d w data w1 m,
      In m methods -> draw_trial_data d w = Ok (data, w1) ->
      exists cov wid, evaluate alpha data m = Ok (cov, wid)) ->
  exists results w',
    PIs_vs_dimensions methods alpha n dimensions w0 = Ok (results, w').
Proof.
  intros Hev.
  destruct (harness_phases methods alpha n dimensions w0)
    as (results & w1 & _ & Hwf & _ & _ & _ & _ & _ & Hlk & Heq).
  rewrite Heq.
  assert (Hlook : forall m d, In m methods -> In d dimensions ->
                              exists c, lookup results m d = Some c).
  { intros m d Hm Hd. apply Hlk. auto. }
  destruct (for_each_total (fun u => shape (heap u) = shape (heap w1))
              (fun d => for_each (seq 0 n)
                          (fun t => trial_body results methods alpha d t))
              dimensions) with (w := w1) as [w' [Hrun _]]; [|reflexivity|].
  - intros d u Hd Hu.
    apply (for_each_total (fun u => shape (heap u) = shape (heap w1)));
      [|assumption].
    intros t v Ht Hv. apply in_seq in Ht.
    destruct (draw_trial_data_total d v) as [data [g [Hdata _]]].
    destruct (for_each_total (fun u => shape (heap u) = shape (heap w1))
                (method_body results alpha d t data) methods)
      with (w := set_rng v g) as [v' [Hloop Hv']]; [|assumption|].
    + intros m x Hm Hx.
      destruct (Hev d v data (set_rng v g) m Hm Hdata) as [cov [wid Hcw]].
      destruct (Hlook m d Hm Hd) as [c Hc].
      rewrite <- Hx in Hwf.
      destruct (method_body_ok results alpha d t data m x n
                  (length (heap w0)) c cov wid Hwf Hc) as [x' Hx']; [lia|auto|].
      exists x'. split; [apply Hx'|].
      destruct Hx' as (_ & _ & _ & _ & _ & Hs & _). congruence.
    + exists v'. split; [|assumption].
      unfold trial_body. apply bind_ok. eauto.
  - rewrite Hrun. eauto.
Qed.

End Totality.

(** The estimators of the examples return on the data of every trial. *)
Lemma constant_estimator_total {RS : RandomSource} (row : pred_row)
    alpha d w data w1 m :
  @draw_trial_data RS (constant_estimator row) d w = Ok (data, w1) ->
  exists cov wid,
    @evaluate (constant_estimator row) alpha data m = Ok (cov, wid).
Proof.
  intros Hdata.
  destruct (@draw_trial_data_total RS (constant_estimator row) d w)
    as [data' [g [Hdata' [Hy Hx]]]].
  rewrite Hdata in Hdata'. inversion Hdata'; subst data'.
  do 2 eexists.
  apply (@evaluate_value (constant_estimator row) alpha data m tt
           (map (fun _ => row) (X_test data))); try reflexivity.
  - rewrite length_map. congruence.
  - intros Hnil. rewrite Hnil in Hy. discriminate.
Qed.

Section FilledArrays.

Context {RS : RandomSource} {E : Estimator}.

(** C1 (as amended).  When the harness returns, the table holds, for every
    method of [methods] and every dimension of [dimensions], a coverage array
    and a width array of length [n_trial]; during the call every index below
    [n_trial] of both arrays is assigned as many times as the method occurs in
    [methods] times the dimension occurs in [dimensions], which is exactly
    once when neither list repeats an entry. *)
Theorem result_arrays_filled methods alpha n_trial dimensions w0 results w' :
  PIs_vs_dimensions methods alpha n_trial dimensions w0 = Ok (results, w') ->
  forall m d, In m methods -> In d dimensions ->
  exists c cov wid,
    lookup results m d = Some c /\
    nth_error (heap w') (Cell.coverage c) = Some cov /\
    length cov = n_trial /\
    nth_error (heap w') (Cell.width_mean c) = Some wid /\
    length wid = n_trial /\
    forall t, (t < n_trial)%nat ->
      let k := (count_occ Nat.eq_dec dimensions d
                * count_occ string_dec methods m)%nat in
      writes (wlog w') (Cell.coverage c) t
      = (writes (wlog w0) (Cell.coverage c) t + k)%nat /\
      writes (wlog w') (Cell.width_mean c) t
      = (writes (wlog w0) (Cell.width_mean c) t + k)%nat /\
      (NoDup methods -> NoDup dimensions -> k = 1%nat).
Proof.
  intros Hrun m d Hm Hd.
  destruct (harness_writes methods alpha n_trial dimensions w0 results w' Hrun)
    as [_ [[Hnd Hall] Hcount]].
  destruct (harness_phases methods alpha n_trial dimensions w0)
    as (res & w1 & _ & _ & _ & _ & _ & _ & _ & Hlk & Heq).
  rewrite Hrun in Heq.
  destruct (for_each _ _ w1) as [[[] w2]|e]; [|discriminate].
  inversion Heq; subst res w2.
  destruct (proj2 (Hlk m d) (conj Hm Hd)) as [c Hc].
  destruct (Hall (Cell.coverage c)) as [_ Hcov].
  { eapply lookup_refs; eauto. simpl; auto. }
  destruct (Hall (Cell.width_mean c)) as [_ Hwid].
  { eapply lookup_refs; eauto. simpl; auto. }
  apply shape_nth in Hcov as [cov [Hcov Hlc]].
  apply shape_nth in Hwid as [wid [Hwid Hlw]].
  exists c, cov, wid. repeat (split; [assumption|]).
  intros t Ht k. split; [|split].
  - apply (Hcount m d c); simpl; auto.
  - apply (Hcount m d c); simpl; auto.
  - intros Hnm Hndim. unfold k.
    rewrite (proj1 (NoDup_count_occ' Nat.eq_dec dimensions) Hndim d Hd).
    rewrite (proj1 (NoDup_count_occ' string_dec methods) Hnm m Hm).
    reflexivity.
Qed.

End FilledArrays.

(** The scenario of the specification: one method, one trial, one
    dimension. *)
Lemma result_arrays_filled_witness :
  exists results w',
    @PIs_vs_dimensions counting (constant_estimator (Some 0, Some 0, Some 1))
      ["naive"%string] (Some (1 / 10)) 1 [5%nat] (@start counting 1%Z)
    = Ok (results, w') /\
    exists c cov wid,
      lookup results "naive" 5 = Some c /\
      nth_error (heap w') (Cell.coverage c) = Some cov /\
      length cov = 1%nat /\
      nth_error (heap w') (Cell.width_mean c) = Some wid /\
      length wid = 1%nat /\
      forall t, (t < 1)%nat ->
        let k := (count_occ Nat.eq_dec [5%nat] 5
                  * count_occ string_dec ["naive"%string] "naive"%string)%nat in
        writes (wlog w') (Cell.coverage c) t
        = (writes (@wlog counting (@start counting 1%Z)) (Cell.coverage c) t + k)%nat /\
        writes (wlog w') (Cell.width_mean c) t
        = (writes (@wlog counting (@start counting 1%Z)) (Cell.width_mean c) t + k)%nat /\
        (NoDup ["naive"%string] -> NoDup [5%nat] -> k = 1%nat).
Proof.
  destruct (@harness_total counting (constant_estimator (Some 0, Some 0, Some 1))
              ["naive"%string] (Some (1 / 10)) 1%nat [5%nat] (@start counting 1%Z))
    as [results [w' Hrun]].
  - intros d w data w1 m _ Hdata.
    eapply constant_estimator_total; eauto.
  - exists results, w'. split; [exact Hrun|].
    apply (@result_arrays_filled counting
             (constant_estimator (Some 0, Some 0, Some 1))
             ["naive"%string] (Some (1 / 10)) 1%nat [5%nat] (@start counting 1%Z)
             results w' Hrun "naive"%string 5%nat);
      simpl; auto.
Defined.

(** C1 fails as stated: with a dimension listed twice, every index of the
    arrays of that dimension is assigned twice. *)
Lemma repeated_dimension_written_twice :
  exists results w' c,
    @PIs_vs_dimensions counting (constant_estimator (Some 0, Some 0, Some 1))
      ["naive"%string] (Some (1 / 10)) 1 [5%nat; 5%nat] (@start counting 1%Z)
    = Ok (results, w') /\
    lookup results "naive" 5 = Some c /\
    writes (wlog w') (Cell.coverage c) 0 = 2%nat /\
    writes (wlog w') (Cell.width_mean c) 0 = 2%nat.
Proof.
  destruct (@harness_total counting (constant_estimator (Some 0, Some 0, Some 1))
              ["naive"%string] (Some (1 / 10)) 1%nat [5%nat; 5%nat] (@start counting 1%Z))
    as [results [w' Hrun]].
  - intros d w data w1 m _ Hdata.
    eapply constant_estimator_total; eauto.
  - destruct (harness_writes _ _ _ _ _ _ _ Hrun) as [_ [_ Hcount]].
    destruct (harness_phases (E := constant_estimator (Some 0, Some 0, Some 1))
                ["naive"%string] (Some (1 / 10)) 1%nat [5%nat; 5%nat]
                (@start counting 1%Z))
      as (res & w1 & _ & _ & _ & _ & _ & _ & _ & Hlk & Heq).
    rewrite Hrun in Heq.
    destruct (for_each _ _ w1) as [[[] w2]|e]; [|discriminate].
    inversion Heq; subst res w2.
    destruct (proj2 (Hlk "naive"%string 5%nat)) as [c Hc]; [simpl; auto|].
    exists results, w', c. split; [exact Hrun|]. split; [exact Hc|].
    split; rewrite (Hcount "naive"%string 5%nat c); simpl; auto.
Qed.

(** ** The values of the cells *)

Section CellValues.

Context {RS : RandomSource} {E : Estimator}.

Variables (results : table) (methods : list string) (alpha : float).
Variables (n base : nat) (dimensions : list nat) (sh : list nat).
Variable log0 : list (nat * nat).

(** A property of what is recorded for a method and a dimension. *)
Variable P : string -> nat -> float -> float -> Prop.

Hypothesis Hwf : table_wf n base results sh.
Hypothesis Hlook : forall m d, In m methods -> In d dimensions ->
                               exists c, lookup results m d = Some c.
Hypothesis HP : forall m d w data w1 cov wid,
    In m methods -> In d dimensions ->
    draw_trial_data d w = Ok (data, w1) ->
    evaluate alpha data m = Ok (cov, wid) -> P m d cov wid.

Local Abbreviation cells_ok := (cells_ok results sh log0 P).

Lemma method_step_cells d t data m w w' wx wy :
  In m methods -> In d dimensions -> (t < n)%nat ->
  draw_trial_data d wx = Ok (data, wy) ->
  cells_ok w ->
  method_body results alpha d t data m w = Ok (tt, w') ->
  cells_ok w'.
Proof.
  intros Hm Hd Ht Hdata [Hsh Hcells] Hrun.
  destruct (method_step results methods alpha n base dimensions sh Hwf Hlook
              d t data m w w' Hm Hd Ht Hsh Hrun)
    as (c & cov & wid & Hc & Hev & _ & _ & _ & Hl & Hs & Hrc & Hrw & Hframe).
  split; [assumption|].
  intros m1 d1 c1 t1 Hc1 Hlt.
  destruct (method_step_count results methods alpha n base dimensions sh
              Hwf Hlook m1 d1 c1 (Cell.coverage c1) t1 Hc1
              (or_introl eq_refl) d t data m w w' Hm Hd Ht Hsh Hrun)
    as [_ Hcount].
  destruct Hwf as [Hnd _].
  destruct (string_dec m m1) as [->|Hnm];
    [destruct (Nat.eq_dec d d1) as [->|Hnd1];
     [destruct (Nat.eq_dec t t1) as [->|Hnt]|]|].
  - assert (c = c1) by congruence. subst c1.
    exists cov, wid. split; [assumption|]. split; [assumption|].
    eapply HP; eauto.
  - assert (Hlt' : (writes log0 (Cell.coverage c1) t1
                    < writes (wlog w) (Cell.coverage c1) t1)%nat) by lia.
    assert (c = c1) by congruence. subst c1.
    destruct (Hcells m1 d1 c t1 Hc1 Hlt') as (cov1 & wid1 & R1 & R2 & HP1).
    exists cov1, wid1.
    rewrite !Hframe; [auto | congruence | congruence | congruence | congruence].
  - assert (Hlt' : (writes log0 (Cell.coverage c1) t1
                    < writes (wlog w) (Cell.coverage c1) t1)%nat) by lia.
    destruct (Hcells m1 d1 c1 t1 Hc1 Hlt') as (cov1 & wid1 & R1 & R2 & HP1).
    exists cov1, wid1.
    assert (Hsep : forall a a', In a (cell_refs c1) -> In a' (cell_refs c) ->
                                a <> a').
    { intros a a' Ha Ha' ->.
      destruct (lookup_distinct results m1 d1 c1 m1 d c a' Hnd Hc1 Hc Ha Ha')
        as [_ [? _]]. congruence. }
    rewrite !Hframe; [auto | | | |]; intros Heq; injection Heq as Ha _;
      (eapply Hsep; [| |exact Ha]; simpl; auto).
  - assert (Hlt' : (writes log0 (Cell.coverage c1) t1
                    < writes (wlog w) (Cell.coverage c1) t1)%nat) by lia.
    destruct (Hcells m1 d1 c1 t1 Hc1 Hlt') as (cov1 & wid1 & R1 & R2 & HP1).
    exists cov1, wid1.
    assert (Hsep : forall a a', In a (cell_refs c1) -> In a' (cell_refs c) ->
                                a <> a').
    { intros a a' Ha Ha' ->.
      destruct (lookup_distinct results m1 d1 c1 m d c a' Hnd Hc1 Hc Ha Ha')
        as [? _]. congruence. }
    rewrite !Hframe; [auto | | | |]; intros Heq; injection Heq as Ha _;
      (eapply Hsep; [| |exact Ha]; simpl; auto).
Qed.

Lemma trial_body_cells d t w w' :
  In d dimensions -> (t < n)%nat -> cells_ok w ->
  trial_body results methods alpha d t w = Ok (tt, w') ->
  cells_ok w'.
Proof.
  intros Hd Ht Hok Hrun. unfold trial_body in Hrun.
  apply bind_ok in Hrun as [data [w1 [Hdata Hloop]]].
  destruct (draw_trial_data_total d w) as [data' [g [Hdata' _]]].
  rewrite Hdata in Hdata'. inversion Hdata'; subst data' w1. clear Hdata'.
  eapply (for_each_inv cells_ok); [| |exact Hloop].
  - intros m u u' Hm Hu Hb. eapply method_step_cells; eauto.
  - exact Hok.
Qed.

Lemma loops_cells w w' :
  cells_ok w ->
  for_each dimensions (fun d =>
    for_each (seq 0 n) (fun t => trial_body results methods alpha d t)) w
  = Ok (tt, w') ->
  cells_ok w'.
Proof.
  intros Hok Hrun.
  eapply (for_each_inv cells_ok); [| exact Hok | exact Hrun].
  intros d u u' Hd Hu Hb.
  eapply (for_each_inv cells_ok); [| exact Hu | exact Hb].
  intros t v v' Ht Hv Hb'. apply in_seq in Ht.
  eapply trial_body_cells; eauto. lia.
Qed.

End CellValues.

Section HarnessCells.

Context {RS : RandomSource} {E : Estimator}.

(** A property of everything a method can record holds of every cell of the
    table the harness returns. *)
Lemma harness_cells (P : string -> nat -> float -> float -> Prop)
    methods alpha n dimensions w0 results w' :
  (forall m d w data w1 cov wid,
      In m methods -> In d dimensions ->
      draw_trial_data d w = Ok (data, w1) ->
      evaluate alpha data m = Ok (cov, wid) -> P m d cov wid) ->
  PIs_vs_dimensions methods alpha n dimensions w0 = Ok (results, w') ->
  forall m d c t,
    lookup results m d = Some c -> (t < n)%nat ->
    exists cov wid,
      read (heap w') (Cell.coverage c) t = Some cov /\
      read (heap w') (Cell.width_mean c) t = Some wid /\
      P m d cov wid.
Proof.
  intros HP Hrun m d c t Hc Ht.
  destruct (harness_writes methods alpha n dimensions w0 results w' Hrun)
    as [_ [_ Hcount]].
  destruct (harness_phases methods alpha n dimensions w0)
    as (res & w1 & _ & Hwf & _ & _ & Hl & _ & _ & Hlk & Heq).
  rewrite Hrun in Heq.
  destruct (for_each _ _ w1) as [[[] w2]|e] eqn:Hloop; [|discriminate].
  inversion Heq; subst res w2. clear Heq.
  assert (Hlook : forall m d, In m methods -> In d dimensions ->
                              exists c, lookup results m d = Some c).
  { intros m1 d1 Hm Hd. apply Hlk. auto. }
  destruct (loops_cells results methods alpha n (length (heap w0)) dimensions
              (shape (heap w1)) (wlog w0) P Hwf Hlook HP w1 w') as [_ Hcells].
  - split; [reflexivity|]. intros m1 d1 c1 t1 _ Hlt. rewrite Hl in Hlt. lia.
  - exact Hloop.
  - apply (Hcells m d c t Hc).
    rewrite (Hcount m d c (Cell.coverage c) t Hc (or_introl eq_refl) Ht).
    destruct (proj1 (Hlk m d) (ex_intro _ c Hc)) as [Hm Hd].
    apply (count_occ_In string_dec) in Hm.
    apply (count_occ_In Nat.eq_dec) in Hd. nia.
Qed.

End HarnessCells.

(** ** The range of the stored values *)

Section Ranges.

Context {RS : RandomSource} {E : Estimator}.

Lemma evaluate_inv alpha data m cov wid :
  evaluate alpha data m = Ok (cov, wid) ->
  exists ft yp,
    fit (mapie_of alpha m) (X_train data) (y_train data) = inr ft /\
    predict ft (X_test data) = inr yp /\
    coverage_of yp (y_test data) = Ok cov /\
    wid = mean (vsub (upper yp) (lower yp)).
Proof.
  unfold evaluate.
  destruct (fit _ _ _) as [e|ft] eqn:Hf; [discriminate|].
  destruct (predict _ _) as [e|yp] eqn:Hp; [discriminate|].
  rewrite width_mean_of_value.
  destruct (coverage_of _ _) as [c|e] eqn:Hc; [|discriminate].
  cbn [rbind]. intros Hev. inversion Hev; subst.
  exists ft, yp. repeat split; assumption.
Qed.

Lemma coverage_of_rows (y_preds : list pred_row) (y_test : list float) cov :
  coverage_of y_preds y_test = Ok cov -> length y_test = n_test ->
  length y_preds = 1%nat \/ length y_preds = n_test.
Proof.
  unfold coverage_of, rbind, lower. intros Hc Hl.
  destruct (broadcast2 fle _ _) as [below|] eqn:Hb; [|discriminate].
  clear Hc. unfold broadcast2 in Hb. unfold n_test in *.
  destruct y_preds as [|r [|r' rs]]; simpl in *.
  - destruct y_test as [|y [|y' ys]]; simpl in *; discriminate.
  - now left.
  - right. destruct y_test as [|y [|y' ys]]; simpl in *; try discriminate.
    destruct (_ =? _) eqn:Heq in Hb; [|discriminate].
    apply Nat.eqb_eq in Heq. rewrite length_map in Heq.
    rewrite <- Hl. do 2 f_equal. exact Heq.
Qed.

Lemma widths_ordered (y_preds : list pred_row) :
  Forall ordered y_preds ->
  exists ws, vsub (upper y_preds) (lower y_preds) = map Some ws /\
             length ws = length y_preds /\ Forall (fun x => 0 <= x) ws.
Proof.
  induction 1 as [|row rows [l [u [Hl [Hu Hle]]]] _ [ws [Hws [Hlen Hpos]]]].
  - exists []. repeat split; constructor.
  - exists ((u - l) :: ws). unfold vsub, upper, lower in *. simpl.
    rewrite Hl, Hu, Hws. simpl. repeat split; [lia|].
    constructor; [lra | assumption].
Qed.

Lemma Rsum_nonneg (ws : list R) : Forall (fun x => 0 <= x) ws -> 0 <= Rsum ws.
Proof.
  induction 1 as [|x xs Hx _ IH]; simpl; lra.
Qed.

Lemma mean_width_nonneg (y_preds : list pred_row) :
  Forall ordered y_preds -> y_preds <> [] ->
  exists v, mean (vsub (upper y_preds) (lower y_preds)) = Some v /\ 0 <= v.
Proof.
  intros Hord Hne.
  destruct (widths_ordered y_preds Hord) as [ws [Hws [Hlen Hpos]]].
  rewrite Hws. assert (Hws' : ws <> []).
  { intros ->. destruct y_preds; [contradiction | discriminate]. }
  rewrite (mean_finite ws Hws'). eexists. split; [reflexivity|].
  unfold arithmetic_mean.
  assert (0 < INR (length ws)).
  { apply lt_0_INR. destruct ws; [contradiction | simpl; lia]. }
  apply Rmult_le_pos; [now apply Rsum_nonneg|].
  left. now apply Rinv_0_lt_compat.
Qed.

(** C3 (as amended).  Every coverage stored in the table the harness returns
    is a number in [[0,1]].  Every mean width stored there is a number not
    below zero provided [predict] only returns rows whose bounds are finite
    with the lower bound not above the upper bound. *)
Theorem stored_values_range methods alpha n_trial dimensions w0 results w' :
  PIs_vs_dimensions methods alpha n_trial dimensions w0 = Ok (results, w') ->
  forall m d c t,
    lookup results m d = Some c -> (t < n_trial)%nat ->
    (exists v, read (heap w') (Cell.coverage c) t = Some (Some v) /\
               0 <= v <= 1) /\
    ((forall ft X yp, predict ft X = inr yp -> Forall ordered yp) ->
     exists v, read (heap w') (Cell.width_mean c) t = Some (Some v) /\
               0 <= v).
Proof.
  intros Hrun m d c t Hc Ht.
  destruct (harness_cells
              (fun _ _ cov wid =>
                 (exists v, cov = Some v /\ 0 <= v <= 1) /\
                 ((forall ft X yp, predict ft X = inr yp -> Forall ordered yp) ->
                  exists v, wid = Some v /\ 0 <= v))
              methods alpha n_trial dimensions w0 results w')
    with (m := m) (d := d) (c := c) (t := t)
    as (cov & wid & Rc & Rw & [[v [-> Hv]] Hwid]); auto.
  - intros m1 d1 w data w1 cov wid _ _ Hdata Hev.
    destruct (draw_trial_data_total d1 w) as [data' [g [Hdata' [Hy _]]]].
    rewrite Hdata in Hdata'. inversion Hdata'; subst data'.
    destruct (evaluate_inv alpha data m1 cov wid Hev)
      as (ft & yp & _ & Hp & Hcov & ->).
    split; [eapply coverage_of_range; eauto|].
    intros Hord. apply mean_width_nonneg; [eapply Hord; eauto|].
    destruct (coverage_of_rows yp (y_test data) cov Hcov Hy) as [Hl|Hl];
      intros ->; discriminate.
  - split; [eauto|]. intros Hord. destruct (Hwid Hord) as [x [-> Hx]]. eauto.
Qed.

End Ranges.

Lemma Rsum_const {A} (c : R) (xs : list A) :
  Rsum (map (fun _ => c) xs) = INR (length xs) * c.
Proof.
  induction xs as [|x xs IH]; [simpl; lra|].
  cbn [map Rsum fold_right length]. fold (Rsum (map (fun _ => c) xs)).
  rewrite IH, S_INR. lra.
Qed.

(** What the constant estimator makes the harness record as mean width. *)
Lemma constant_estimator_width {RS : RandomSource} (p : float) (l u : R)
    alpha d w data w1 m cov wid :
  @draw_trial_data RS (constant_estimator (p, Some l, Some u)) d w
  = Ok (data, w1) ->
  @evaluate (constant_estimator (p, Some l, Some u)) alpha data m
  = Ok (cov, wid) ->
  wid = Some (u - l).
Proof.
  intros Hdata Hev.
  destruct (@draw_trial_data_total RS (constant_estimator (p, Some l, Some u)) d w)
    as [data' [g [Hdata' [_ Hx]]]].
  rewrite Hdata in Hdata'. inversion Hdata'; subst data'.
  destruct (@evaluate_inv (constant_estimator (p, Some l, Some u))
              alpha data m cov wid Hev) as (ft & yp & _ & Hp & _ & ->).
  simpl in Hp. inversion Hp; subst yp.
  assert (Hv : vsub (upper (map (fun _ => (p, Some l, Some u)) (X_test data)))
                    (lower (map (fun _ => (p, Some l, Some u)) (X_test data)))
               = map Some (map (fun _ => u - l) (X_test data))).
  { unfold vsub, upper, lower. clear.
    induction (X_test data) as [|x xs IH]; simpl; [reflexivity|].
    apply f_equal2; [reflexivity | exact IH]. }
  etransitivity; [apply (f_equal mean); exact Hv|].
  rewrite mean_finite.
  - unfold arithmetic_mean. rewrite Rsum_const, length_map. f_equal.
    field. rewrite Hx. unfold n_test. apply not_0_INR. discriminate.
  - destruct (X_test data); discriminate.
Qed.

Lemma stored_values_range_witness :
  exists results w' c,
    @PIs_vs_dimensions counting (constant_estimator (Some 0, Some 0, Some 1))
      ["naive"%string] (Some (1 / 10)) 1 [5%nat] (@start counting 1%Z)
    = Ok (results, w') /\
    lookup results "naive" 5 = Some c /\
    (exists v, read (heap w') (Cell.coverage c) 0 = Some (Some v) /\
               0 <= v <= 1) /\
    ((forall ft X yp,
         @predict (constant_estimator (Some 0, Some 0, Some 1)) ft X = inr yp ->
         Forall ordered yp) ->
     exists v, read (heap w') (Cell.width_mean c) 0 = Some (Some v) /\
               0 <= v).
Proof.
  destruct (@harness_total counting (constant_estimator (Some 0, Some 0, Some 1))
              ["naive"%string] (Some (1 / 10)) 1%nat [5%nat] (@start counting 1%Z))
    as [results [w' Hrun]].
  - intros d w data w1 m _ Hdata.
    eapply constant_estimator_total; eauto.
  - destruct (proj2 (harness_keys _ _ _ _ _ _ _ Hrun "naive"%string 5%nat))
      as [c Hc]; [simpl; auto|].
    exists results, w', c. split; [exact Hrun|]. split; [exact Hc|].
    apply (@stored_values_range counting
             (constant_estimator (Some 0, Some 0, Some 1))
             ["naive"%string] (Some (1 / 10)) 1%nat [5%nat]
             (@start counting 1%Z) results w' Hrun "naive"%string 5%nat c 0%nat
             Hc).
    lia.
Defined.

(** C3 fails as stated: an estimator whose lower bound is above its upper
    bound makes the harness store a negative mean width. *)
Lemma negative_width_stored :
  exists results w' c,
    @PIs_vs_dimensions counting (constant_estimator (Some 0, Some 1, Some 0))
      ["naive"%string] (Some (1 / 10)) 1 [5%nat] (@start counting 1%Z)
    = Ok (results, w') /\
    lookup results "naive" 5 = Some c /\
    read (heap w') (Cell.width_mean c) 0 = Some (Some (-1)) /\
    ~ (0 <= -1).
Proof.
  destruct (@harness_total counting (constant_estimator (Some 0, Some 1, Some 0))
              ["naive"%string] (Some (1 / 10)) 1%nat [5%nat] (@start counting 1%Z))
    as [results [w' Hrun]].
  - intros d w data w1 m _ Hdata.
    eapply constant_estimator_total; eauto.
  - destruct (proj2 (harness_keys _ _ _ _ _ _ _ Hrun "naive"%string 5%nat))
      as [c Hc]; [simpl; auto|].
    exists results, w', c. split; [exact Hrun|]. split; [exact Hc|].
    split; [|lra].
    destruct (@harness_cells counting
                (constant_estimator (Some 0, Some 1, Some 0))
                (fun _ _ _ wid => wid = Some (-1))
                ["naive"%string] (Some (1 / 10)) 1%nat [5%nat]
                (@start counting 1%Z) results w')
      with (m := "naive"%string) (d := 5%nat) (c := c) (t := 0%nat)
      as (cov & wid & _ & Rw & ->); auto.
    intros m d w data w1 cov wid _ _ Hdata Hev.
    rewrite (constant_estimator_width (Some 0) 1 0 _ _ _ _ _ _ _ _ Hdata Hev).
    f_equal. lra.
Qed.

(** ** What is recorded *)

Lemma fle_le (x y : R) : fle (Some x) (Some y) = true <-> x <= y.
Proof.
  simpl. destruct (Rle_dec x y); split; auto; discriminate.
Qed.

(** For finite bounds and target, a test point counts as covered exactly
    when the target is between the bounds, bounds included. *)
Lemma inside_interval (p : float) (l u y : R) :
  fle (snd (fst (p, Some l, Some u))) (Some y)
  && fle (Some y) (snd (p, Some l, Some u)) = true
  <-> l <= y <= u.
Proof.
  cbn [fst snd]. rewrite andb_true_iff, !fle_le. tauto.
Qed.

(** ** One trial *)

Section Trial.

Context {RS : RandomSource} {E : Estimator}.

Lemma trial_body_total results methods alpha n base d t w :
  table_wf n base results (shape (heap w)) ->
  (forall m, In m methods -> exists c, lookup results m d = Some c) ->
  (t < n)%nat ->
  (forall data w1 m,
      In m methods -> draw_trial_data d w = Ok (data, w1) ->
      exists cov wid, evaluate alpha data m = Ok (cov, wid)) ->
  exists w', trial_body results methods alpha d t w = Ok (tt, w').
Proof.
  intros Hwf Hlook Ht Hev.
  destruct (draw_trial_data_total d w) as [data [g [Hdata _]]].
  destruct (for_each_total (fun u => shape (heap u) = shape (heap w))
              (method_body results alpha d t data) methods)
    with (w := set_rng w g) as [w' [Hloop _]]; [|reflexivity|].
  - intros m x Hm Hx.
    destruct (Hev data (set_rng w g) m Hm Hdata) as [cov [wid Hcw]].
    destruct (Hlook m Hm) as [c Hc].
    rewrite <- Hx in Hwf.
    destruct (method_body_ok results alpha d t data m x n base c cov wid
                Hwf Hc Ht Hcw) as [x' Hx'].
    exists x'. split; [apply Hx'|].
    destruct Hx' as (_ & _ & _ & _ & _ & Hs & _). congruence.
  - exists w'. unfold trial_body. apply bind_ok. eauto.
Qed.

(** C9.  In one iteration of the trial loop the data is drawn once, before
    the loop over the methods, which draws nothing: every method of
    [methods] is fitted on the same training matrix and targets, predicts
    on the same test matrix and is scored against the same test targets, and
    what it records is in its cell when the iteration ends. *)
Theorem methods_share_trial_data results methods alpha n base d t w w' :
  table_wf n base results (shape (heap w)) ->
  (forall m, In m methods -> exists c, lookup results m d = Some c) ->
  (t < n)%nat ->
  trial_body results methods alpha d t w = Ok (tt, w') ->
  exists data g,
    draw_trial_data d w = Ok (data, set_rng w g) /\
    rng w' = g /\
    forall m, In m methods ->
      exists c ft y_preds cov wid,
        lookup results m d = Some c /\
        fit (mapie_of alpha m) (X_train data) (y_train data) = inr ft /\
        predict ft (X_test data) = inr y_preds /\
        coverage_of y_preds (y_test data) = Ok cov /\
        width_mean_of y_preds = Ok wid /\
        read (heap w') (Cell.coverage c) t = Some cov /\
        read (heap w') (Cell.width_mean c) t = Some wid.
Proof.
  intros Hwf Hlook Ht Hrun. unfold trial_body in Hrun.
  apply bind_ok in Hrun as [data [w1 [Hdata Hloop]]].
  destruct (draw_trial_data_total d w) as [data' [g [Hdata' _]]].
  rewrite Hdata in Hdata'. inversion Hdata'; subst data' w1. clear Hdata'.
  exists data, g. split; [assumption|].
  assert (Hlook' : forall m d', In m methods -> In d' [d] ->
                                exists c, lookup results m d' = Some c).
  { intros m d' Hm [<-|[]]. auto. }
  destruct (for_each_post
    (fun u => shape (heap u) = shape (heap w) /\ rng u = g)
    (fun m u => exists c cov wid,
                  lookup results m d = Some c /\
                  evaluate alpha data m = Ok (cov, wid) /\
                  read (heap u) (Cell.coverage c) t = Some cov /\
                  read (heap u) (Cell.width_mean c) t = Some wid)
    (method_body results alpha d t data) methods)
    with (w := set_rng w g) (w' := w') as [HI Hall]; auto.
  - intros m u u' Hm [Hu Hr] Hb.
    destruct (method_step results methods alpha n base [d]
                (shape (heap w)) Hwf Hlook' d t data m u u')
      as (c & cov & wid & Hc & Hev & Hr' & _ & _ & _ & Hs & Rc & Rw & Hframe);
      simpl; auto.
    split; [split; congruence|]. split; [exists c, cov, wid; auto|].
    intros y (cy & covy & widy & Hcy & Hevy & Rcy & Rwy).
    exists cy, covy, widy. split; [assumption|]. split; [assumption|].
    destruct Hwf as [Hnd _].
    destruct (string_dec y m) as [->|Hne].
    + assert (cy = c) by congruence. subst cy.
      assert (covy = cov /\ widy = wid) as [-> ->] by (split; congruence).
      auto.
    + assert (Hsep : forall a a', In a (cell_refs cy) -> In a' (cell_refs c) ->
                                  a <> a').
      { intros a a' Ha Ha' ->.
        destruct (lookup_distinct results y d cy m d c a' Hnd Hcy Hc Ha Ha')
          as [? _]. contradiction. }
      rewrite !Hframe; [auto | | | |]; intros Heq;
        pose proof (f_equal fst Heq) as Ha; cbn [fst] in Ha;
        (eapply Hsep; [| |exact Ha]; simpl; auto).
  - destruct HI as [_ Hg]. split; [assumption|].
    intros m Hm. destruct (Hall m Hm) as (c & cov & wid & Hc & Hev & Rc & Rw).
    destruct (evaluate_inv alpha data m cov wid Hev)
      as (ft & yp & Hf & Hp & Hcov & ->).
    exists c, ft, yp, cov, (mean (vsub (upper yp) (lower yp))).
    repeat (split; [assumption|]). split; [apply width_mean_of_value|].
    split; assumption.
Qed.

End Trial.

(** A table with one method and one dimension, in a store with its two
    arrays of one element. *)
Lemma methods_share_trial_data_witness :
  let E := constant_estimator (Some 0, Some 0, Some 1) in
  let results : table :=
    [("naive"%string, [(5%nat, {| Cell.coverage := 0; Cell.width_mean := 1 |})])] in
  let w : @world counting :=
    @Build_world counting 1%Z [[None]; [None]] [] [] (fun _ _ => None) in
  exists w' data g,
    @trial_body counting E results ["naive"%string] (Some (1 / 10)) 5 0 w
    = Ok (tt, w') /\
    @draw_trial_data counting E 5 w = Ok (data, set_rng w g) /\
    rng w' = g /\
    forall m, In m ["naive"%string] ->
      exists c ft y_preds cov wid,
        lookup results m 5 = Some c /\
        @fit E (mapie_of (Some (1 / 10)) m) (X_train data) (y_train data)
        = inr ft /\
        @predict E ft (X_test data) = inr y_preds /\
        @coverage_of E y_preds (y_test data) = Ok cov /\
        @width_mean_of E y_preds = Ok wid /\
        read (heap w') (Cell.coverage c) 0 = Some cov /\
        read (heap w') (Cell.width_mean c) 0 = Some wid.
Proof.
  intros E results w.
  assert (Hwf : table_wf 1 0 results (shape (heap w))).
  { split.
    - simpl. constructor; [simpl; intros [H|[]]; discriminate|].
      constructor; [intros [] | constructor].
    - intros a [<-|[<-|[]]]; simpl; split; auto; lia. }
  assert (Hlook : forall m, In m ["naive"%string] ->
                            exists c, lookup results m 5 = Some c).
  { intros m [<-|[]]. eexists. reflexivity. }
  destruct (@trial_body_total counting E results ["naive"%string]
              (Some (1 / 10)) 1%nat 0%nat 5%nat 0%nat w Hwf Hlook)
    as [w' Hrun].
  - lia.
  - intros data w1 m _ Hdata. eapply constant_estimator_total; eauto.
  - exists w'.
    destruct (@methods_share_trial_data counting E results ["naive"%string]
                (Some (1 / 10)) 1%nat 0%nat 5%nat 0%nat w w' Hwf Hlook)
      as [data [g H]]; [lia | exact Hrun |].
    exists data, g. split; [exact Hrun | exact H].
Defined.

(** ** Failure *)

Lemma seq_split (s n t : nat) (xs ys : list nat) :
  seq s n = xs ++ t :: ys -> xs = seq s (t - s) /\ (s <= t < s + n)%nat.
Proof.
  revert s n; induction xs as [|x xs IH]; intros s n Heq.
  - destruct n as [|n]; simpl in Heq; [discriminate|].
    inversion Heq; subst. rewrite Nat.sub_diag. simpl. split; [reflexivity | lia].
  - destruct n as [|n]; simpl in Heq; [discriminate|].
    inversion Heq; subst x.
    destruct (IH (S s) n H1) as [Hxs Ht]. split; [|lia].
    replace (t - s)%nat with (S (t - S s)) by lia.
    simpl. now rewrite <- Hxs.
Qed.

Section Failure.

Context {RS : RandomSource} {E : Estimator}.

Lemma call_ok {A} (r : exn + A) (w : world) a w' :
  call r w = Ok (a, w') -> r = inr a /\ w' = w.
Proof.
  destruct r as [e|a0]; simpl; [discriminate|].
  unfold ret. intros H. inversion H; subst. auto.
Qed.

Lemma lift_ok {A} (r : result A) (w : world) a w' :
  lift r w = Ok (a, w') -> r = Ok a /\ w' = w.
Proof.
  unfold lift. destruct r as [a0|e]; [|discriminate].
  intros H. inversion H; subst. auto.
Qed.

Lemma getitem_ok {K V} `{Key K} (d : dict K V) (k : K) (w : world) v w' :
  getitem d k w = Ok (v, w') -> dict_get d k = Some v /\ w' = w.
Proof.
  unfold getitem. destruct (dict_get d k) as [v0|]; [|discriminate].
  intros Hv. inversion Hv; subst. auto.
Qed.

(** A method body that returns has only assigned elements. *)
Lemma method_body_shape results alpha d t data m w w' :
  method_body results alpha d t data m w = Ok (tt, w') ->
  shape (heap w') = shape (heap w).
Proof.
  unfold method_body. intros Hrun.
  apply bind_ok in Hrun as (ft & u1 & H1 & Hrun). apply call_ok in H1 as [_ ->].
  apply bind_ok in Hrun as (yp & u2 & H2 & Hrun). apply call_ok in H2 as [_ ->].
  apply bind_ok in Hrun as (cov & u3 & H3 & Hrun). apply lift_ok in H3 as [_ ->].
  apply bind_ok in Hrun as (wid & u4 & H4 & Hrun). apply lift_ok in H4 as [_ ->].
  apply bind_ok in Hrun as ([] & u5 & H5 & Hrun).
  apply bind_ok in H5 as (rm & u6 & H6 & H5). apply getitem_ok in H6 as [_ ->].
  apply bind_ok in H5 as (rd & u7 & H7 & H5). apply getitem_ok in H7 as [_ ->].
  apply setitem_ok in H5 as (_ & _ & _ & _ & S5 & _).
  apply bind_ok in Hrun as (rm' & u8 & H8 & Hrun). apply getitem_ok in H8 as [_ ->].
  apply bind_ok in Hrun as (rd' & u9 & H9 & Hrun). apply getitem_ok in H9 as [_ ->].
  apply setitem_ok in Hrun as (_ & _ & _ & _ & S6 & _).
  congruence.
Qed.

Lemma method_loop_shape results alpha d t data ms w w' :
  for_each ms (method_body results alpha d t data) w = Ok (tt, w') ->
  shape (heap w') = shape (heap w).
Proof.
  intros Hrun.
  eapply (for_each_inv (fun u => shape (heap u) = shape (heap w)));
    [| reflexivity | exact Hrun].
  intros m u u' _ Hu Hb. rewrite <- Hu. eapply method_body_shape; eauto.
Qed.

Lemma trial_body_shape results methods alpha d t w w' :
  trial_body results methods alpha d t w = Ok (tt, w') ->
  shape (heap w') = shape (heap w).
Proof.
  unfold trial_body. intros Hrun.
  apply bind_ok in Hrun as [data [w1 [Hdata Hloop]]].
  destruct (draw_trial_data_total d w) as [data' [g [Hdata' _]]].
  rewrite Hdata in Hdata'. inversion Hdata'; subst data' w1.
  apply method_loop_shape in Hloop. exact Hloop.
Qed.

Lemma trial_loop_shape results methods alpha d ts w w' :
  for_each ts (fun t => trial_body results methods alpha d t) w = Ok (tt, w') ->
  shape (heap w') = shape (heap w).
Proof.
  intros Hrun.
  eapply (for_each_inv (fun u => shape (heap u) = shape (heap w)));
    [| reflexivity | exact Hrun].
  intros t u u' _ Hu Hb. rewrite <- Hu.
  exact (trial_body_shape _ _ _ _ _ _ _ Hb).
Qed.

Lemma dimension_loop_shape results methods alpha n ds w w' :
  for_each ds (fun d =>
    for_each (seq 0 n) (fun t => trial_body results methods alpha d t)) w
  = Ok (tt, w') ->
  shape (heap w') = shape (heap w).
Proof.
  intros Hrun.
  eapply (for_each_inv (fun u => shape (heap u) = shape (heap w)));
    [| reflexivity | exact Hrun].
  intros d u u' _ Hu Hb. rewrite <- Hu.
  exact (trial_loop_shape _ _ _ _ _ _ _ Hb).
Qed.

(** In a well-formed table a method body fails only when the evaluation of
    the method fails, with the same error. *)
Lemma method_body_err_inv results alpha d t data m w n base c e :
  table_wf n base results (shape (heap w)) ->
  lookup results m d = Some c -> (t < n)%nat ->
  method_body results alpha d t data m w = Err e ->
  evaluate alpha data m = Err e.
Proof.
  intros Hwf Hc Ht Hrun.
  destruct (evaluate alpha data m) as [[cov wid]|e'] eqn:Hev.
  - destruct (method_body_ok results alpha d t data m w n base c cov wid
                Hwf Hc Ht Hev) as [w' [Hok _]].
    rewrite Hrun in Hok. discriminate.
  - rewrite (method_body_err results alpha d t data m w e' Hev) in Hrun.
    congruence.
Qed.

(** With one predicted row per test point, the evaluation of a method fails
    only when the estimator raises. *)
Lemma evaluate_err alpha data m e0 :
  (forall ft X yp, predict ft X = inr yp -> length yp = length X) ->
  length (X_test data) = n_test -> length (y_test data) = n_test ->
  evaluate alpha data m = Err e0 ->
  exists e, e0 = Raised e /\
    (fit (mapie_of alpha m) (X_train data) (y_train data) = inl e \/
     exists ft, fit (mapie_of alpha m) (X_train data) (y_train data) = inr ft /\
                predict ft (X_test data) = inl e).
Proof.
  intros Hshape Hx Hy. unfold evaluate.
  destruct (fit _ _ _) as [e|ft] eqn:Hf.
  - intros He. inversion He. exists e. split; [reflexivity|]. now left.
  - destruct (predict _ _) as [e|yp] eqn:Hp.
    + intros He. inversion He. exists e. split; [reflexivity|].
      right. exists ft. split; [reflexivity | assumption].
    + rewrite coverage_of_value, width_mean_of_value.
      * discriminate.
      * rewrite (Hshape ft _ yp Hp). congruence.
      * intros Hn. rewrite Hn in Hy. discriminate.
Qed.

End Failure.

Lemma naive_only_shape (row : pred_row) :
  forall ft X yp, @predict (naive_only row) ft X = inr yp -> length yp = length X.
Proof.
  intros ft X yp Hp. simpl in Hp. inversion Hp. now rewrite length_map.
Qed.

(** With the estimator that only knows ["naive"], the method ["cv"] makes
    the first trial fail after ["naive"] was recorded: the call raises the
    exception of [fit] and returns no table. *)
Example unknown_method_raises :
  let E := naive_only (Some 0, Some 0, Some 1) in
  @PIs_vs_dimensions counting E
    ["naive"%string; "cv"%string] (Some (1 / 10)) 1 [5%nat] (@start counting 1%Z)
  = @Err E _ (@Raised E "cv"%string).
Proof.
  intros E.
  destruct (@harness_phases counting E ["naive"%string; "cv"%string]
              (Some (1 / 10)) 1%nat [5%nat] (@start counting 1%Z))
    as (results & w1 & _ & Hwf & _ & _ & _ & _ & _ & Hlk & Heq).
  rewrite Heq. clear Heq.
  destruct (proj2 (Hlk "naive"%string 5%nat)) as [c Hc]; [simpl; auto|].
  destruct (@draw_trial_data_total counting E 5 w1) as [data [g [Hdata [Hy Hx]]]].
  assert (Hev : exists cov wid,
             @evaluate E (Some (1 / 10)) data "naive" = Ok (cov, wid)).
  { do 2 eexists.
    apply (@evaluate_value E (Some (1 / 10)) data "naive"%string tt
             (map (fun _ => (Some 0, Some 0, Some 1)) (X_test data)));
      try reflexivity.
    - rewrite length_map. congruence.
    - intros Hn. rewrite Hn in Hy. discriminate. }
  destruct Hev as [cov [wid Hev]].
  assert (Hwf' : table_wf 1 (length (heap (@start counting 1%Z))) results
                   (shape (heap (set_rng w1 g)))) by exact Hwf.
  destruct (@method_body_ok counting E results (Some (1 / 10)) 5 0 data
              "naive"%string (set_rng w1 g) 1 _ c cov wid Hwf' Hc)
    as [w2 [Hrun _]]; [lia | exact Hev |].
  cbn [for_each seq]. unfold bind at 1. unfold bind at 1.
  unfold trial_body. unfold bind at 1. rewrite Hdata.
  cbn [for_each]. unfold bind at 1. rewrite Hrun.
  unfold bind at 1.
  rewrite (@method_body_err counting E results (Some (1 / 10)) 5 0 data
             "cv"%string w2 (@Raised E "cv"%string)); reflexivity.
Qed.

(** ** The order of the draws, observed with the counting generator *)

Lemma counting_draw_rows (r c : nat) (g : Z) :
  @draw_rows counting r c g
  = (map (fun i => fst (@draws counting c (g + Z.of_nat (i * c))%Z)) (seq 0 r),
     (g + Z.of_nat (r * c))%Z).
Proof.
  revert g; induction r as [|r IH]; intros g.
  - simpl. now rewrite Z.add_0_r.
  - cbn [draw_rows]. rewrite counting_draws, IH. cbn [seq map fst].
    f_equal.
    + f_equal.
      * rewrite counting_draws. cbn [fst]. apply map_ext. intros i.
        do 2 f_equal. lia.
      * rewrite <- seq_shift, map_map. apply map_ext. intros i.
        do 2 f_equal. lia.
    + lia.
Qed.

(** C5 fails as stated: the two noise vectors are drawn before the test
    design matrix, not after it.  With the counting generator started at 1
    and [d = 1], the training noise begins with draw 102, the test noise
    with draw 202 and the test matrix with draw 302; drawing in the order of
    the three steps gives other data. *)
Lemma noise_drawn_before_test_matrix :
  let E := constant_estimator (Some 0, Some 0, Some 1) in
  exists data w',
    @draw_trial_data counting E 1 (@start counting 1%Z) = Ok (data, w') /\
    hd None (noise_train data) = Some 102 /\
    hd None (noise_test data) = Some 202 /\
    hd [] (X_test data) = [Some 302] /\
    hd [] (X_test (fst (@trial_draws_in_step_order counting 1 1%Z)))
    = [Some 102] /\
    data <> fst (@trial_draws_in_step_order counting 1 1%Z).
Proof.
  intros E.
  destruct (@draw_trial_data_run counting E 1 (@start counting 1%Z))
    as (b & g1 & Xtr & g2 & ntr & g3 & nte & g4 & Xte & g5 & Hb & Hx & Hn & Ht
        & Hy & Hrun & _).
  cbn [rng start] in Hb.
  rewrite counting_draws in Hb. inversion Hb; subst b g1. clear Hb.
  rewrite counting_draw_rows in Hx. inversion Hx; subst Xtr g2. clear Hx.
  rewrite counting_draws in Hn. inversion Hn; subst ntr g3. clear Hn.
  rewrite counting_draws in Ht. inversion Ht; subst nte g4. clear Ht.
  rewrite counting_draw_rows in Hy. inversion Hy; subst Xte g5. clear Hy.
  assert (Hstep : hd [] (X_test (fst (@trial_draws_in_step_order counting 1 1%Z)))
                  = [Some 102]).
  { unfold trial_draws_in_step_order.
    rewrite counting_draws, !counting_draw_rows, !counting_draws.
    cbn [fst X_test]. unfold n_test, n_train. cbn [seq map hd].
    rewrite counting_draws. reflexivity. }
  eexists _, _. split; [exact Hrun|]. cbn [noise_train noise_test X_test].
  split; [reflexivity|]. split; [reflexivity|].
  assert (Hlast : hd [] (map (fun i => fst (@draws counting 1
                     (1 + Z.of_nat 1 + Z.of_nat (n_train * 1)
                      + Z.of_nat n_train + Z.of_nat n_test
                      + Z.of_nat (i * 1))%Z)) (seq 0 n_test))
                  = [Some 302]).
  { unfold n_test, n_train. cbn [seq map hd].
    rewrite counting_draws. reflexivity. }
  split; [exact Hlast|]. split; [exact Hstep|].
  intros Heq. apply (f_equal (fun x => hd [] (X_test x))) in Heq.
  pose proof (eq_trans (eq_sym Hlast) (eq_trans Heq Hstep)) as H.
  inversion H as [H']. apply eq_IZR in H'. discriminate.
Qed.

(** ** The plotting step *)

Section PlotLemmas.

Context {RS : RandomSource} {E : Estimator}.

Lemma update_app {A} (pre : list A) (z v : A) (rest : list A) :
  update (length pre) v (pre ++ z :: rest) = pre ++ v :: rest.
Proof.
  induction pre as [|x pre IH]; simpl; [reflexivity | now rewrite IH].
Qed.

Lemma nth_error_mid {A} (pre : list A) (z : A) (rest : list A) :
  nth_error (pre ++ z :: rest) (length pre) = Some z.
Proof.
  induction pre as [|x pre IH]; simpl; auto.
Qed.

(** An assignment to an array allocated after the first [length H0] ones. *)
Lemma setitem_local (H0 pre post : list (list float)) (arr : list float)
    (a i : nat) (v : float) (w : world) :
  heap w = H0 ++ pre ++ arr :: post ->
  a = (length H0 + length pre)%nat -> (i < length arr)%nat ->
  exists w',
    setitem a i v w = Ok (tt, w') /\
    heap w' = H0 ++ pre ++ update i v arr :: post /\
    rng w' = rng w /\ drawn w' = drawn w.
Proof.
  intros Hh -> Hi. unfold setitem.
  assert (Hn : nth_error (heap w) (length H0 + length pre) = Some arr).
  { rewrite Hh, app_assoc, <- length_app. apply nth_error_mid. }
  rewrite Hn. destruct (Nat.ltb_spec i (length arr)) as [_|]; [|lia].
  eexists. split; [reflexivity|]. simpl. repeat split.
  rewrite Hh, app_assoc, <- length_app, update_app. now rewrite <- app_assoc.
Qed.

Lemma deref_table (H0 locals : list (list float)) (a : nat) (arr : list float)
    (w : world) :
  heap w = H0 ++ locals -> nth_error H0 a = Some arr ->
  deref a w = Ok (arr, w).
Proof.
  intros Hh Ha. unfold deref. rewrite Hh.
  now rewrite (nth_error_app_Some H0 locals a arr Ha).
Qed.

Variables (ntrial : nat) (results : table) (method : string).
Variables (r : dict nat cell) (H0 : list (list float)).

Hypothesis Hr : dict_get results method = Some r.
Hypothesis Hvalid : forall a, In a (inner_refs r) -> (a < length H0)%nat.

Lemma stat_value (f : list float -> float) (sel : cell -> nat) d c :
  dict_get r d = Some c -> In (sel c) (cell_refs c) ->
  exists arr, nth_error H0 (sel c) = Some arr /\ stat f sel H0 r d = f arr.
Proof.
  intros Hd Hin.
  assert (Hlt : (sel c < length H0)%nat).
  { apply Hvalid. eapply (refs_of_get cell_refs); eauto. }
  apply nth_error_Some in Hlt.
  destruct (nth_error H0 (sel c)) as [arr|] eqn:Ha; [|contradiction].
  exists arr. split; [reflexivity|]. unfold stat. now rewrite Hd, Ha.
Qed.

(** The body of the loop over the dimensions (lines 146-149) fills entry
    [idim] of the four arrays of the method. *)
Lemma plot_cell_step (cm cse wm wse : nat) (i d : nat)
    (pa pb pc pd ra rb rc rd : list float) (za zb zc zd : float) (w : world) :
  cm = length H0 -> cse = S (length H0) -> wm = S (S (length H0)) ->
  wse = S (S (S (length H0))) ->
  In d (keys r) ->
  length pa = i -> length pb = i -> length pc = i -> length pd = i ->
  heap w = H0 ++ [pa ++ za :: ra; pb ++ zb :: rb; pc ++ zc :: rc; pd ++ zd :: rd] ->
  exists w',
    plot_dimension ntrial results method cm cse wm wse i d w
    = Ok (tt, w') /\
    heap w' = H0 ++ [pa ++ stat mean Cell.coverage H0 r d :: ra;
                     pb ++ stat (standard_error ntrial) Cell.coverage H0 r d :: rb;
                     pc ++ stat mean Cell.width_mean H0 r d :: rc;
                     pd ++ stat (standard_error ntrial) Cell.width_mean H0 r d :: rd] /\
    rng w' = rng w /\ drawn w' = drawn w.
Proof.
  intros -> -> -> -> Hd La Lb Lc Ld Hh.
  apply dict_get_keys in Hd as [c Hc].
  destruct (stat_value mean Cell.coverage d c Hc) as [ac [Hac S1]];
    [simpl; auto|].
  destruct (stat_value (standard_error ntrial) Cell.coverage d c Hc)
    as [ac' [Hac' S2]]; [simpl; auto|].
  destruct (stat_value mean Cell.width_mean d c Hc) as [aw [Haw S3]];
    [simpl; auto|].
  destruct (stat_value (standard_error ntrial) Cell.width_mean d c Hc)
    as [aw' [Haw' S4]]; [simpl; auto|].
  assert (ac' = ac) by congruence. assert (aw' = aw) by congruence.
  subst ac' aw'. rewrite S1, S2, S3, S4. unfold standard_error.
  destruct (setitem_local H0 [] [pb ++ zb :: rb; pc ++ zc :: rc; pd ++ zd :: rd]
              (pa ++ za :: ra) (length H0) i (mean ac) w)
    as (w1 & R1 & Hh1 & G1 & D1);
    [exact Hh | simpl; lia | rewrite length_app; simpl; lia |].
  rewrite <- La in Hh1 at 1. rewrite update_app in Hh1. cbn [app] in Hh1.
  destruct (setitem_local H0 [pa ++ mean ac :: ra]
              [pc ++ zc :: rc; pd ++ zd :: rd]
              (pb ++ zb :: rb) (S (length H0)) i
              (fdiv (std ac) (fsqrt (of_nat ntrial))) w1)
    as (w2 & R2 & Hh2 & G2 & D2);
    [exact Hh1 | simpl; lia | rewrite length_app; simpl; lia |].
  rewrite <- Lb in Hh2 at 1. rewrite update_app in Hh2. cbn [app] in Hh2.
  destruct (setitem_local H0
              [pa ++ mean ac :: ra;
               pb ++ fdiv (std ac) (fsqrt (of_nat ntrial)) :: rb]
              [pd ++ zd :: rd]
              (pc ++ zc :: rc) (S (S (length H0))) i (mean aw) w2)
    as (w3 & R3 & Hh3 & G3 & D3);
    [exact Hh2 | simpl; lia | rewrite length_app; simpl; lia |].
  rewrite <- Lc in Hh3 at 1. rewrite update_app in Hh3. cbn [app] in Hh3.
  destruct (setitem_local H0
              [pa ++ mean ac :: ra;
               pb ++ fdiv (std ac) (fsqrt (of_nat ntrial)) :: rb;
               pc ++ mean aw :: rc]
              []
              (pd ++ zd :: rd) (S (S (S (length H0)))) i
              (fdiv (std aw) (fsqrt (of_nat ntrial))) w3)
    as (w4 & R4 & Hh4 & G4 & D4);
    [exact Hh3 | simpl; lia | rewrite length_app; simpl; lia |].
  rewrite <- Ld in Hh4 at 1. rewrite update_app in Hh4. cbn [app] in Hh4.
  exists w4. split; [|split; [exact Hh4 | split; congruence]].
  unfold plot_dimension, bind, getitem.
  rewrite Hr. cbn beta iota. rewrite Hc. cbn beta iota.
  rewrite (deref_table H0 _ _ ac w Hh Hac), R1.
  rewrite (deref_table H0 _ _ ac w1 Hh1 Hac), R2.
  rewrite (deref_table H0 _ _ aw w2 Hh2 Haw), R3.
  rewrite (deref_table H0 _ _ aw w3 Hh3 Haw), R4.
  reflexivity.
Qed.

Lemma plot_dimensions_loop (todo : list nat) :
  forall (k : nat) (da db dc dd : list float) (w : world),
    (forall d, In d todo -> In d (keys r)) ->
    length da = k -> length db = k -> length dc = k -> length dd = k ->
    heap w = H0 ++ [da ++ repeat (Some 0) (length todo);
                    db ++ repeat (Some 0) (length todo);
                    dc ++ repeat (Some 0) (length todo);
                    dd ++ repeat (Some 0) (length todo)] ->
    exists w',
      for_each (combine (seq k (length todo)) todo)
        (fun '(idim, dimension) =>
           plot_dimension ntrial results method
             (length H0) (S (length H0)) (S (S (length H0)))
             (S (S (S (length H0)))) idim dimension) w
      = Ok (tt, w') /\
      heap w' = H0 ++ [da ++ map (stat mean Cell.coverage H0 r) todo;
                       db ++ map (stat (standard_error ntrial) Cell.coverage H0 r) todo;
                       dc ++ map (stat mean Cell.width_mean H0 r) todo;
                       dd ++ map (stat (standard_error ntrial) Cell.width_mean H0 r) todo] /\
      rng w' = rng w /\ drawn w' = drawn w.
Proof.
  induction todo as [|d rest IH]; intros k da db dc dd w Hin La Lb Lc Ld Hh.
  - exists w. simpl in *. unfold ret. auto.
  - cbn [length repeat] in Hh.
    destruct (plot_cell_step (length H0) (S (length H0)) (S (S (length H0)))
                (S (S (S (length H0)))) k d da db dc dd
                (repeat (Some 0) (length rest)) (repeat (Some 0) (length rest))
                (repeat (Some 0) (length rest)) (repeat (Some 0) (length rest))
                (Some 0) (Some 0) (Some 0) (Some 0) w)
      as (w1 & R1 & Hh1 & G1 & D1); auto.
    { apply Hin. now left. }
    destruct (IH (S k)
                (da ++ [stat mean Cell.coverage H0 r d])
                (db ++ [stat (standard_error ntrial) Cell.coverage H0 r d])
                (dc ++ [stat mean Cell.width_mean H0 r d])
                (dd ++ [stat (standard_error ntrial) Cell.width_mean H0 r d])
                w1)
      as (w' & R' & Hh' & G' & D').
    + intros d' Hd'. apply Hin. now right.
    + rewrite length_app. simpl. lia.
    + rewrite length_app. simpl. lia.
    + rewrite length_app. simpl. lia.
    + rewrite length_app. simpl. lia.
    + rewrite Hh1. now rewrite <- !app_assoc.
    + exists w'. split; [|split; [|split; congruence]].
      * cbn [length seq combine for_each]. unfold bind at 1.
        rewrite R1. exact R'.
      * rewrite Hh'. now rewrite <- !app_assoc.
Qed.

(** What plotting a method does: four new arrays, four commands. *)
Lemma plot_method_run (w : world) :
  heap w = H0 ->
  exists w' news,
    plot_method ntrial results method w = Ok (tt, w') /\
    heap w' = H0 ++ news /\
    rng w' = rng w /\
    drawn w' = drawn w ++ method_panels ntrial results H0 method.
Proof.
  intros Hh.
  set (Z := repeat (Some 0) (length (keys r))).
  set (w4 := {| rng := rng w; heap := H0 ++ [Z; Z; Z; Z]; drawn := drawn w;
                wlog := wlog w; junk := junk w |}).
  destruct (plot_dimensions_loop (keys r) 0 [] [] [] [] w4)
    as (w5 & Hloop & Hh5 & G5 & D5); auto.
  set (cm := map (stat mean Cell.coverage H0 r) (keys r)) in *.
  set (cse := map (stat (standard_error ntrial) Cell.coverage H0 r) (keys r)) in *.
  set (wm := map (stat mean Cell.width_mean H0 r) (keys r)) in *.
  set (wse := map (stat (standard_error ntrial) Cell.width_mean H0 r) (keys r)) in *.
  cbn [app] in Hh5.
  exists {| rng := rng w5; heap := heap w5;
            drawn := drawn w5 ++ method_panels ntrial results H0 method;
            wlog := wlog w5; junk := junk w5 |}, [cm; cse; wm; wse].
  assert (G5' : rng w5 = rng w) by exact G5.
  assert (D5' : drawn w5 = drawn w) by exact D5.
  split; [|cbn [heap rng drawn]; split; [assumption | split; congruence]].
  unfold plot_method. unfold bind at 1. unfold getitem at 1. rewrite Hr.
  cbn beta iota zeta.
  unfold bind at 1. unfold np_zeros at 1. cbn beta iota zeta.
  unfold bind at 1. unfold np_zeros at 1. cbn beta iota zeta.
  unfold bind at 1. unfold np_zeros at 1. cbn beta iota zeta.
  unfold bind at 1. unfold np_zeros at 1. cbn beta iota zeta.
  cbn [heap set_heap rng drawn wlog junk].
  rewrite !length_app, Hh. cbn [length].
  replace (length H0 + 1)%nat with (S (length H0)) by lia.
  replace (S (length H0) + 1)%nat with (S (S (length H0))) by lia.
  replace (S (S (length H0)) + 1)%nat with (S (S (S (length H0)))) by lia.
  rewrite <- !app_assoc. cbn [app]. fold Z.
  change (set_heap (set_heap (set_heap (set_heap w (H0 ++ [Z])) (H0 ++ [Z; Z]))
                      (H0 ++ [Z; Z; Z])) (H0 ++ [Z; Z; Z; Z])) with w4.
  unfold enumerate. unfold bind at 1. rewrite Hloop.
  assert (N0 : nth_error (heap w5) (length H0) = Some cm).
  { rewrite Hh5. apply nth_error_mid. }
  assert (N1 : nth_error (heap w5) (S (length H0)) = Some cse).
  { rewrite Hh5.
    change (H0 ++ [cm; cse; wm; wse]) with (H0 ++ [cm] ++ cse :: [wm; wse]).
    rewrite app_assoc.
    replace (S (length H0)) with (length (H0 ++ [cm]))
      by (rewrite length_app; simpl; lia).
    apply nth_error_mid. }
  assert (N2 : nth_error (heap w5) (S (S (length H0))) = Some wm).
  { rewrite Hh5.
    change (H0 ++ [cm; cse; wm; wse]) with (H0 ++ [cm; cse] ++ wm :: [wse]).
    rewrite app_assoc.
    replace (S (S (length H0))) with (length (H0 ++ [cm; cse]))
      by (rewrite length_app; simpl; lia).
    apply nth_error_mid. }
  assert (N3 : nth_error (heap w5) (S (S (S (length H0)))) = Some wse).
  { rewrite Hh5.
    change (H0 ++ [cm; cse; wm; wse]) with (H0 ++ [cm; cse; wm] ++ wse :: []).
    rewrite app_assoc.
    replace (S (S (S (length H0)))) with (length (H0 ++ [cm; cse; wm]))
      by (rewrite length_app; simpl; lia).
    apply nth_error_mid. }
  unfold bind, deref.
  rewrite N0. cbn beta iota. rewrite N1. cbn beta iota.
  rewrite N2. cbn beta iota. rewrite N3. cbn beta iota.
  unfold draw. cbn [rng heap drawn wlog junk].
  unfold method_panels. rewrite Hr. fold cm cse wm wse.
  rewrite <- !app_assoc. reflexivity.
Qed.

End PlotLemmas.

Section Plot.

Context {RS : RandomSource} {E : Estimator}.

Lemma stat_app (f : list float -> float) (sel : cell -> nat)
    (h extra : list (list float)) (r : dict nat cell) (d : nat) :
  (forall c, In (sel c) (cell_refs c)) ->
  (forall a, In a (inner_refs r) -> (a < length h)%nat) ->
  stat f sel (h ++ extra) r d = stat f sel h r d.
Proof.
  intros Hsel Hvalid. unfold stat.
  destruct (dict_get r d) as [c|] eqn:Hd; [|reflexivity].
  rewrite nth_error_app1; [reflexivity|].
  apply Hvalid. eapply (refs_of_get cell_refs); eauto.
Qed.

Lemma method_panels_app ntrial (results : table) (h extra : list (list float))
    (method : string) :
  (forall a, In a (table_refs results) -> (a < length h)%nat) ->
  method_panels ntrial results (h ++ extra) method
  = method_panels ntrial results h method.
Proof.
  intros Hvalid. unfold method_panels.
  destruct (dict_get results method) as [r|] eqn:Hr; [|reflexivity].
  assert (Hv : forall a, In a (inner_refs r) -> (a < length h)%nat).
  { intros a Ha. apply Hvalid. eapply (refs_of_get inner_refs); eauto. }
  assert (Hs : forall f sel, (forall c, In (sel c) (cell_refs c)) ->
             map (stat f sel (h ++ extra) r) (keys r)
             = map (stat f sel h r) (keys r)).
  { intros f sel Hsel. apply map_ext. intros d. now apply stat_app. }
  rewrite !Hs; try reflexivity; intros c; simpl; auto.
Qed.

Lemma panels_app ntrial alpha (results : table) title
    (h extra : list (list float)) :
  (forall a, In a (table_refs results) -> (a < length h)%nat) ->
  panels ntrial alpha results title (h ++ extra)
  = panels ntrial alpha results title h.
Proof.
  intros Hvalid. unfold panels. do 2 f_equal.
  apply flat_map_ext. intros m. now apply method_panels_app.
Qed.

Lemma plot_methods_run ntrial (results : table) (h0 : list (list float))
    (ms : list string) :
  (forall a, In a (table_refs results) -> (a < length h0)%nat) ->
  (forall m, In m ms -> In m (keys results)) ->
  forall w extra,
    heap w = h0 ++ extra ->
    exists w' extra',
      for_each ms (plot_method ntrial results) w = Ok (tt, w') /\
      heap w' = h0 ++ extra' /\
      rng w' = rng w /\
      drawn w' = drawn w ++ flat_map (method_panels ntrial results h0) ms.
Proof.
  intros Hvalid. induction ms as [|m ms IH]; intros Hin w extra Hh.
  - exists w, extra. simpl. unfold ret. rewrite app_nil_r. auto.
  - destruct (proj1 (dict_get_keys results m) (Hin m (or_introl eq_refl)))
      as [r Hr].
    destruct (plot_method_run ntrial results m r (heap w) Hr) with (w := w)
      as (w1 & news & R1 & Hh1 & G1 & D1); [|reflexivity|].
    { intros a Ha. rewrite Hh, length_app.
      assert (a < length h0)%nat; [|lia].
      apply Hvalid. eapply (refs_of_get inner_refs); eauto. }
    rewrite Hh, method_panels_app in D1 by assumption.
    destruct (IH (fun m' Hm' => Hin m' (or_intror Hm')) w1 (extra ++ news))
      as (w' & extra' & R' & Hh' & G' & D').
    { rewrite Hh1, Hh. now rewrite <- app_assoc. }
    exists w', extra'. split; [|split; [assumption | split; [congruence|]]].
    + simpl. unfold bind. now rewrite R1.
    + rewrite D', D1. simpl. now rewrite <- app_assoc.
Qed.

(** The whole plotting step: the store is extended, the panels are drawn. *)
Lemma plot_run ntrial alpha (results : table) methods title
    (h0 : list (list float)) (w : world) (extra : list (list float)) :
  (forall a, In a (table_refs results) -> (a < length h0)%nat) ->
  heap w = h0 ++ extra ->
  exists w' extra',
    plot_simulation_results ntrial alpha results methods title w = Ok (tt, w') /\
    heap w' = h0 ++ extra' /\
    rng w' = rng w /\
    drawn w' = drawn w ++ panels ntrial alpha results title h0.
Proof.
  intros Hvalid Hh.
  set (w3 := {| rng := rng w; heap := heap w;
                drawn := drawn w ++ [Subplots 1 2; RcParams "font.size" 14;
                                     Suptitle title];
                wlog := wlog w; junk := junk w |}).
  destruct (plot_methods_run ntrial results h0 (keys results) Hvalid
              (fun m Hm => Hm) w3 extra Hh)
    as (w4 & extra' & R4 & Hh4 & G4 & D4).
  eexists _, extra'. split; [|split; [|split]].
  - unfold plot_simulation_results.
    unfold bind at 1. unfold draw at 1. cbn beta iota.
    unfold bind at 1. unfold draw at 1. cbn beta iota.
    unfold bind at 1. unfold draw at 1. cbn beta iota.
    cbn [rng heap drawn wlog junk]. rewrite <- !app_assoc. cbn [app].
    fold w3. unfold bind at 1. rewrite R4.
    unfold bind, draw. cbn [rng heap drawn wlog junk]. reflexivity.
  - cbn [heap]. exact Hh4.
  - cbn [rng]. exact G4.
  - cbn [drawn]. rewrite D4. unfold panels. cbn [drawn w3].
    rewrite <- !app_assoc. reflexivity.
Qed.

(** C8.  On a table whose references are arrays of the store, the plotting
    step returns; every array that existed before the call, and so every
    array of the table, is unchanged after it; the table itself is a value
    that the step cannot change; the generator is untouched; and a second
    call on the same table draws the same panels as the first. *)
Theorem plot_reads_only ntrial alpha (results : table) methods title (w : world) :
  (forall a, In a (table_refs results) -> (a < length (heap w))%nat) ->
  exists w' w'',
    plot_simulation_results ntrial alpha results methods title w = Ok (tt, w') /\
    (forall a, (a < length (heap w))%nat ->
               nth_error (heap w') a = nth_error (heap w) a) /\
    contents results (heap w') = contents results (heap w) /\
    rng w' = rng w /\
    drawn w' = drawn w ++ panels ntrial alpha results title (heap w) /\
    panels ntrial alpha results title (heap w')
    = panels ntrial alpha results title (heap w) /\
    plot_simulation_results ntrial alpha results methods title w' = Ok (tt, w'') /\
    drawn w'' = drawn w' ++ panels ntrial alpha results title (heap w) /\
    contents results (heap w'') = contents results (heap w).
Proof.
  intros Hvalid.
  destruct (plot_run ntrial alpha results methods title (heap w) w [] Hvalid)
    as (w' & extra' & R1 & Hh1 & G1 & D1); [now rewrite app_nil_r|].
  destruct (plot_run ntrial alpha results methods title (heap w) w' extra'
              Hvalid Hh1)
    as (w'' & extra'' & R2 & Hh2 & G2 & D2).
  assert (Hcont : forall extra,
             contents results (heap w ++ extra) = contents results (heap w)).
  { intros extra. unfold contents.
    apply map_ext_in. intros [m r] Hm. cbn [fst snd]. f_equal.
    apply map_ext_in. intros [d c] Hd. cbn [fst snd]. f_equal.
    rewrite !nth_error_app1; [reflexivity | |];
      apply Hvalid; eapply (refs_of_In inner_refs); eauto;
      eapply (refs_of_In cell_refs); eauto; simpl; auto. }
  exists w', w''. split; [assumption|]. split.
  { intros a Ha. rewrite Hh1. now apply nth_error_app1. }
  split; [rewrite Hh1; apply Hcont|]. split; [assumption|].
  split; [assumption|].
  split; [rewrite Hh1; now apply panels_app|].
  split; [assumption|]. split; [assumption|].
  rewrite Hh2. apply Hcont.
Qed.

End Plot.

Lemma plot_reads_only_witness :
  let E := constant_estimator (Some 0, Some 0, Some 1) in
  let results : table :=
    [("naive"%string, [(5%nat, {| Cell.coverage := 0; Cell.width_mean := 1 |})])] in
  let w : @world counting :=
    @Build_world counting 1%Z [[Some (9 / 10)]; [Some 4]] [] [] (fun _ _ => None) in
  exists w' w'',
    @plot_simulation_results counting E 1 (Some (1 / 10)) results
      ["naive"%string] "Coverages and interval widths" w = Ok (tt, w') /\
    (forall a, (a < length (heap w))%nat ->
               nth_error (heap w') a = nth_error (heap w) a) /\
    contents results (heap w') = contents results (heap w) /\
    rng w' = rng w /\
    drawn w' = drawn w ++ panels 1 (Some (1 / 10)) results
                            "Coverages and interval widths" (heap w) /\
    panels 1 (Some (1 / 10)) results "Coverages and interval widths" (heap w')
    = panels 1 (Some (1 / 10)) results "Coverages and interval widths" (heap w) /\
    @plot_simulation_results counting E 1 (Some (1 / 10)) results
      ["naive"%string] "Coverages and interval widths" w' = Ok (tt, w'') /\
    drawn w'' = drawn w' ++ panels 1 (Some (1 / 10)) results
                              "Coverages and interval widths" (heap w) /\
    contents results (heap w'') = contents results (heap w).
Proof.
  intros E results w.
  apply (@plot_reads_only counting E 1%nat (Some (1 / 10)) results
           ["naive"%string] "Coverages and interval widths"%string w).
  intros a [<-|[<-|[]]]; simpl; lia.
Defined.

(** ** Two runs from the same generator state *)

Section TwoRuns.

Context {RS : RandomSource} {E : Estimator}.

Lemma for_each_same_outcome {A} (R : world -> world -> Prop)
    (b1 b2 : A -> M unit) (xs : list A) :
  (forall x w1 w2, In x xs -> R w1 w2 ->
     same_outcome (fun p q => R (snd p) (snd q)) (b1 x w1) (b2 x w2)) ->
  forall w1 w2, R w1 w2 ->
    same_outcome (fun p q => R (snd p) (snd q))
      (for_each xs b1 w1) (for_each xs b2 w2).
Proof.
  induction xs as [|x xs IH]; intros Hb w1 w2 HR; simpl.
  - exact HR.
  - unfold bind. specialize (Hb x w1 w2 (or_introl eq_refl) HR) as Hx.
    destruct (b1 x w1) as [[[] u1]|e1], (b2 x w2) as [[[] u2]|e2];
      simpl in Hx; try contradiction; [|exact Hx].
    apply IH; [|exact Hx].
    intros y v1 v2 Hy. apply Hb. now right.
Qed.

Variables (r1 r2 : table) (methods : list string) (alpha : float).
Variables (n base1 base2 : nat) (dimensions : list nat) (sh1 sh2 : list nat).
Variable log1 : list (nat * nat).

Hypothesis Hwf1 : table_wf n base1 r1 sh1.
Hypothesis Hwf2 : table_wf n base2 r2 sh2.
Hypothesis Hlook1 : forall m d, In m methods -> In d dimensions ->
                                exists c, lookup r1 m d = Some c.
Hypothesis Hlook2 : forall m d, In m methods -> In d dimensions ->
                                exists c, lookup r2 m d = Some c.

Local Abbreviation agree := (agree r1 r2 sh1 sh2 log1).

Lemma method_body_agree d t data m w1 w2 :
  In m methods -> In d dimensions -> (t < n)%nat -> agree w1 w2 ->
  same_outcome (fun p q => agree (snd p) (snd q))
    (method_body r1 alpha d t data m w1)
    (method_body r2 alpha d t data m w2).
Proof.
  intros Hm Hd Ht (Hg & Hs1 & Hs2 & Hcells).
  destruct (Hlook1 m d Hm Hd) as [c1 Hc1].
  destruct (Hlook2 m d Hm Hd) as [c2 Hc2].
  destruct (evaluate alpha data m) as [[cov wid]|e] eqn:Hev.
  2:{ rewrite (method_body_err r1 alpha d t data m w1 e Hev).
      rewrite (method_body_err r2 alpha d t data m w2 e Hev).
      reflexivity. }
  pose proof Hwf1 as Hwf1'. rewrite <- Hs1 in Hwf1'.
  pose proof Hwf2 as Hwf2'. rewrite <- Hs2 in Hwf2'.
  destruct (method_body_ok r1 alpha d t data m w1 n base1 c1 cov wid
              Hwf1' Hc1 Ht Hev) as (u1 & R1 & _).
  destruct (method_body_ok r2 alpha d t data m w2 n base2 c2 cov wid
              Hwf2' Hc2 Ht Hev) as (u2 & R2 & _).
  rewrite R1, R2. cbn [same_outcome snd].
  destruct (method_step r1 methods alpha n base1 dimensions sh1 Hwf1 Hlook1
              d t data m w1 u1 Hm Hd Ht Hs1 R1)
    as (c1' & cov1 & wid1 & Hc1' & Hev1 & G1 & _ & _ & _ & S1 & Rc1 & Rw1 & F1).
  destruct (method_step r2 methods alpha n base2 dimensions sh2 Hwf2 Hlook2
              d t data m w2 u2 Hm Hd Ht Hs2 R2)
    as (c2' & cov2 & wid2 & Hc2' & Hev2 & G2 & _ & _ & _ & S2 & Rc2 & Rw2 & F2).
  assert (c1' = c1) by congruence. assert (c2' = c2) by congruence.
  assert (cov1 = cov /\ wid1 = wid) as [-> ->] by (split; congruence).
  assert (cov2 = cov /\ wid2 = wid) as [-> ->] by (split; congruence).
  subst c1' c2'.
  split; [congruence|]. split; [assumption|]. split; [assumption|].
  intros m' d' k1 k2 t' Hk1 Hk2 Hlt.
  destruct (method_step_count r1 methods alpha n base1 dimensions sh1
              Hwf1 Hlook1 m' d' k1 (Cell.coverage k1) t' Hk1
              (or_introl eq_refl) d t data m w1 u1 Hm Hd Ht Hs1 R1)
    as [_ Hcount].
  destruct Hwf1 as [Hnd1 _]. destruct Hwf2 as [Hnd2 _].
  assert (Hsep1 : (m, d) <> (m', d') ->
                  forall a a', In a (cell_refs k1) -> In a' (cell_refs c1) ->
                               a <> a').
  { intros Hne a a' Ha Ha' ->.
    destruct (lookup_distinct r1 m' d' k1 m d c1 a' Hnd1 Hk1 Hc1 Ha Ha')
      as [? [? _]]. congruence. }
  assert (Hsep2 : (m, d) <> (m', d') ->
                  forall a a', In a (cell_refs k2) -> In a' (cell_refs c2) ->
                               a <> a').
  { intros Hne a a' Ha Ha' ->.
    destruct (lookup_distinct r2 m' d' k2 m d c2 a' Hnd2 Hk2 Hc2 Ha Ha')
      as [? [? _]]. congruence. }
  destruct (string_dec m m') as [<-|Hnm];
    [destruct (Nat.eq_dec d d') as [<-|Hnd];
     [destruct (Nat.eq_dec t t') as [<-|Hnt]|]|].
  - assert (k1 = c1) by congruence. assert (k2 = c2) by congruence.
    subst k1 k2. split; congruence.
  - assert (k1 = c1) by congruence. assert (k2 = c2) by congruence.
    subst k1 k2.
    destruct (Hcells m d c1 c2 t' Hc1 Hc2) as [Ec Ew]; [lia|].
    rewrite !F1, !F2; [auto | | | | | | | |]; congruence.
  - destruct (Hcells m d' k1 k2 t' Hk1 Hk2) as [Ec Ew]; [lia|].
    assert (Hne : (m, d) <> (m, d')) by congruence.
    rewrite !F1, !F2; [auto | | | | | | | |]; intros Heq;
      pose proof (f_equal fst Heq) as Ha; cbn [fst] in Ha;
      first [ eapply (Hsep1 Hne); [| |exact Ha]; simpl; now auto
            | eapply (Hsep2 Hne); [| |exact Ha]; simpl; now auto ].
  - destruct (Hcells m' d' k1 k2 t' Hk1 Hk2) as [Ec Ew]; [lia|].
    assert (Hne : (m, d) <> (m', d')) by congruence.
    rewrite !F1, !F2; [auto | | | | | | | |]; intros Heq;
      pose proof (f_equal fst Heq) as Ha; cbn [fst] in Ha;
      first [ eapply (Hsep1 Hne); [| |exact Ha]; simpl; now auto
            | eapply (Hsep2 Hne); [| |exact Ha]; simpl; now auto ].
Qed.

Lemma set_rng_agree w1 w2 g :
  agree w1 w2 -> agree (set_rng w1 g) (set_rng w2 g).
Proof.
  intros (Hg & Hs1 & Hs2 & Hcells). repeat split; try assumption.
  - apply (Hcells m d c1 c2 t); assumption.
  - apply (Hcells m d c1 c2 t); assumption.
Qed.

Lemma trial_body_agree d t w1 w2 :
  In d dimensions -> (t < n)%nat -> agree w1 w2 ->
  same_outcome (fun p q => agree (snd p) (snd q))
    (trial_body r1 methods alpha d t w1)
    (trial_body r2 methods alpha d t w2).
Proof.
  intros Hd Ht Hagree. unfold trial_body, bind.
  destruct (draw_trial_data_run d w1)
    as (b & g1 & Xtr & g2 & ntr & g3 & nte & g4 & Xte & g5 & Hb & Hx & Hn & Hte
        & Hy & Hrun1 & _).
  destruct (draw_trial_data_run d w2)
    as (b' & g1' & Xtr' & g2' & ntr' & g3' & nte' & g4' & Xte' & g5' & Hb' & Hx'
        & Hn' & Hte' & Hy' & Hrun2 & _).
  destruct Hagree as (Hg & Hrest). rewrite <- Hg in Hb'.
  assert (b' = b /\ g1' = g1) as [-> ->] by (split; congruence).
  assert (Xtr' = Xtr /\ g2' = g2) as [-> ->] by (split; congruence).
  assert (ntr' = ntr /\ g3' = g3) as [-> ->] by (split; congruence).
  assert (nte' = nte /\ g4' = g4) as [-> ->] by (split; congruence).
  assert (Xte' = Xte /\ g5' = g5) as [-> ->] by (split; congruence).
  rewrite Hrun1, Hrun2.
  apply for_each_same_outcome.
  - intros m u1 u2 Hm Hu. now apply method_body_agree.
  - apply set_rng_agree. split; assumption.
Qed.

Lemma loops_agree w1 w2 :
  agree w1 w2 ->
  same_outcome (fun p q => agree (snd p) (snd q))
    (for_each dimensions (fun d =>
       for_each (seq 0 n) (fun t => trial_body r1 methods alpha d t)) w1)
    (for_each dimensions (fun d =>
       for_each (seq 0 n) (fun t => trial_body r2 methods alpha d t)) w2).
Proof.
  intros Hagree. apply for_each_same_outcome; [|assumption].
  intros d u1 u2 Hd Hu. apply for_each_same_outcome; [|assumption].
  intros t v1 v2 Ht Hv. apply in_seq in Ht.
  apply trial_body_agree; auto. lia.
Qed.

End TwoRuns.

Section Reproducibility.

Context {RS : RandomSource} {E : Estimator}.

Lemma draws_app (a b : nat) (g : G) :
  snd (draws (a + b) g) = snd (draws b (snd (draws a g))).
Proof.
  revert g; induction a as [|a IH]; intros g; simpl; [reflexivity|].
  destruct (gauss g) as [x g1]. specialize (IH g1).
  destruct (draws (a + b) g1) as [xs g2], (draws a g1) as [ys g3].
  exact IH.
Qed.

Lemma draw_rows_draws (r c : nat) (g : G) :
  snd (draw_rows r c g) = snd (draws (r * c) g).
Proof.
  revert g; induction r as [|r IH]; intros g; simpl; [reflexivity|].
  rewrite draws_app.
  destruct (draws c g) as [row g1]. specialize (IH g1).
  destruct (draw_rows r c g1) as [rest g2]. exact IH.
Qed.

(** A trial advances the generator by its draws. *)
Lemma draw_trial_data_rng (d : nat) (w : world) data w' :
  draw_trial_data d w = Ok (data, w') ->
  rng w' = snd (draws (d + n_train * d + n_train + n_test + n_test * d) (rng w)).
Proof.
  intros Hrun.
  destruct (draw_trial_data_run d w)
    as (b & g1 & Xtr & g2 & ntr & g3 & nte & g4 & Xte & g5 & Hb & Hx & Hn & Ht
        & Hy & Hrun' & _).
  rewrite Hrun in Hrun'. inversion Hrun'; subst. cbn [rng set_rng].
  rewrite !draws_app, Hb. cbn [snd].
  rewrite <- (draw_rows_draws n_train d g1), Hx. cbn [snd].
  rewrite Hn. cbn [snd]. rewrite Ht. cbn [snd].
  now rewrite <- (draw_rows_draws n_test d g4), Hy.
Qed.

Lemma method_body_rng results alpha d t data m w w' :
  method_body results alpha d t data m w = Ok (tt, w') -> rng w' = rng w.
Proof.
  unfold method_body. intros Hrun.
  apply bind_ok in Hrun as (ft & u1 & H1 & Hrun). apply call_ok in H1 as [_ ->].
  apply bind_ok in Hrun as (yp & u2 & H2 & Hrun). apply call_ok in H2 as [_ ->].
  apply bind_ok in Hrun as (cov & u3 & H3 & Hrun). apply lift_ok in H3 as [_ ->].
  apply bind_ok in Hrun as (wid & u4 & H4 & Hrun). apply lift_ok in H4 as [_ ->].
  apply bind_ok in Hrun as ([] & u5 & H5 & Hrun).
  apply bind_ok in H5 as (rm & u6 & H6 & H5). apply getitem_ok in H6 as [_ ->].
  apply bind_ok in H5 as (rd & u7 & H7 & H5). apply getitem_ok in H7 as [_ ->].
  apply setitem_ok in H5 as (G5 & _).
  apply bind_ok in Hrun as (rm' & u8 & H8 & Hrun). apply getitem_ok in H8 as [_ ->].
  apply bind_ok in Hrun as (rd' & u9 & H9 & Hrun). apply getitem_ok in H9 as [_ ->].
  apply setitem_ok in Hrun as (G6 & _).
  congruence.
Qed.

Lemma for_each_rng {A} (k : A -> nat) (body : A -> M unit) (xs : list A) :
  (forall x w w', In x xs -> body x w = Ok (tt, w') ->
                  rng w' = snd (draws (k x) (rng w))) ->
  forall w w', for_each xs body w = Ok (tt, w') ->
               rng w' = snd (draws (list_sum (map k xs)) (rng w)).
Proof.
  induction xs as [|x xs IH]; intros Hbody w w' Hrun; simpl in *.
  - inversion Hrun; subst. reflexivity.
  - apply bind_ok in Hrun as [[] [w1 [Hx Hrest]]].
    rewrite draws_app, <- (Hbody x w w1 (or_introl eq_refl) Hx).
    apply IH; [|exact Hrest].
    intros y u u' Hy. apply Hbody. now right.
Qed.

Lemma list_sum_const {A} (c : nat) (xs : list A) :
  list_sum (map (fun _ => c) xs) = (length xs * c)%nat.
Proof.
  induction xs as [|x xs IH]; simpl; [reflexivity | now rewrite IH].
Qed.

(** The harness advances the generator by the draws of its trials and does
    nothing else to it. *)
Lemma harness_rng methods alpha n dimensions w0 results w' :
  PIs_vs_dimensions methods alpha n dimensions w0 = Ok (results, w') ->
  rng w' = snd (draws (total_draws n dimensions) (rng w0)).
Proof.
  intros Hrun.
  destruct (harness_phases methods alpha n dimensions w0)
    as (res & w1 & _ & _ & Hg & _ & _ & _ & _ & _ & Heq).
  rewrite Hrun in Heq.
  destruct (for_each _ _ w1) as [[[] w2]|e] eqn:Hloop; [|discriminate].
  inversion Heq; subst res w2. clear Heq.
  rewrite <- Hg. unfold total_draws.
  apply (for_each_rng (fun d => (n * draws_per_trial d)%nat)) with (w := w1)
    in Hloop; [exact Hloop|].
  intros d u u' _ Hb.
  apply (for_each_rng (fun _ => draws_per_trial d)) with (w := u) in Hb.
  - rewrite list_sum_const, length_seq in Hb. exact Hb.
  - intros t v v' _ Hb'. unfold trial_body in Hb'.
    apply bind_ok in Hb' as (data & v1 & Hdata & Hm).
    apply draw_trial_data_rng in Hdata. fold (draws_per_trial d) in Hdata.
    rewrite <- Hdata.
    apply (for_each_rng (fun _ => O)) with (w := v1) in Hm.
    + rewrite list_sum_const, Nat.mul_0_r in Hm. exact Hm.
    + intros m x x' _ Hx. simpl.
      exact (method_body_rng _ _ _ _ _ _ _ _ Hx).
Qed.

Lemma nth_error_ext_length {A} (xs ys : list A) (n : nat) :
  length xs = n -> length ys = n ->
  (forall t, (t < n)%nat -> nth_error xs t = nth_error ys t) -> xs = ys.
Proof.
  revert ys n; induction xs as [|x xs IH]; intros [|y ys] n Hx Hy Hnth;
    simpl in *; subst; try discriminate; [reflexivity|].
  assert (Some x = Some y) as Heq by (apply (Hnth O); lia).
  inversion Heq; subst. f_equal.
  apply (IH ys (length xs)); [reflexivity | lia |].
  intros t Ht. apply (Hnth (S t)). lia.
Qed.

(** Two runs of the harness started with the same generator state, on any
    stores and with any uninitialised memory, have the same outcome: the same
    exception, or tables with the same keys and the same arrays under every
    key, and the same final generator state. *)
Lemma harness_deterministic methods alpha n dimensions (w1 w2 : world) :
  rng w1 = rng w2 ->
  same_outcome
    (fun p q =>
       rng (snd p) = rng (snd q) /\
       forall m d,
         match lookup (fst p) m d, lookup (fst q) m d with
         | Some c1, Some c2 =>
             nth_error (heap (snd p)) (Cell.coverage c1)
             = nth_error (heap (snd q)) (Cell.coverage c2) /\
             nth_error (heap (snd p)) (Cell.width_mean c1)
             = nth_error (heap (snd q)) (Cell.width_mean c2)
         | None, None => True
         | _, _ => False
         end)
    (PIs_vs_dimensions methods alpha n dimensions w1)
    (PIs_vs_dimensions methods alpha n dimensions w2).
Proof.
  intros Hg.
  destruct (harness_phases methods alpha n dimensions w1)
    as (r1 & u1 & _ & Hwf1 & G1 & _ & L1 & _ & _ & K1 & E1).
  destruct (harness_phases methods alpha n dimensions w2)
    as (r2 & u2 & _ & Hwf2 & G2 & _ & L2 & _ & _ & K2 & E2).
  assert (Hlook1 : forall m d, In m methods -> In d dimensions ->
                               exists c, lookup r1 m d = Some c).
  { intros m d Hm Hd. apply K1. auto. }
  assert (Hlook2 : forall m d, In m methods -> In d dimensions ->
                               exists c, lookup r2 m d = Some c).
  { intros m d Hm Hd. apply K2. auto. }
  pose proof (loops_agree r1 r2 methods alpha n (length (heap w1))
                (length (heap w2)) dimensions (shape (heap u1))
                (shape (heap u2)) (wlog w1) Hwf1 Hwf2 Hlook1 Hlook2 u1 u2)
    as Hloops.
  assert (Hinit : agree r1 r2 (shape (heap u1)) (shape (heap u2)) (wlog w1) u1 u2).
  { split; [congruence|]. split; [reflexivity|]. split; [reflexivity|].
    intros m d c1 c2 t _ _ Hlt. rewrite L1 in Hlt. lia. }
  specialize (Hloops Hinit).
  pose proof (harness_writes methods alpha n dimensions w1 r1) as Hw1.
  rewrite E1 in *. rewrite E2.
  destruct (for_each dimensions _ u1) as [[[] v1]|e1],
           (for_each dimensions _ u2) as [[[] v2]|e2];
    cbn [same_outcome snd fst] in *; try contradiction; [|exact Hloops].
  destruct Hloops as (Hrng & S1 & S2 & Hcells).
  split; [assumption|]. intros m d.
  destruct (lookup r1 m d) as [c1|] eqn:Hc1, (lookup r2 m d) as [c2|] eqn:Hc2.
  - destruct (Hw1 v1 eq_refl) as [_ [_ Hcount]].
    destruct (proj1 (K1 m d) (ex_intro _ c1 Hc1)) as [Hm Hd].
    assert (Hwritten : forall t, (t < n)%nat ->
              (writes (wlog w1) (Cell.coverage c1) t
               < writes (wlog v1) (Cell.coverage c1) t)%nat).
    { intros t Ht.
      rewrite (Hcount m d c1 (Cell.coverage c1) t Hc1 (or_introl eq_refl) Ht).
      apply (count_occ_In string_dec) in Hm.
      apply (count_occ_In Nat.eq_dec) in Hd. nia. }
    destruct Hwf1 as [_ Hall1]. destruct Hwf2 as [_ Hall2].
    assert (Harr : forall sel : cell -> nat,
              In (sel c1) (cell_refs c1) -> In (sel c2) (cell_refs c2) ->
              (forall t, (t < n)%nat ->
                 read (heap v1) (sel c1) t = read (heap v2) (sel c2) t) ->
              nth_error (heap v1) (sel c1) = nth_error (heap v2) (sel c2)).
    { intros sel In1 In2 Hread.
      destruct (Hall1 (sel c1)) as [_ N1]; [eapply lookup_refs; eauto|].
      destruct (Hall2 (sel c2)) as [_ N2]; [eapply lookup_refs; eauto|].
      rewrite <- S1 in N1. rewrite <- S2 in N2.
      apply shape_nth in N1 as (a1 & N1 & Ln1).
      apply shape_nth in N2 as (a2 & N2 & Ln2).
      rewrite N1, N2. f_equal.
      apply (nth_error_ext_length a1 a2 n Ln1 Ln2).
      intros t Ht. specialize (Hread t Ht). unfold read in Hread.
      now rewrite N1, N2 in Hread. }
    split; apply Harr; simpl; auto; intros t Ht;
      apply (Hcells m d c1 c2 t Hc1 Hc2 (Hwritten t Ht)).
  - pose proof (proj1 (K1 m d) (ex_intro _ c1 Hc1)) as Hin.
    destruct (proj2 (K2 m d) Hin) as [c Hc]. congruence.
  - pose proof (proj1 (K2 m d) (ex_intro _ c2 Hc2)) as Hin.
    destruct (proj2 (K1 m d) Hin) as [c Hc]. congruence.
  - exact I.
Qed.

End Reproducibility.

Section Seeding.

Context {RS : RandomSource} {E : Estimator}.

Lemma negative_false (s : R) : 0 <= s -> negative (Some s) = false.
Proof.
  intros Hs. unfold negative. destruct (Rlt_dec s 0); [lra | reflexivity].
Qed.

Lemma negative_true (s : R) : s < 0 -> negative (Some s) = true.
Proof.
  intros Hs. unfold negative. destruct (Rlt_dec s 0); [reflexivity | lra].
Qed.

(** What [get_homoscedastic_data] does, in terms of the draws that follow
    the seed: it raises for a negative [sigma] and returns otherwise. *)
Lemma homoscedastic_data_run (n_samples n_test : nat) (sigma : float) (w : world) :
  let es := fst (exp_draws n_samples (seed 59)) in
  let g1 := snd (exp_draws n_samples (seed 59)) in
  let gs := fst (draws n_samples g1) in
  let X_train := map (fmul (Some (4 / 10))) es in
  let X_test := linspace (Some (1 / 1000)) (Some (12 / 10)) n_test in
  get_homoscedastic_data n_samples n_test sigma w
  = if negative sigma then Err ValueError
    else Ok ((X_train,
              vadd (map f X_train)
                   (map (fun x => fadd (Some 0) (fmul sigma x)) gs),
              X_test, map f X_test, fmul (Some (18 / 10)) sigma),
             set_rng w (snd (draws n_samples g1))).
Proof.
  cbv zeta.
  destruct (exp_draws n_samples (seed 59)) as [xs g1] eqn:He.
  destruct (draws n_samples g1) as [ns g2] eqn:Hn.
  unfold get_homoscedastic_data, bind, random_seed, exponential,
    normal_loc_scale.
  cbn [rng set_rng]. rewrite He.
  destruct (negative sigma); [reflexivity|].
  unfold bind, normal, ret. cbn [rng set_rng snd fst]. rewrite Hn.
  cbn [snd fst]. reflexivity.
Qed.

(** The outcome of the data generation of the 1D example does not depend on
    the state of the generator: line 68 seeds it with 59. *)
Lemma homoscedastic_data_seeded (n_samples n_test : nat) (sigma : float) :
  exists outcome,
    forall w,
      get_homoscedastic_data n_samples n_test sigma w
      = match outcome with
        | Ok data =>
            Ok (data,
                set_rng w (snd (draws n_samples
                                  (snd (exp_draws n_samples (seed 59))))))
        | Err e => Err e
        end.
Proof.
  destruct (negative sigma) eqn:Hneg.
  - exists (Err ValueError). intros w.
    rewrite homoscedastic_data_run, Hneg. reflexivity.
  - eexists (Ok _). intros w.
    rewrite homoscedastic_data_run, Hneg. reflexivity.
Qed.

(** C4.  Two runs of the harness with the same configuration and estimator,
    both started with the generator in the state of one seed, have the same
    outcome, whatever the stores and the uninitialised memory of the two
    runs: the same exception, or tables with the same keys and the same
    arrays under every key.  The harness itself never seeds: it leaves the
    generator in the state reached from the one it found by the draws of its
    trials.  The data generation of the 1D example seeds the generator with
    59: its outcome (the data, or the [ValueError] of a negative [sigma]) and
    the state it leaves when it returns are the same from every state. *)
Theorem reproducibility :
  (forall (s : Z) methods alpha n_trial dimensions (w1 w2 : world),
      rng w1 = seed s -> rng w2 = seed s ->
      same_outcome
        (fun p q =>
           rng (snd p) = rng (snd q) /\
           forall m d,
             match lookup (fst p) m d, lookup (fst q) m d with
             | Some c1, Some c2 =>
                 nth_error (heap (snd p)) (Cell.coverage c1)
                 = nth_error (heap (snd q)) (Cell.coverage c2) /\
                 nth_error (heap (snd p)) (Cell.width_mean c1)
                 = nth_error (heap (snd q)) (Cell.width_mean c2)
             | None, None => True
             | _, _ => False
             end)
        (PIs_vs_dimensions methods alpha n_trial dimensions w1)
        (PIs_vs_dimensions methods alpha n_trial dimensions w2)) /\
  (forall methods alpha n_trial dimensions (w : world) results w',
      PIs_vs_dimensions methods alpha n_trial dimensions w = Ok (results, w') ->
      rng w' = snd (draws (total_draws n_trial dimensions) (rng w))) /\
  (forall n_samples n_test sigma,
      exists outcome,
        forall w : world,
          get_homoscedastic_data n_samples n_test sigma w
          = match outcome with
            | Ok data =>
                Ok (data,
                    set_rng w (snd (draws n_samples
                                      (snd (exp_draws n_samples (seed 59))))))
            | Err e => Err e
            end).
Proof.
  split; [|split].
  - intros s methods alpha n dims w1 w2 H1 H2.
    apply harness_deterministic. congruence.
  - intros. eapply harness_rng; eauto.
  - apply homoscedastic_data_seeded.
Qed.

End Seeding.

(** With the counting generator the harness leaves the generator where its
    draws took it, so two runs started in different states end in different
    states; the 1D data generation ends in one state from both. *)
Example harness_keeps_generator_state :
  let E := constant_estimator (Some 0, Some 0, Some 1) in
  forall results results' w' w'',
    @PIs_vs_dimensions counting E ["naive"%string] (Some (1 / 10)) 1 [5%nat]
      (@start counting 1%Z) = Ok (results, w') ->
    @PIs_vs_dimensions counting E ["naive"%string] (Some (1 / 10)) 1 [5%nat]
      (@start counting 2%Z) = Ok (results', w'') ->
    rng w' = 1206%Z /\ rng w'' = 1207%Z.
Proof.
  intros E results results' w' w'' H1 H2.
  apply harness_rng in H1, H2.
  rewrite counting_draws in H1, H2. cbn [snd rng start] in H1, H2.
  split; [rewrite H1 | rewrite H2]; reflexivity.
Qed.

(** ** The script *)

Lemma methods_NoDup : NoDup methods.
Proof.
  unfold methods.
  repeat (constructor; [simpl; intuition discriminate|]). constructor.
Qed.

Lemma dimensions_NoDup : NoDup dimensions.
Proof.
  unfold dimensions. apply Injective_map_NoDup; [|apply seq_NoDup].
  intros i j Hij. lia.
Qed.

Section ScriptProperties.

Context {RS : RandomSource} {E : Estimator}.

(** The references of the table the harness returns are arrays of the
    store it leaves: the plotting step can be run on it. *)
Lemma harness_table_valid ms alpha n dims w results w' :
  PIs_vs_dimensions ms alpha n dims w = Ok (results, w') ->
  forall a, In a (table_refs results) -> (a < length (heap w'))%nat.
Proof.
  intros Hrun a Ha.
  destruct (harness_writes ms alpha n dims w results w' Hrun)
    as [_ [[_ Hall] _]].
  destruct (Hall a Ha) as [_ Hn].
  rewrite <- shape_length. apply nth_error_Some. congruence.
Qed.

(** X15.  The script as a whole.  When the harness raises, so does the
    script.  Otherwise every index of every array of the table was assigned
    exactly once, since the script lists no method and no dimension twice,
    and the plotting step draws the panels of the table and leaves its arrays
    as the harness left them. *)
Lemma script_outcome (w : world) :
  match script w with
  | Ok (_, w'') =>
      exists results w',
        PIs_vs_dimensions methods script_alpha ntrial dimensions w
        = Ok (results, w') /\
        (forall m d c a t,
            lookup results m d = Some c -> In a (cell_refs c) ->
            (t < ntrial)%nat ->
            writes (wlog w') a t = S (writes (wlog w) a t)) /\
        drawn w'' = drawn w' ++ panels ntrial script_alpha results
                                  "Coverages and interval widths" (heap w') /\
        contents results (heap w'') = contents results (heap w')
  | Err e =>
      PIs_vs_dimensions methods script_alpha ntrial dimensions w = Err e
  end.
Proof.
  unfold script, bind.
  destruct (PIs_vs_dimensions methods script_alpha ntrial dimensions w)
    as [[results w']|e] eqn:Hrun; [|reflexivity].
  pose proof (harness_table_valid _ _ _ _ _ _ _ Hrun) as Hvalid.
  destruct (plot_run ntrial script_alpha results methods
              "Coverages and interval widths" (heap w') w' [] Hvalid)
    as (w'' & extra & Hplot & Hh & _ & Hd); [now rewrite app_nil_r|].
  rewrite Hplot. exists results, w'. split; [reflexivity|].
  split; [|split].
  - intros m d c a t Hc Ha Ht.
    destruct (harness_writes _ _ _ _ _ _ _ Hrun) as [_ [_ Hcount]].
    rewrite (Hcount m d c a t Hc Ha Ht).
    destruct (proj1 (harness_keys _ _ _ _ _ _ _ Hrun m d) (ex_intro _ c Hc))
      as [Hm Hdim].
    rewrite (proj1 (NoDup_count_occ' Nat.eq_dec dimensions) dimensions_NoDup d Hdim).
    rewrite (proj1 (NoDup_count_occ' string_dec methods) methods_NoDup m Hm).
    lia.
  - rewrite Hd. reflexivity.
  - rewrite Hh. unfold contents.
    apply map_ext_in. intros [m r] Hm. cbn [fst snd]. f_equal.
    apply map_ext_in. intros [d c] Hdc. cbn [fst snd]. f_equal.
    rewrite !nth_error_app1; [reflexivity | |];
      apply Hvalid; eapply (refs_of_In inner_refs); eauto;
      eapply (refs_of_In cell_refs); eauto; simpl; auto.
Qed.

End ScriptProperties.

(** * Further properties of the harness *)

(** A run of the harness that completes, used in the examples below. *)
Lemma example_run (w0 : @world counting) :
  exists results w' c,
    @PIs_vs_dimensions counting (constant_estimator (Some 0, Some 0, Some 1))
      ["naive"%string] (Some (1 / 10)) 1 [5%nat] w0
    = Ok (results, w') /\
    lookup results "naive" 5 = Some c.
Proof.
  destruct (@harness_total counting (constant_estimator (Some 0, Some 0, Some 1))
              ["naive"%string] (Some (1 / 10)) 1%nat [5%nat] w0)
    as [results [w' Hrun]].
  - intros d w data w1 m _ Hdata.
    eapply constant_estimator_total; eauto.
  - destruct (proj2 (harness_keys _ _ _ _ _ _ _ Hrun "naive"%string 5%nat))
      as [c Hc]; [simpl; auto|].
    exists results, w', c. auto.
Qed.

(** ** The arrays of the table are new and separate *)

Section Separation.

Context {RS : RandomSource} {E : Estimator}.

(** X1.  The dict comprehensions of lines 76-83 give every method and
    dimension two arrays of their own: no array is shared between the two
    fields of a cell or between two cells, and none of them existed before
    the call. *)
Theorem result_arrays_separate methods alpha n_trial dimensions w0 results w' :
  PIs_vs_dimensions methods alpha n_trial dimensions w0 = Ok (results, w') ->
  forall m d c m' d' c',
    lookup results m d = Some c -> lookup results m' d' = Some c' ->
    Cell.coverage c <> Cell.width_mean c' /\
    ((m, d) <> (m', d') ->
       Cell.coverage c <> Cell.coverage c' /\
       Cell.width_mean c <> Cell.width_mean c') /\
    (length (heap w0) <= Cell.coverage c)%nat /\
    (length (heap w0) <= Cell.width_mean c)%nat.
Proof.
  intros Hrun m d c m' d' c' Hc Hc'.
  destruct (harness_writes _ _ _ _ _ _ _ Hrun) as (_ & [Hnd Hrefs] & _).
  change (NoDup (table_refs results)) in Hnd.
  assert (Hin : forall k x y z, lookup results k x = Some y ->
                                In z (cell_refs y) -> In z (table_refs results)).
  { intros k x y z Hy Hz. eapply lookup_refs; eauto. }
  split; [|split; [|split]].
  - intros Heq.
    destruct (lookup_distinct results m d c m' d' c' (Cell.coverage c) Hnd Hc Hc')
      as (_ & _ & Hcc); [simpl; auto | rewrite Heq; simpl; auto |].
    subst c'. exact (cell_distinct results m d c Hnd Hc Heq).
  - intros Hne. split; intros Heq.
    + destruct (lookup_distinct results m d c m' d' c' (Cell.coverage c) Hnd Hc Hc')
        as (Hm & Hd & _); [simpl; auto | rewrite Heq; simpl; auto |].
      apply Hne. congruence.
    + destruct (lookup_distinct results m d c m' d' c' (Cell.width_mean c) Hnd Hc Hc')
        as (Hm & Hd & _); [simpl; auto | rewrite Heq; simpl; auto |].
      apply Hne. congruence.
  - apply (Hrefs (Cell.coverage c)). eapply Hin; [exact Hc | simpl; auto].
  - apply (Hrefs (Cell.width_mean c)). eapply Hin; [exact Hc | simpl; auto].
Qed.

End Separation.

Lemma result_arrays_separate_witness :
  exists results w' c,
    @PIs_vs_dimensions counting (constant_estimator (Some 0, Some 0, Some 1))
      ["naive"%string] (Some (1 / 10)) 1 [5%nat] (@start counting 1%Z)
    = Ok (results, w') /\
    lookup results "naive" 5 = Some c /\
    Cell.coverage c <> Cell.width_mean c /\
    (("naive"%string, 5%nat) <> ("naive"%string, 5%nat) ->
       Cell.coverage c <> Cell.coverage c /\
       Cell.width_mean c <> Cell.width_mean c) /\
    (length (heap (@start counting 1%Z)) <= Cell.coverage c)%nat /\
    (length (heap (@start counting 1%Z)) <= Cell.width_mean c)%nat.
Proof.
  destruct (example_run (@start counting 1%Z)) as (results & w' & c & Hrun & Hc).
  exists results, w', c. split; [exact Hrun|]. split; [exact Hc|].
  exact (@result_arrays_separate counting
           (constant_estimator (Some 0, Some 0, Some 1))
           ["naive"%string] (Some (1 / 10)) 1%nat [5%nat] (@start counting 1%Z)
           results w' Hrun "naive"%string 5%nat c "naive"%string 5%nat c Hc Hc).
Defined.

(** ** What the harness leaves alone *)

Section Frame.

Context {RS : RandomSource} {E : Estimator}.

Variables (results : table) (methods : list string) (alpha : float).
Variables (n base : nat) (dimensions : list nat) (sh : list nat).

Hypothesis Hwf : table_wf n base results sh.
Hypothesis Hlook : forall m d, In m methods -> In d dimensions ->
                               exists c, lookup results m d = Some c.

Lemma method_step_frame d t data m w w' :
  In m methods -> In d dimensions -> (t < n)%nat -> shape (heap w) = sh ->
  method_body results alpha d t data m w = Ok (tt, w') ->
  shape (heap w') = sh /\ drawn w' = drawn w /\ junk w' = junk w /\
  forall a i, (a < base)%nat -> read (heap w') a i = read (heap w) a i.
Proof.
  intros Hm Hd Ht Hsh Hrun.
  destruct (method_step results methods alpha n base dimensions sh Hwf Hlook
              d t data m w w' Hm Hd Ht Hsh Hrun)
    as (c & cov & wid & Hc & _ & _ & Hdr & Hj & _ & Hs & _ & _ & Hf).
  split; [exact Hs|]. split; [exact Hdr|]. split; [exact Hj|].
  intros a i Ha. apply Hf.
  - intros Heq. inversion Heq; subst a.
    destruct Hwf as [_ Hrefs].
    destruct (Hrefs (Cell.coverage c)) as [Hb _]; [|lia].
    eapply lookup_refs; [exact Hc | simpl; auto].
  - intros Heq. inversion Heq; subst a.
    destruct Hwf as [_ Hrefs].
    destruct (Hrefs (Cell.width_mean c)) as [Hb _]; [|lia].
    eapply lookup_refs; [exact Hc | simpl; auto].
Qed.

Lemma loops_frame w w' :
  shape (heap w) = sh ->
  for_each dimensions (fun d =>
    for_each (seq 0 n) (fun t => trial_body results methods alpha d t)) w
  = Ok (tt, w') ->
  shape (heap w') = sh /\ drawn w' = drawn w /\ junk w' = junk w /\
  forall a i, (a < base)%nat -> read (heap w') a i = read (heap w) a i.
Proof.
  intros Hsh Hrun.
  apply (for_each_inv
           (fun u => shape (heap u) = sh /\ drawn u = drawn w /\ junk u = junk w /\
                     forall a i, (a < base)%nat ->
                                 read (heap u) a i = read (heap w) a i)
           (fun d => for_each (seq 0 n)
                       (fun t => trial_body results methods alpha d t))
           dimensions) with (w := w); [|auto|exact Hrun].
  intros d u u' Hd Hu Hru.
  apply (for_each_inv
           (fun u => shape (heap u) = sh /\ drawn u = drawn w /\ junk u = junk w /\
                     forall a i, (a < base)%nat ->
                                 read (heap u) a i = read (heap w) a i)
           (fun t => trial_body results methods alpha d t)
           (seq 0 n)) with (w := u); [|exact Hu|exact Hru].
  intros t v v' Ht Hv Hrv. apply in_seq in Ht.
  unfold trial_body in Hrv. apply bind_ok in Hrv.
  destruct Hrv as (data & v1 & Hdata & Hloop).
  destruct (draw_trial_data_total d v) as (data' & g & Hdata' & _).
  rewrite Hdata in Hdata'. inversion Hdata'; subst data' v1.
  apply (for_each_inv
           (fun u => shape (heap u) = sh /\ drawn u = drawn w /\ junk u = junk w /\
                     forall a i, (a < base)%nat ->
                                 read (heap u) a i = read (heap w) a i)
           (method_body results alpha d t data) methods)
    with (w := set_rng v g); [|exact Hv|exact Hloop].
  intros m x x' Hm (Hx1 & Hx2 & Hx3 & Hx4) Hrx.
  destruct (method_step_frame d t data m x x' Hm Hd) as (H1 & H2 & H3 & H4);
    [lia|exact Hx1|exact Hrx|].
  split; [exact H1|]. split; [congruence|]. split; [congruence|].
  intros a i Ha. rewrite H4 by exact Ha. auto.
Qed.

End Frame.

Section HarnessFrame.

Context {RS : RandomSource} {E : Estimator}.

(** X2.  The harness works on the arrays it allocates: when it returns, every
    array that was in the store before the call is what it was, nothing was
    sent to the plotting backend, and the arrays of the table come after the
    old ones. *)
Theorem harness_leaves_the_rest methods alpha n_trial dimensions w0 results w' :
  PIs_vs_dimensions methods alpha n_trial dimensions w0 = Ok (results, w') ->
  (forall a, (a < length (heap w0))%nat ->
             nth_error (heap w') a = nth_error (heap w0) a) /\
  drawn w' = drawn w0 /\
  (length (heap w0) <= length (heap w'))%nat.
Proof.
  intros Hrun.
  destruct (harness_phases methods alpha n_trial dimensions w0)
    as (r & w1 & _ & Hwf & _ & Hdr & _ & _ & [news Hnews] & Hlk & Heq).
  rewrite Heq in Hrun.
  destruct (for_each dimensions _ w1) as [[[] w2]|e] eqn:Hloops;
    [|discriminate].
  inversion Hrun; subst r w2. clear Hrun.
  assert (Hlook : forall m d, In m methods -> In d dimensions ->
                              exists c, lookup results m d = Some c).
  { intros m d Hm Hd. apply Hlk. auto. }
  destruct (loops_frame results methods alpha n_trial (length (heap w0))
              dimensions (shape (heap w1)) Hwf Hlook w1 w' eq_refl Hloops)
    as (Hsh & Hd & _ & Hfr).
  assert (Hlen : length (heap w') = length (heap w1)).
  { rewrite <- !shape_length. now rewrite Hsh. }
  split; [|split].
  - intros a Ha.
    assert (H1 : nth_error (heap w1) a = nth_error (heap w0) a).
    { rewrite Hnews. apply nth_error_app1. exact Ha. }
    rewrite <- H1.
    destruct (nth_error (heap w1) a) as [arr1|] eqn:Harr1.
    2:{ apply nth_error_None in Harr1. rewrite Hnews, length_app in Harr1. lia. }
    assert (Hs1 : nth_error (shape (heap w1)) a = Some (length arr1)).
    { apply shape_nth. eauto. }
    rewrite <- Hsh in Hs1. apply shape_nth in Hs1.
    destruct Hs1 as (arr & Harr & Hl).
    rewrite Harr. f_equal.
    apply (nth_error_ext_length arr arr1 (length arr1)); [exact Hl|reflexivity|].
    intros t _. specialize (Hfr a t Ha). unfold read in Hfr.
    now rewrite Harr, Harr1 in Hfr.
  - congruence.
  - rewrite Hlen, Hnews, length_app. lia.
Qed.

End HarnessFrame.

Lemma harness_leaves_the_rest_witness :
  let w0 : @world counting :=
    @Build_world counting 1%Z [[Some 7]] [] [] (fun _ _ => None) in
  exists results w',
    @PIs_vs_dimensions counting (constant_estimator (Some 0, Some 0, Some 1))
      ["naive"%string] (Some (1 / 10)) 1 [5%nat] w0
    = Ok (results, w') /\
    (forall a, (a < length (heap w0))%nat ->
               nth_error (heap w') a = nth_error (heap w0) a) /\
    drawn w' = drawn w0 /\
    (length (heap w0) <= length (heap w'))%nat.
Proof.
  intros w0.
  destruct (example_run w0) as (results & w' & c & Hrun & Hc).
  exists results, w'. split; [exact Hrun|].
  exact (@harness_leaves_the_rest counting
           (constant_estimator (Some 0, Some 0, Some 1))
           ["naive"%string] (Some (1 / 10)) 1%nat [5%nat] w0
           results w' Hrun).
Defined.

(** ** The errors of the harness *)

Section ErrorKinds.

Context {RS : RandomSource} {E : Estimator}.

(** Broadcasting fails with [ValueError] only, when the lengths differ and
    neither is one. *)
Lemma broadcast2_err {A B C} (f : A -> B -> C) (xs : list A) (ys : list B) e :
  broadcast2 f xs ys = Err e ->
  e = ValueError /\ length xs <> length ys /\
  length xs <> 1%nat /\ length ys <> 1%nat.
Proof.
  unfold broadcast2.
  destruct xs as [|x [|x' xs]]; destruct ys as [|y [|y' ys]];
    try discriminate;
    destruct (_ =? _)%nat eqn:Hl; try discriminate;
    apply Nat.eqb_neq in Hl; intros He; inversion He;
    (split; [reflexivity|]; split; [exact Hl|]; split; simpl; lia).
Qed.

(** The coverage of lines 107-110 fails only when the number of predicted
    rows is neither one nor the number of test points. *)
Lemma coverage_of_err (y_preds : list pred_row) (y_test : list float) e :
  length y_test = n_test ->
  coverage_of y_preds y_test = Err e ->
  e = ValueError /\ length y_preds <> 1%nat /\ length y_preds <> n_test.
Proof.
  intros Hl. unfold coverage_of, rbind.
  assert (Hne : length y_test <> 1%nat) by (rewrite Hl; discriminate).
  destruct (broadcast2 fle _ _) as [below|e1] eqn:Hb.
  - destruct (broadcast2 fge _ _) as [above|e2] eqn:Ha.
    + destruct (broadcast2 andb _ _) as [both|e3] eqn:Hboth; [discriminate|].
      apply broadcast2_length in Hb, Ha; try assumption.
      apply broadcast2_err in Hboth. destruct Hboth as (_ & Hd & _).
      congruence.
    + intros He. inversion He; subst e2.
      apply broadcast2_err in Ha. destruct Ha as (-> & Hd & H1 & _).
      unfold upper in Hd, H1. rewrite length_map in Hd, H1.
      split; [reflexivity|]. split; [exact H1|].
      intros Heq. apply Hd. exact (eq_trans Heq (eq_sym Hl)).
  - intros He. inversion He; subst e1.
    apply broadcast2_err in Hb. destruct Hb as (-> & Hd & H1 & _).
    unfold lower in Hd, H1. rewrite length_map in Hd, H1.
    split; [reflexivity|]. split; [exact H1|].
      intros Heq. apply Hd. exact (eq_trans Heq (eq_sym Hl)).
Qed.

(** A call of the harness that fails does so in the evaluation of some
    method on the data of some trial. *)
Lemma harness_err_source methods alpha n dimensions w0 e0 :
  PIs_vs_dimensions methods alpha n dimensions w0 = Err e0 ->
  exists d w data g m,
    In d dimensions /\ In m methods /\
    draw_trial_data d w = Ok (data, set_rng w g) /\
    length (y_test data) = n_test /\ length (X_test data) = n_test /\
    evaluate alpha data m = Err e0.
Proof.
  intros Hrun.
  destruct (harness_phases methods alpha n dimensions w0)
    as (results & w1 & Hdict & Hwf & _ & _ & _ & _ & _ & Hlk & Heq).
  rewrite Heq in Hrun.
  destruct (for_each dimensions _ w1) as [[[] w']|e1] eqn:Hloop;
    [discriminate|].
  inversion Hrun; subst e1. clear Hrun.
  apply for_each_err in Hloop as (ds1 & d & ds2 & w2 & Hds & Hpre & Hd).
  apply for_each_err in Hd as (ts1 & t & ts2 & w3 & Hts & Hpre' & Ht).
  apply seq_split in Hts as [-> Hlt]. rewrite Nat.sub_0_r in Hpre'.
  unfold trial_body in Ht.
  destruct (draw_trial_data_total d w3) as [data [g [Hdata [Hy Hx]]]].
  apply bind_err in Ht as [Ht | (data' & w4 & Hdata' & Hm)];
    [rewrite Hdata in Ht; discriminate|].
  rewrite Hdata in Hdata'. inversion Hdata'; subst data' w4. clear Hdata'.
  apply for_each_err in Hm as (ms1 & m & ms2 & w5 & Hms & Hpre'' & Hm).
  assert (Hs5 : shape (heap w5) = shape (heap w1)).
  { rewrite (method_loop_shape _ _ _ _ _ _ _ _ Hpre''). simpl.
    rewrite (trial_loop_shape _ _ _ _ _ _ _ Hpre').
    exact (dimension_loop_shape _ _ _ _ _ _ _ Hpre). }
  assert (Hin : In m methods /\ In d dimensions).
  { subst. split; apply in_elt. }
  destruct (proj2 (Hlk m d) Hin) as [c Hc].
  rewrite <- Hs5 in Hwf.
  pose proof (method_body_err_inv results alpha d t data m w5 n
                (length (heap w0)) c e0 Hwf Hc (proj2 Hlt) Hm) as Hev.
  exists d, w3, data, g, m. tauto.
Qed.

(** X3.  The only errors of the harness are the exceptions of the estimator
    and numpy's [ValueError]; it never fails on a missing key or an index out
    of range.  A [ValueError] means that [predict] returned, for the 100 test
    points, a number of rows that is neither 1 nor 100. *)
Theorem harness_error_kinds methods alpha n_trial dimensions w0 e0 :
  PIs_vs_dimensions methods alpha n_trial dimensions w0 = Err e0 ->
  (exists e, e0 = Raised e) \/
  (e0 = ValueError /\
   exists ft X y_preds,
     predict ft X = inr y_preds /\ length X = 100%nat /\
     length y_preds <> 1%nat /\ length y_preds <> 100%nat).
Proof.
  intros Hrun.
  destruct (harness_err_source _ _ _ _ _ _ Hrun)
    as (d & w & data & g & m & _ & _ & _ & Hy & Hx & Hev).
  unfold evaluate in Hev.
  destruct (fit _ _ _) as [e|ft] eqn:Hf.
  - left. exists e. congruence.
  - destruct (predict _ _) as [e|yp] eqn:Hp.
    + left. exists e. congruence.
    + right. rewrite width_mean_of_value in Hev.
      destruct (coverage_of yp (y_test data)) as [cov|e] eqn:Hcov;
        [discriminate|].
      cbn [rbind] in Hev. inversion Hev; subst e.
      destruct (coverage_of_err yp (y_test data) e0 Hy Hcov) as (-> & H1 & H2).
      split; [reflexivity|].
      exists ft, (X_test data), yp. auto.
Qed.

End ErrorKinds.

Lemma harness_error_kinds_witness :
  let E := naive_only (Some 0, Some 0, Some 1) in
  (exists e, @Raised E "cv"%string = Raised e) \/
  (@Raised E "cv"%string = ValueError /\
   exists ft X y_preds,
     @predict E ft X = inr y_preds /\ length X = 100%nat /\
     length y_preds <> 1%nat /\ length y_preds <> 100%nat).
Proof.
  intros E.
  exact (@harness_error_kinds counting E ["naive"%string; "cv"%string]
           (Some (1 / 10)) 1%nat [5%nat] (@start counting 1%Z)
           (@Raised E "cv"%string) unknown_method_raises).
Defined.

(** ** Empty inputs *)

Section EmptyInputs.

Context {RS : RandomSource} {E : Estimator}.

Lemma for_each_skip {A} (body : A -> M unit) (xs : list A) (w : world) :
  (forall x, In x xs -> body x w = Ok (tt, w)) ->
  for_each xs body w = Ok (tt, w).
Proof.
  induction xs as [|x xs IH]; intros Hb; [reflexivity|].
  cbn [for_each]. unfold bind. rewrite (Hb x) by (left; reflexivity).
  apply IH. intros y Hy. apply Hb. now right.
Qed.

(** X4.  With [n_trial = 0] the harness returns with every estimator: it
    allocates the table, every array of it empty, assigns nothing, draws no
    random number and never calls the estimator. *)
Theorem harness_without_trials methods alpha dimensions w0 :
  exists results w',
    PIs_vs_dimensions methods alpha 0 dimensions w0 = Ok (results, w') /\
    rng w' = rng w0 /\ wlog w' = wlog w0 /\
    forall m d, In m methods -> In d dimensions ->
      exists c, lookup results m d = Some c /\
                nth_error (heap w') (Cell.coverage c) = Some [] /\
                nth_error (heap w') (Cell.width_mean c) = Some [].
Proof.
  destruct (harness_phases methods alpha 0 dimensions w0)
    as (results & w1 & _ & [_ Hrefs] & Hrng & _ & Hlog & _ & _ & Hlk & Heq).
  exists results, w1. rewrite Heq.
  rewrite for_each_skip by reflexivity.
  split; [reflexivity|]. split; [exact Hrng|]. split; [exact Hlog|].
  intros m d Hm Hd.
  destruct (proj2 (Hlk m d) (conj Hm Hd)) as [c Hc].
  exists c. split; [exact Hc|].
  assert (Hempty : forall a, In a (cell_refs c) -> nth_error (heap w1) a = Some []).
  { intros a Ha.
    destruct (Hrefs a) as [_ Hn]; [eapply lookup_refs; eauto|].
    apply shape_nth in Hn. destruct Hn as (arr & Harr & Hl).
    destruct arr; [exact Harr | discriminate]. }
  split; apply Hempty; simpl; auto.
Qed.

Lemma outer_dict_no_dimensions (n : nat) (methods : list string) :
  forall (acc : table) (w : world),
    outer_dict n [] methods acc w
    = Ok (fold_left (fun a m => dict_set m [] a) methods acc, w).
Proof.
  induction methods as [|m ms IH]; intros acc w; [reflexivity|].
  cbn [outer_dict inner_dict fold_left]. unfold bind, ret. apply IH.
Qed.

Lemma fold_dict_set_get {V} (v : V) (ms : list string) :
  forall (acc : dict string V) (m : string),
    dict_get (fold_left (fun a k => dict_set k v a) ms acc) m
    = if in_dec string_dec m ms then Some v else dict_get acc m.
Proof.
  induction ms as [|k ms IH]; intros acc m; [reflexivity|].
  cbn [fold_left]. rewrite IH.
  destruct (in_dec string_dec m ms) as [Hin|Hnin];
    destruct (in_dec string_dec m (k :: ms)) as [Hin'|Hnin']; try reflexivity.
  - exfalso. apply Hnin'. now right.
  - destruct Hin' as [->|Hin']; [|contradiction].
    apply dict_get_set_same.
  - apply dict_get_set_other. intros ->. apply Hnin'. now left.
Qed.

(** X5.  With an empty list of dimensions the harness returns at once: the
    world is unchanged (no array allocated, no number drawn), and the table
    maps every method to an empty dict and holds no other key. *)
Theorem harness_without_dimensions methods alpha n_trial w0 :
  exists results,
    PIs_vs_dimensions methods alpha n_trial [] w0 = Ok (results, w0) /\
    (forall m, In m methods -> dict_get results m = Some []) /\
    (forall m, ~ In m methods -> dict_get results m = None).
Proof.
  exists (fold_left (fun a m => dict_set m [] a) methods []).
  split; [|split].
  - unfold PIs_vs_dimensions, bind.
    rewrite outer_dict_no_dimensions. reflexivity.
  - intros m Hm. rewrite fold_dict_set_get.
    destruct (in_dec string_dec m methods); [reflexivity|contradiction].
  - intros m Hm. rewrite fold_dict_set_get.
    destruct (in_dec string_dec m methods); [contradiction|reflexivity].
Qed.

(** X6.  With an empty list of methods the harness still runs every trial:
    it returns the empty table and leaves the store alone, but the generator
    has advanced by all the draws of all the trials. *)
Theorem harness_without_methods alpha n_trial dimensions w0 :
  exists w',
    PIs_vs_dimensions [] alpha n_trial dimensions w0 = Ok ([], w') /\
    rng w' = snd (draws (total_draws n_trial dimensions) (rng w0)) /\
    heap w' = heap w0 /\ drawn w' = drawn w0 /\ wlog w' = wlog w0.
Proof.
  assert (Hloops : exists w',
             for_each dimensions (fun d =>
               for_each (seq 0 n_trial) (fun t =>
                 trial_body [] [] alpha d t)) w0 = Ok (tt, w') /\
             (heap w' = heap w0 /\ drawn w' = drawn w0 /\ wlog w' = wlog w0)).
  { apply (for_each_total
             (fun u => heap u = heap w0 /\ drawn u = drawn w0 /\ wlog u = wlog w0));
      [|auto].
    intros d u _ Hu.
    apply (for_each_total
             (fun u => heap u = heap w0 /\ drawn u = drawn w0 /\ wlog u = wlog w0));
      [|exact Hu].
    intros t v _ Hv.
    destruct (draw_trial_data_total d v) as (data & g & Hdata & _).
    exists (set_rng v g). split; [|exact Hv].
    unfold trial_body, bind. rewrite Hdata. reflexivity. }
  destruct Hloops as (w' & Hrun & Hh & Hd & Hl).
  assert (Hall : PIs_vs_dimensions [] alpha n_trial dimensions w0 = Ok ([], w')).
  { unfold PIs_vs_dimensions. cbn [outer_dict]. unfold bind at 1, ret at 1.
    unfold bind. rewrite Hrun. reflexivity. }
  exists w'. split; [exact Hall|].
  split; [exact (harness_rng _ _ _ _ _ _ _ Hall)|]. auto.
Qed.

End EmptyInputs.

(** ** The targets of a trial *)

Section Targets.

Context {RS : RandomSource}.

Lemma draw_rows_finite (rows cols : nat) (g : G) :
  Forall (fun row => exists rs, row = map Some rs)
         (fst (draw_rows rows cols g)).
Proof.
  revert g. induction rows as [|r IH]; intros g; simpl; [constructor|].
  destruct (draws cols g) as [row g1] eqn:Hrow.
  specialize (IH g1). destruct (draw_rows r cols g1) as [rest g2].
  simpl in *. constructor; [|exact IH].
  destruct (draws_finite cols g) as (rs & Hrs & _).
  rewrite Hrow in Hrs. simpl in Hrs. eauto.
Qed.

Lemma inner_finite (xs bs : list R) :
  exists v, inner (map Some xs) (map Some bs) = Some v.
Proof.
  unfold inner.
  assert (H : map (fun p => fmul (fst p) (snd p))
                  (combine (map Some xs) (map Some bs))
              = map Some (map (fun p => fst p * snd p) (combine xs bs))).
  { revert bs. induction xs as [|x xs IH]; intros [|b bs]; simpl;
      try reflexivity. now rewrite IH. }
  eexists. etransitivity; [exact (f_equal sum H) | apply sum_finite].
Qed.

Lemma sum_with_None (xs : list float) : In None xs -> sum xs = None.
Proof.
  intros Hin. apply sum_not_finite.
  induction xs as [|x xs IH]; [contradiction|].
  destruct Hin as [->|Hin]; [reflexivity|].
  destruct x; simpl; [|reflexivity]. now rewrite (IH Hin).
Qed.

Lemma inner_not_a_number (row bs : list float) :
  row <> [] -> bs <> [] -> (forall b, In b bs -> b = None) ->
  inner row bs = None.
Proof.
  intros Hr Hb Hall. unfold inner. apply sum_with_None.
  destruct row as [|x row]; [contradiction|].
  destruct bs as [|b bs]; [contradiction|].
  simpl. left. rewrite (Hall b) by (left; reflexivity).
  destruct x; reflexivity.
Qed.

Lemma vadd_In (xs ys : list float) (y : float) :
  In y (vadd xs ys) -> exists a b, In a xs /\ In b ys /\ y = fadd a b.
Proof.
  unfold vadd. intros Hin. apply in_map_iff in Hin.
  destruct Hin as ([a b] & <- & Hab).
  exists a, b. split; [eapply in_combine_l; eauto|].
  split; [eapply in_combine_r; eauto | reflexivity].
Qed.

Lemma draws_In_finite (k : nat) (g : G) (x : float) :
  In x (fst (draws k g)) -> exists r, x = Some r.
Proof.
  destruct (draws_finite k g) as (rs & -> & _).
  intros Hin. apply in_map_iff in Hin. destruct Hin as (r & <- & _). eauto.
Qed.

End Targets.

Section TargetsOfTrial.

Context {RS : RandomSource} {E : Estimator}.

(** X7.  The targets of a trial of dimension at least one (lines 86-94) are
    100 training and 100 test values.  They are all numbers when the drawn
    coefficient vector is not the zero vector, and all not-a-number when it
    is: the division by the zero norm spoils every target, and nothing is
    raised. *)
Theorem targets_of_a_trial (d : nat) (w : world) (data : trial_data) (w1 : world) :
  (1 <= d)%nat ->
  draw_trial_data d w = Ok (data, w1) ->
  length (y_train data) = 100%nat /\ length (y_test data) = 100%nat /\
  ((exists x, In (Some x) (fst (draws d (rng w))) /\ x <> 0) ->
     forall y, In y (y_train data) \/ In y (y_test data) -> y <> None) /\
  ((forall x, In (Some x) (fst (draws d (rng w))) -> x = 0) ->
     forall y, In y (y_train data) \/ In y (y_test data) -> y = None).
Proof.
  intros Hd Hrun.
  destruct (draw_trial_data_run d w)
    as (beta0 & g1 & Xtr & g2 & ntr & g3 & nte & g4 & Xte & g5 &
        Hb & HXtr & Hntr & Hnte & HXte & Hdata &
        Hlb & HlXtr & HrXtr & Hlntr & Hlnte & HlXte & HrXte).
  rewrite Hrun in Hdata. inversion Hdata; subst data. clear Hdata. cbn [y_train y_test].
  rewrite Hb. cbn [fst].
  assert (Hfin_tr : Forall (fun row => exists rs, row = map Some rs) Xtr).
  { pose proof (draw_rows_finite n_train d g1) as H. now rewrite HXtr in H. }
  assert (Hfin_te : Forall (fun row => exists rs, row = map Some rs) Xte).
  { pose proof (draw_rows_finite n_test d g4) as H. now rewrite HXte in H. }
  assert (Hntr_fin : forall x, In x ntr -> exists r, x = Some r).
  { intros x Hx. apply (draws_In_finite n_train g2). now rewrite Hntr. }
  assert (Hnte_fin : forall x, In x nte -> exists r, x = Some r).
  { intros x Hx. apply (draws_In_finite n_test g3). now rewrite Hnte. }
  destruct (draws_finite d (rng w)) as (rs & Hrs & Hlrs).
  rewrite Hb in Hrs. cbn [fst] in Hrs. subst beta0.
  split; [|split; [|split]].
  - rewrite vadd_length; [exact Hlntr|]. rewrite dot_length. congruence.
  - rewrite vadd_length; [exact Hlnte|]. rewrite dot_length. congruence.
  - intros Hnz y Hy.
    assert (Hnz' : exists r, In r rs /\ r <> 0).
    { destruct Hnz as (x & Hx & Hne). apply in_map_iff in Hx.
      destruct Hx as (r & Heq & Hr). inversion Heq; subst. eauto. }
    rewrite (normalize_nonzero rs Hnz') in Hy.
    assert (Hdot : forall X a,
               Forall (fun row => exists xs, row = map Some xs) X ->
               In a (dot X (map Some
                              (map (fun r => r / euclidean_norm rs * sqrt 10) rs))) ->
               exists v, a = Some v).
    { intros X a HX Ha. unfold dot in Ha. apply in_map_iff in Ha.
      destruct Ha as (row & <- & Hrow).
      rewrite Forall_forall in HX. destruct (HX row Hrow) as (xs & ->).
      apply inner_finite. }
    destruct Hy as [Hy|Hy]; apply vadd_In in Hy;
      destruct Hy as (a & b & Ha & Hbn & ->).
    + destruct (Hdot Xtr a Hfin_tr Ha) as (v & ->).
      destruct (Hntr_fin b Hbn) as (r & ->). discriminate.
    + destruct (Hdot Xte a Hfin_te Ha) as (v & ->).
      destruct (Hnte_fin b Hbn) as (r & ->). discriminate.
  - intros Hz y Hy.
    assert (Hz' : forall r, In r rs -> r = 0).
    { intros r Hr. apply Hz. now apply in_map. }
    destruct (normalize_zero rs Hz') as (_ & Hdiv).
    assert (Hbeta : forall b, In b (normalize (map Some rs)) -> b = None).
    { intros b Hbin. unfold normalize in Hbin. apply in_map_iff in Hbin.
      destruct Hbin as (b0 & <- & Hb0). now rewrite (Hdiv b0 Hb0). }
    assert (Hne : normalize (map Some rs) <> []).
    { unfold normalize. destruct rs; [simpl in Hlrs; lia | discriminate]. }
    assert (Hdot : forall X a,
               Forall (fun row => length row = d) X ->
               In a (dot X (normalize (map Some rs))) -> a = None).
    { intros X a HX Ha. unfold dot in Ha. apply in_map_iff in Ha.
      destruct Ha as (row & <- & Hrow).
      rewrite Forall_forall in HX. specialize (HX row Hrow).
      apply inner_not_a_number; [|exact Hne|exact Hbeta].
      intros ->. simpl in HX. lia. }
    destruct Hy as [Hy|Hy]; apply vadd_In in Hy;
      destruct Hy as (a & b & Ha & _ & ->).
    + now rewrite (Hdot Xtr a HrXtr Ha).
    + now rewrite (Hdot Xte a HrXte Ha).
Qed.

(** X8.  In dimension 0 nothing is divided: the coefficient vector is empty,
    the design matrices have 100 empty rows, and the targets are the noise
    itself, all numbers. *)
Theorem targets_in_dimension_zero (w : world) :
  exists data w1,
    draw_trial_data 0 w = Ok (data, w1) /\
    beta data = [] /\
    X_train data = repeat [] 100 /\ X_test data = repeat [] 100 /\
    y_train data = noise_train data /\ y_test data = noise_test data /\
    forall y, In y (y_train data) \/ In y (y_test data) -> y <> None.
Proof.
  assert (Hrows : forall r g, draw_rows r 0 g = (repeat [] r, g)).
  { induction r as [|r IH]; intros g; simpl; [reflexivity|]. now rewrite IH. }
  assert (Hdot : forall r, dot (repeat [] r) (normalize []) = repeat (Some 0) r).
  { induction r as [|r IH]; simpl; [reflexivity|]. f_equal. exact IH. }
  assert (Hadd : forall rs, vadd (repeat (Some 0) (length rs)) (map Some rs)
                            = map Some rs).
  { induction rs as [|r rs IH]; simpl; [reflexivity|].
    unfold vadd in *. simpl. rewrite IH. do 2 f_equal. lra. }
  destruct (draw_trial_data_run 0 w)
    as (beta0 & g1 & Xtr & g2 & ntr & g3 & nte & g4 & Xte & g5 &
        Hb & HXtr & Hntr & Hnte & HXte & Hdata & _ & _ & _ & Hlntr & Hlnte & _).
  simpl in Hb. inversion Hb; subst beta0 g1. clear Hb.
  rewrite Hrows in HXtr. inversion HXtr; subst Xtr g2. clear HXtr.
  rewrite Hrows in HXte. inversion HXte; subst Xte g5. clear HXte.
  destruct (draws_finite n_train (rng w)) as (rs1 & Hrs1 & Hl1).
  rewrite Hntr in Hrs1. cbn [fst] in Hrs1. subst ntr.
  destruct (draws_finite n_test g3) as (rs2 & Hrs2 & Hl2).
  rewrite Hnte in Hrs2. cbn [fst] in Hrs2. subst nte.
  assert (Htr : vadd (dot (repeat [] n_train) (normalize [])) (map Some rs1)
                = map Some rs1).
  { rewrite Hdot. rewrite <- Hl1 at 1. apply Hadd. }
  assert (Hte : vadd (dot (repeat [] n_test) (normalize [])) (map Some rs2)
                = map Some rs2).
  { rewrite Hdot. rewrite <- Hl2 at 1. apply Hadd. }
  eexists. eexists. split; [exact Hdata|].
  cbn [beta X_train X_test y_train y_test noise_train noise_test].
  split; [reflexivity|]. split; [reflexivity|]. split; [reflexivity|].
  split; [exact Htr|]. split; [exact Hte|].
  intros y Hy.
  assert (Hy' : In y (map Some rs1) \/ In y (map Some rs2)).
  { destruct Hy as [Hy|Hy].
    - left. exact (eq_ind _ (fun l => In y l) Hy _ Htr).
    - right. exact (eq_ind _ (fun l => In y l) Hy _ Hte). }
  destruct Hy' as [Hy'|Hy']; apply in_map_iff in Hy';
    destruct Hy' as (r & <- & _); discriminate.
Qed.

(** X9.  A target that is not a number is counted as not covered (lines
    107-110): when all targets are not-a-number, the coverage is 0 whatever
    the predicted intervals are. *)
Theorem coverage_of_missing_targets (y_preds : list pred_row) (y_test : list float) :
  length y_preds = length y_test -> y_test <> [] ->
  (forall y, In y y_test -> y = None) ->
  coverage_of y_preds y_test = Ok (Some 0).
Proof.
  intros Hl Hne Hall.
  rewrite (coverage_of_value y_preds y_test Hl Hne).
  assert (Hcov : covered y_preds y_test = 0%nat).
  { unfold covered. clear Hl Hne.
    revert y_test Hall. induction y_preds as [|p ps IH]; intros [|y ys] Hall;
      simpl; try reflexivity.
    rewrite (Hall y) by (left; reflexivity).
    destruct (snd (fst p)); simpl; apply IH; intros z Hz; apply Hall; now right. }
  rewrite Hcov. do 2 f_equal. simpl. unfold Rdiv. apply Rmult_0_l.
Qed.

End TargetsOfTrial.

Lemma targets_of_a_trial_witness :
  let E := constant_estimator (Some 0, Some 0, Some 1) in
  exists data w1,
    @draw_trial_data counting E 1 (@start counting 1%Z) = Ok (data, w1) /\
    length (y_train data) = 100%nat /\ length (y_test data) = 100%nat /\
    ((exists x, In (Some x) (fst (@draws counting 1 (rng (@start counting 1%Z))))
                /\ x <> 0) ->
       forall y, In y (y_train data) \/ In y (y_test data) -> y <> None) /\
    ((forall x, In (Some x) (fst (@draws counting 1 (rng (@start counting 1%Z))))
                -> x = 0) ->
       forall y, In y (y_train data) \/ In y (y_test data) -> y = None).
Proof.
  intros E.
  destruct (@draw_trial_data_total counting E 1 (@start counting 1%Z))
    as (data & g & Hdata & _).
  exists data, (set_rng (@start counting 1%Z) g). split; [exact Hdata|].
  apply (@targets_of_a_trial counting E 1 (@start counting 1%Z) data
           (set_rng (@start counting 1%Z) g)); [lia | exact Hdata].
Defined.

Lemma coverage_of_missing_targets_witness :
  @coverage_of (constant_estimator (Some 0, Some 0, Some 1))
    [(Some 0, Some 0, Some 1)] [None] = Ok (Some 0).
Proof.
  apply (@coverage_of_missing_targets (constant_estimator (Some 0, Some 0, Some 1))
           [(Some 0, Some 0, Some 1)] [None]).
  - reflexivity.
  - discriminate.
  - intros y [<-|[]]. reflexivity.
Defined.

(** ** Wider intervals cover more *)

Section CoverageMonotone.

Context {RS : RandomSource} {E : Estimator}.

Lemma inside_wider (r r' : pred_row) (y : float) :
  wider r r' ->
  fle (snd (fst r)) y && fle y (snd r) = true ->
  fle (snd (fst r')) y && fle y (snd r') = true.
Proof.
  intros Hw Hin. apply andb_prop in Hin. destruct Hin as [H1 H2].
  destruct (snd (fst r)) as [l|] eqn:Hl; [|discriminate].
  destruct y as [v|]; [|discriminate].
  destruct (snd r) as [u|] eqn:Hu; [|discriminate].
  destruct (Hw l u Hl Hu) as (l' & u' & -> & -> & Hll & Huu).
  apply fle_le in H1, H2.
  apply andb_true_intro. split; apply fle_le; lra.
Qed.

Lemma covered_wider (y_preds y_preds' : list pred_row) :
  Forall2 wider y_preds y_preds' ->
  forall y_test, (covered y_preds y_test <= covered y_preds' y_test)%nat.
Proof.
  unfold covered.
  induction 1 as [|r r' rs rs' Hw _ IH]; intros [|y ys]; simpl; try lia.
  specialize (IH ys).
  destruct (fle (snd (fst r)) y && fle y (snd r)) eqn:Hin.
  - rewrite (inside_wider r r' y Hw Hin). simpl. lia.
  - destruct (fle (snd (fst r')) y && fle y (snd r')); simpl; lia.
Qed.

(** X11.  The coverage of lines 107-110 is monotone in the intervals: with
    one predicted row per test point and bounds that are numbers,
    predictions whose intervals contain those of other predictions have a
    coverage that is at least theirs. *)
Theorem coverage_monotone (y_preds y_preds' : list pred_row)
    (y_test : list float) :
  length y_preds = length y_test -> y_test <> [] ->
  Forall finite_bounds y_preds ->
  Forall2 wider y_preds y_preds' ->
  Forall finite_bounds y_preds' /\
  exists c c',
    coverage_of y_preds y_test = Ok (Some c) /\
    coverage_of y_preds' y_test = Ok (Some c') /\
    c <= c'.
Proof.
  intros Hl Hne Hfin Hw.
  split.
  { clear Hl Hne. induction Hw as [|r r' rs rs' Hr _ IH]; [constructor|].
    inversion Hfin as [|? ? (l & u & Hlo & Hup) Hrest]; subst.
    destruct (Hr l u Hlo Hup) as (l' & u' & Hl' & Hu' & _).
    constructor; [exists l', u'; auto | apply IH; exact Hrest]. }
  assert (Hl' : length y_preds' = length y_test).
  { rewrite <- Hl. symmetry. exact (Forall2_length Hw). }
  rewrite (coverage_of_value y_preds y_test Hl Hne).
  rewrite (coverage_of_value y_preds' y_test Hl' Hne).
  do 2 eexists. split; [reflexivity|]. split; [reflexivity|].
  assert (Hpos : 0 < INR (length y_test)).
  { apply lt_0_INR. destruct y_test; [contradiction | simpl; lia]. }
  unfold Rdiv. apply Rmult_le_compat_r.
  - left. now apply Rinv_0_lt_compat.
  - apply le_INR. now apply covered_wider.
Qed.

End CoverageMonotone.

Lemma coverage_monotone_witness :
  let E := constant_estimator (Some 0, Some 0, Some 1) in
  Forall finite_bounds [(Some 0, Some (-1), Some 2)] /\
  exists c c',
    @coverage_of E [(Some 0, Some 0, Some 1)] [Some (1 / 2)] = Ok (Some c) /\
    @coverage_of E [(Some 0, Some (-1), Some 2)] [Some (1 / 2)] = Ok (Some c') /\
    c <= c'.
Proof.
  intros E.
  apply (@coverage_monotone E [(Some 0, Some 0, Some 1)]
           [(Some 0, Some (-1), Some 2)] [Some (1 / 2)]).
  - reflexivity.
  - discriminate.
  - constructor; [|constructor]. exists 0, 1. split; reflexivity.
  - constructor; [|constructor].
    intros l u Hl Hu. simpl in Hl, Hu. inversion Hl. inversion Hu. subst.
    exists (-1), 2. simpl. repeat split; lra.
Defined.

(** ** What the plotting step draws *)

Section PlotFollowsTable.

Context {RS : RandomSource} {E : Estimator}.

Lemma method_panels_length ntrial (results : table) h (ms : list string) :
  (forall m, In m ms -> In m (keys results)) ->
  length (flat_map (method_panels ntrial results h) ms) = (4 * length ms)%nat.
Proof.
  induction ms as [|m ms IH]; intros Hin; [reflexivity|].
  cbn [flat_map]. rewrite length_app, IH by (intros k Hk; apply Hin; now right).
  destruct (proj1 (dict_get_keys results m) (Hin m (or_introl eq_refl)))
    as [r Hr].
  unfold method_panels. rewrite Hr. simpl. lia.
Qed.

Lemma panels_plot_inv ntrial alpha (results : table) title h ax x y label :
  In (Plot ax x y label) (panels ntrial alpha results title h) ->
  exists r,
    In label (keys results) /\ dict_get results label = Some r /\ x = keys r /\
    ((ax = 1%nat /\ y = map (stat mean Cell.coverage h r) (keys r)) \/
     (ax = 2%nat /\ y = map (stat mean Cell.width_mean h r) (keys r))).
Proof.
  unfold panels. intros Hin.
  apply in_app_or in Hin. destruct Hin as [Hin|Hin].
  { simpl in Hin. repeat (destruct Hin as [Hin|Hin]; [discriminate|]).
    contradiction. }
  apply in_app_or in Hin. destruct Hin as [Hin|Hin].
  2:{ simpl in Hin. repeat (destruct Hin as [Hin|Hin]; [discriminate|]).
      contradiction. }
  apply in_flat_map in Hin. destruct Hin as (m & Hm & Hin).
  unfold method_panels in Hin.
  destruct (dict_get results m) as [r|] eqn:Hr; [|contradiction].
  simpl in Hin.
  destruct Hin as [Hin|[Hin|[Hin|[Hin|[]]]]]; try discriminate;
    inversion Hin; subst; exists r;
    (split; [exact Hm|]; split; [exact Hr|]; split; [reflexivity|]);
    first [left; split; reflexivity | right; split; reflexivity].
Qed.

(** X12.  The plotting step draws the methods of the table, not those of its
    parameter [methods], which the body never reads (lines 139-157): on a
    table whose references are in the store it returns, having sent twelve
    commands and four more for every key of the table; every key of the
    table gets its two curves, and no curve is drawn under any other
    label. *)
Theorem plot_follows_the_table ntrial alpha (results : table) methods title
    (w : world) :
  (forall a, In a (table_refs results) -> (a < length (heap w))%nat) ->
  exists w',
    plot_simulation_results ntrial alpha results methods title w = Ok (tt, w') /\
    length (drawn w') = (length (drawn w) + 12 + 4 * length (keys results))%nat /\
    (forall m, In m (keys results) ->
       exists x y1 y2, In (Plot 1 x y1 m) (drawn w') /\
                       In (Plot 2 x y2 m) (drawn w')) /\
    (forall ax x y m, In (Plot ax x y m) (drawn w') ->
       In (Plot ax x y m) (drawn w) \/ In m (keys results)).
Proof.
  intros Hvalid.
  destruct (plot_run ntrial alpha results methods title (heap w) w [] Hvalid)
    as (w' & extra & Hrun & _ & _ & Hdrawn); [now rewrite app_nil_r|].
  exists w'. split; [exact Hrun|]. rewrite Hdrawn.
  split; [|split].
  - rewrite length_app. unfold panels. rewrite !length_app.
    rewrite method_panels_length by auto. simpl. lia.
  - intros m Hm.
    destruct (proj1 (dict_get_keys results m) Hm) as [r Hr].
    exists (keys r), (map (stat mean Cell.coverage (heap w) r) (keys r)),
      (map (stat mean Cell.width_mean (heap w) r) (keys r)).
    assert (Hin : forall c, In c (method_panels ntrial results (heap w) m) ->
                            In c (drawn w ++ panels ntrial alpha results title (heap w))).
    { intros c Hc. apply in_or_app. right. unfold panels.
      apply in_or_app. right. apply in_or_app. left.
      apply in_flat_map. exists m. auto. }
    split; apply Hin; unfold method_panels; rewrite Hr; simpl; auto.
  - intros ax x y m Hin. apply in_app_or in Hin.
    destruct Hin as [Hin|Hin]; [now left|]. right.
    destruct (panels_plot_inv _ _ _ _ _ _ _ _ _ Hin) as (r & Hm & _). exact Hm.
Qed.

End PlotFollowsTable.

Lemma plot_follows_the_table_witness :
  let E := constant_estimator (Some 0, Some 0, Some 1) in
  let results : table :=
    [("naive"%string, [(5%nat, {| Cell.coverage := 0; Cell.width_mean := 1 |})])] in
  let w : @world counting :=
    @Build_world counting 1%Z [[Some (9 / 10)]; [Some 4]] [] [] (fun _ _ => None) in
  exists w',
    @plot_simulation_results counting E 1 (Some (1 / 10)) results
      ["cv"%string] "Coverages and interval widths" w = Ok (tt, w') /\
    length (drawn w') = (length (drawn w) + 12 + 4 * length (keys results))%nat /\
    (forall m, In m (keys results) ->
       exists x y1 y2, In (Plot 1 x y1 m) (drawn w') /\
                       In (Plot 2 x y2 m) (drawn w')) /\
    (forall ax x y m, In (Plot ax x y m) (drawn w') ->
       In (Plot ax x y m) (drawn w) \/ In m (keys results)).
Proof.
  intros E results w.
  apply (@plot_follows_the_table counting E 1 (Some (1 / 10)) results
           ["cv"%string] "Coverages and interval widths"%string w).
  intros a Ha. simpl in Ha. simpl. lia.
Defined.

(** ** The coverage curves *)

Section CoverageCurves.

Context {RS : RandomSource} {E : Estimator}.

Lemma finite_array (P : R -> Prop) (arr : list float) :
  (forall t, (t < length arr)%nat ->
             exists v, nth_error arr t = Some (Some v) /\ P v) ->
  exists vs, arr = map Some vs /\ Forall P vs.
Proof.
  induction arr as [|a arr IH]; intros H.
  - exists []. split; [reflexivity | constructor].
  - destruct (H 0%nat) as (v & Hv & HP); [simpl; lia|].
    simpl in Hv. inversion Hv; subst a.
    destruct IH as (vs & -> & Hvs).
    { intros t Ht. apply (H (S t)). simpl. lia. }
    exists (v :: vs). split; [reflexivity | now constructor].
Qed.

Lemma mean_in_range (vs : list R) :
  vs <> [] -> Forall (fun v => 0 <= v <= 1) vs ->
  0 <= arithmetic_mean vs <= 1.
Proof.
  intros Hne Hall. unfold arithmetic_mean.
  assert (Hsum : 0 <= Rsum vs <= INR (length vs)).
  { clear Hne. induction Hall as [|v vs Hv _ IH].
    - simpl. lra.
    - cbn [Rsum fold_right]. fold (Rsum vs). rewrite length_cons, S_INR. lra. }
  assert (Hpos : 0 < INR (length vs)).
  { apply lt_0_INR. destruct vs; [contradiction | simpl; lia]. }
  split.
  - apply Rmult_le_reg_r with (INR (length vs)); [exact Hpos|].
    unfold Rdiv. rewrite Rmult_assoc, Rinv_l by lra. lra.
  - apply Rmult_le_reg_r with (INR (length vs)); [exact Hpos|].
    unfold Rdiv. rewrite Rmult_assoc, Rinv_l by lra. lra.
Qed.

(** When the harness returns, every coverage array of the table holds
    [n_trial] fractions. *)
Lemma harness_coverage_values methods alpha n dimensions w0 results w' :
  PIs_vs_dimensions methods alpha n dimensions w0 = Ok (results, w') ->
  forall m d c, lookup results m d = Some c ->
    exists vs, nth_error (heap w') (Cell.coverage c) = Some (map Some vs) /\
               length vs = n /\ Forall (fun v => 0 <= v <= 1) vs.
Proof.
  intros Hrun m d c Hc.
  destruct (harness_writes _ _ _ _ _ _ _ Hrun) as (_ & [_ Hrefs] & _).
  destruct (Hrefs (Cell.coverage c)) as [_ Hn].
  { eapply lookup_refs; [exact Hc | simpl; auto]. }
  apply shape_nth in Hn. destruct Hn as (arr & Harr & Hlen).
  destruct (finite_array (fun v => 0 <= v <= 1) arr) as (vs & -> & Hvs).
  { intros t Ht. rewrite Hlen in Ht.
    destruct (harness_cells
                (fun _ _ cov _ => exists v, cov = Some v /\ 0 <= v <= 1)
                methods alpha n dimensions w0 results w')
      with (m := m) (d := d) (c := c) (t := t)
      as (cov & wid & Rc & _ & (v & -> & Hv)); auto.
    - intros m1 d1 w data w1 cov wid _ _ Hdata Hev.
      destruct (draw_trial_data_total d1 w) as [data' [g [Hdata' [Hy _]]]].
      rewrite Hdata in Hdata'. inversion Hdata'; subst data'.
      destruct (evaluate_inv alpha data m1 cov wid Hev)
        as (ft & yp & _ & Hp & Hcov & _).
      eapply coverage_of_range; eauto.
    - exists v. split; [|exact Hv].
      unfold read in Rc. now rewrite Harr in Rc. }
  exists vs. split; [exact Harr|]. split; [|exact Hvs].
  now rewrite length_map in Hlen.
Qed.

(** X13.  On a table that the harness returned, for at least one trial,
    [plot_simulation_results] returns, and the coverage curves it draws stay
    inside the limits [0, 1] that it sets for their axis (lines 146-150,
    159): every curve of the first axis that was not there before the call
    has one point per dimension, each a number between 0 and 1. *)
Theorem coverage_curves_in_range methods alpha n_trial dimensions w0 results w'
    ntrial alpha' methods' title :
  (1 <= n_trial)%nat ->
  PIs_vs_dimensions methods alpha n_trial dimensions w0 = Ok (results, w') ->
  exists w'',
    plot_simulation_results ntrial alpha' results methods' title w'
    = Ok (tt, w'') /\
    forall x y label,
      In (Plot 1 x y label) (drawn w'') ->
      In (Plot 1 x y label) (drawn w') \/
      (length y = length x /\
       forall v, In v y -> exists r, v = Some r /\ 0 <= r <= 1).
Proof.
  intros Hn Hrun.
  destruct (plot_run ntrial alpha' results methods' title (heap w') w' [])
    as (w'' & extra & Hplot & _ & _ & Hdrawn).
  { exact (harness_table_valid _ _ _ _ _ _ _ Hrun). }
  { now rewrite app_nil_r. }
  exists w''. split; [exact Hplot|].
  intros x y label Hin. rewrite Hdrawn in Hin.
  apply in_app_or in Hin. destruct Hin as [Hin|Hin]; [now left|]. right.
  destruct (panels_plot_inv _ _ _ _ _ _ _ _ _ Hin)
    as (r & _ & Hr & -> & [[_ ->]|[Hax _]]); [|discriminate].
  split; [apply length_map|].
  intros v Hv. apply in_map_iff in Hv. destruct Hv as (d & <- & Hd).
  destruct (proj1 (dict_get_keys r d) Hd) as [c Hc].
  assert (Hlk : lookup results label d = Some c).
  { unfold lookup. now rewrite Hr. }
  destruct (harness_coverage_values _ _ _ _ _ _ _ Hrun label d c Hlk)
    as (vs & Harr & Hlen & Hvs).
  unfold stat. rewrite Hc, Harr.
  assert (Hne : vs <> []).
  { intros ->. simpl in Hlen. lia. }
  rewrite (mean_finite vs Hne).
  exists (arithmetic_mean vs). split; [reflexivity|].
  now apply mean_in_range.
Qed.

End CoverageCurves.

Lemma coverage_curves_in_range_witness :
  let E := constant_estimator (Some 0, Some 0, Some 1) in
  exists results w' w'',
    @PIs_vs_dimensions counting E
      ["naive"%string] (Some (1 / 10)) 1 [5%nat] (@start counting 1%Z)
    = Ok (results, w') /\
    @plot_simulation_results counting E 1 (Some (1 / 10)) results
      ["naive"%string] "Coverages and interval widths" w' = Ok (tt, w'') /\
    forall x y label,
      In (Plot 1 x y label) (drawn w'') ->
      In (Plot 1 x y label) (drawn w') \/
      (length y = length x /\
       forall v, In v y -> exists r, v = Some r /\ 0 <= r <= 1).
Proof.
  intros E.
  destruct (example_run (@start counting 1%Z)) as (results & w' & c & Hrun & Hc).
  destruct (@coverage_curves_in_range counting E
              ["naive"%string] (Some (1 / 10)) 1%nat [5%nat] (@start counting 1%Z)
              results w' 1%nat (Some (1 / 10)) ["naive"%string]
              "Coverages and interval widths"%string)
    as (w'' & Hplot & Hcurves); [lia | exact Hrun |].
  exists results, w', w''. auto.
Defined.

(** ** Methods do not interfere *)

Section TrialSummary.

Context {RS : RandomSource} {E : Estimator}.

Variables (results : table) (methods : list string) (alpha : float).
Variables (n base : nat) (dimensions : list nat) (sh : list nat).

Hypothesis Hwf : table_wf n base results sh.
Hypothesis Hlook : forall m d, In m methods -> In d dimensions ->
                               exists c, lookup results m d = Some c.

(** What a trial leaves in the table: the metrics of every method of the
    list on the data of the trial, at the index of the trial; the other
    indices and the arrays of the other dimensions are as before. *)
Lemma trial_body_summary d t w w' :
  In d dimensions -> (t < n)%nat -> shape (heap w) = sh ->
  trial_body results methods alpha d t w = Ok (tt, w') ->
  exists data g,
    draw_trial_data d w = Ok (data, set_rng w g) /\ rng w' = g /\
    shape (heap w') = sh /\
    (forall m, In m methods ->
       exists c cov wid,
         lookup results m d = Some c /\
         evaluate alpha data m = Ok (cov, wid) /\
         read (heap w') (Cell.coverage c) t = Some cov /\
         read (heap w') (Cell.width_mean c) t = Some wid) /\
    (forall m' d' k t',
       lookup results m' d' = Some k -> (d', t') <> (d, t) ->
       read (heap w') (Cell.coverage k) t' = read (heap w) (Cell.coverage k) t' /\
       read (heap w') (Cell.width_mean k) t' = read (heap w) (Cell.width_mean k) t').
Proof.
  intros Hd Ht Hsh Hrun. unfold trial_body in Hrun.
  apply bind_ok in Hrun as [data [w1 [Hdata Hloop]]].
  destruct (draw_trial_data_total d w) as [data' [g [Hdata' _]]].
  rewrite Hdata in Hdata'. inversion Hdata'; subst data' w1. clear Hdata'.
  exists data, g. split; [assumption|].
  destruct (for_each_post
    (fun u => shape (heap u) = sh /\ rng u = g /\
              forall m' d' k t',
                lookup results m' d' = Some k -> (d', t') <> (d, t) ->
                read (heap u) (Cell.coverage k) t'
                = read (heap w) (Cell.coverage k) t' /\
                read (heap u) (Cell.width_mean k) t'
                = read (heap w) (Cell.width_mean k) t')
    (fun m u => exists c cov wid,
                  lookup results m d = Some c /\
                  evaluate alpha data m = Ok (cov, wid) /\
                  read (heap u) (Cell.coverage c) t = Some cov /\
                  read (heap u) (Cell.width_mean c) t = Some wid)
    (method_body results alpha d t data) methods)
    with (w := set_rng w g) (w' := w') as [HI Hall]; auto.
  - intros m u u' Hm (Hu & Hr & Hfr) Hb.
    destruct (method_step results methods alpha n base dimensions sh Hwf Hlook
                d t data m u u' Hm Hd Ht Hu Hb)
      as (c & cov & wid & Hc & Hev & Hr' & _ & _ & _ & Hs & Rc & Rw & Hframe).
    destruct Hwf as [Hnd _].
    assert (Hsep : forall y dy cy, lookup results y dy = Some cy ->
                     (y, dy) <> (m, d) ->
                     forall a a', In a (cell_refs cy) -> In a' (cell_refs c) ->
                                  a <> a').
    { intros y dy cy Hcy Hne a a' Ha Ha' ->.
      destruct (lookup_distinct results y dy cy m d c a' Hnd Hcy Hc Ha Ha')
        as (? & ? & _). apply Hne. congruence. }
    split; [|split].
    + split; [exact Hs|]. split; [congruence|].
      intros m' d' k t' Hk Hne.
      destruct (Hfr m' d' k t' Hk Hne) as [F1 F2].
      rewrite <- F1, <- F2.
      assert (Hcase : t' <> t \/ (m', d') <> (m, d)).
      { destruct (Nat.eq_dec t' t) as [->|]; [right|now left].
        intros Heq. apply Hne. congruence. }
      split; apply Hframe; intros Heq;
        pose proof (f_equal fst Heq) as Ha; pose proof (f_equal snd Heq) as Hi;
        cbn [fst snd] in Ha, Hi;
        (destruct Hcase as [Hnt|Hnk]; [contradiction|]);
        (eapply (Hsep m' d' k Hk Hnk); [| |exact Ha]; simpl; auto).
    + exists c, cov, wid. auto.
    + intros y (cy & covy & widy & Hcy & Hevy & Rcy & Rwy).
      exists cy, covy, widy. split; [assumption|]. split; [assumption|].
      destruct (string_dec y m) as [->|Hne].
      * assert (cy = c) by congruence. subst cy.
        assert (covy = cov /\ widy = wid) as [-> ->] by (split; congruence).
        auto.
      * assert (Hnk : (y, d) <> (m, d)) by congruence.
        rewrite !Hframe; [auto | | | |]; intros Heq;
          pose proof (f_equal fst Heq) as Ha; cbn [fst] in Ha;
          (eapply (Hsep y d cy Hcy Hnk); [| |exact Ha]; simpl; auto).
  - destruct HI as (Hs & Hg & Hfr). auto.
Qed.

End TrialSummary.

Section Independence.

Context {RS : RandomSource} {E : Estimator}.

Lemma draw_trial_data_same d (w1 w2 : world) data g :
  rng w1 = rng w2 ->
  draw_trial_data d w1 = Ok (data, set_rng w1 g) ->
  draw_trial_data d w2 = Ok (data, set_rng w2 g).
Proof.
  intros Hg Hrun1.
  destruct (draw_trial_data_run d w1)
    as (b & g1 & Xtr & g2 & ntr & g3 & nte & g4 & Xte & g5 & Hb & Hx & Hn & Hte
        & Hy & Hrun1' & _).
  destruct (draw_trial_data_run d w2)
    as (b' & g1' & Xtr' & g2' & ntr' & g3' & nte' & g4' & Xte' & g5' & Hb' & Hx'
        & Hn' & Hte' & Hy' & Hrun2 & _).
  rewrite <- Hg in Hb'.
  assert (b' = b /\ g1' = g1) as [-> ->] by (split; congruence).
  assert (Xtr' = Xtr /\ g2' = g2) as [-> ->] by (split; congruence).
  assert (ntr' = ntr /\ g3' = g3) as [-> ->] by (split; congruence).
  assert (nte' = nte /\ g4' = g4) as [-> ->] by (split; congruence).
  assert (Xte' = Xte /\ g5' = g5) as [-> ->] by (split; congruence).
  rewrite Hrun1' in Hrun1.
  assert (Hpair : forall (a b : trial_data * world),
             @Ok E _ a = Ok b -> a = b) by (intros a0 b0 H; now inversion H).
  apply Hpair in Hrun1.
  pose proof (f_equal fst Hrun1) as Hdata.
  pose proof (f_equal (fun p => rng (snd p)) Hrun1) as Hrng.
  cbn [fst snd rng set_rng] in Hdata, Hrng.
  rewrite Hrun2, Hdata, Hrng. reflexivity.
Qed.

Lemma for_each_both {A} (R : world -> world -> Prop)
    (b1 b2 : A -> M unit) (xs : list A) :
  (forall x u1 u2 u1' u2', In x xs -> R u1 u2 ->
     b1 x u1 = Ok (tt, u1') -> b2 x u2 = Ok (tt, u2') -> R u1' u2') ->
  forall u1 u2 u1' u2', R u1 u2 ->
    for_each xs b1 u1 = Ok (tt, u1') -> for_each xs b2 u2 = Ok (tt, u2') ->
    R u1' u2'.
Proof.
  induction xs as [|x xs IH]; intros Hb u1 u2 u1' u2' HR H1 H2.
  - simpl in H1, H2. inversion H1; inversion H2; subst. exact HR.
  - cbn [for_each] in H1, H2.
    apply bind_ok in H1 as ([] & v1 & Hx1 & H1).
    apply bind_ok in H2 as ([] & v2 & Hx2 & H2).
    apply (IH (fun y a b a' b' Hy => Hb y a b a' b' (or_intror Hy))
              v1 v2 u1' u2'); [|exact H1|exact H2].
    exact (Hb x u1 u2 v1 v2 (or_introl eq_refl) HR Hx1 Hx2).
Qed.

Variables (r1 r2 : table) (ms1 ms2 : list string) (alpha : float).
Variables (n base1 base2 : nat) (dimensions : list nat) (sh1 sh2 : list nat).
Variable log1 : list (nat * nat).

Hypothesis Hwf1 : table_wf n base1 r1 sh1.
Hypothesis Hwf2 : table_wf n base2 r2 sh2.
Hypothesis Hkeys1 : forall m d, (exists c, lookup r1 m d = Some c) <->
                                In m ms1 /\ In d dimensions.
Hypothesis Hkeys2 : forall m d, (exists c, lookup r2 m d = Some c) <->
                                In m ms2 /\ In d dimensions.

Local Abbreviation agree := (agree r1 r2 sh1 sh2 log1).

Lemma trial_bodies_agree d t u1 u2 u1' u2' :
  In d dimensions -> (t < n)%nat -> agree u1 u2 ->
  trial_body r1 ms1 alpha d t u1 = Ok (tt, u1') ->
  trial_body r2 ms2 alpha d t u2 = Ok (tt, u2') ->
  agree u1' u2'.
Proof.
  intros Hd Ht (Hg & Hs1 & Hs2 & Hcells) Hrun1 Hrun2.
  assert (Hlook1 : forall m d, In m ms1 -> In d dimensions ->
                               exists c, lookup r1 m d = Some c).
  { intros m d0 Hm Hd0. apply Hkeys1. auto. }
  assert (Hlook2 : forall m d, In m ms2 -> In d dimensions ->
                               exists c, lookup r2 m d = Some c).
  { intros m d0 Hm Hd0. apply Hkeys2. auto. }
  destruct (trial_body_summary r1 ms1 alpha n base1 dimensions sh1 Hwf1 Hlook1
              d t u1 u1' Hd Ht Hs1 Hrun1)
    as (data1 & g1 & D1 & G1 & S1 & V1 & F1).
  destruct (trial_body_summary r2 ms2 alpha n base2 dimensions sh2 Hwf2 Hlook2
              d t u2 u2' Hd Ht Hs2 Hrun2)
    as (data2 & g2 & D2 & G2 & S2 & V2 & F2).
  pose proof (draw_trial_data_same d u1 u2 data1 g1 Hg D1) as D2'.
  rewrite D2 in D2'.
  assert (Hpair : forall (a b : trial_data * world),
             @Ok E _ a = Ok b -> a = b) by (intros a0 b0 H; now inversion H).
  apply Hpair in D2'.
  pose proof (f_equal fst D2') as Hdata.
  pose proof (f_equal (fun p => rng (snd p)) D2') as Hrng.
  cbn [fst snd rng set_rng] in Hdata, Hrng. subst data2 g2. clear D2'.
  split; [congruence|]. split; [exact S1|]. split; [exact S2|].
  intros m' d' k1 k2 t' Hk1 Hk2 Hlt.
  destruct (trial_body_count r1 ms1 alpha n base1 dimensions sh1 Hwf1 Hlook1
              m' d' k1 (Cell.coverage k1) t' Hk1 (or_introl eq_refl)
              d t u1 u1' Hd Ht Hs1 Hrun1) as [_ Hcount].
  destruct (Nat.eq_dec t t') as [<-|Hnt];
    [destruct (Nat.eq_dec d d') as [<-|Hnd]|].
  - destruct (proj1 (Hkeys1 m' d) (ex_intro _ k1 Hk1)) as [Hm1 _].
    destruct (proj1 (Hkeys2 m' d) (ex_intro _ k2 Hk2)) as [Hm2 _].
    destruct (V1 m' Hm1) as (c1 & cov1 & wid1 & Hc1 & Hev1 & Rc1 & Rw1).
    destruct (V2 m' Hm2) as (c2 & cov2 & wid2 & Hc2 & Hev2 & Rc2 & Rw2).
    assert (c1 = k1) by congruence. assert (c2 = k2) by congruence.
    subst c1 c2.
    assert (cov2 = cov1 /\ wid2 = wid1) as [-> ->] by (split; congruence).
    split; congruence.
  - assert (Hne : (d', t) <> (d, t)) by congruence.
    destruct (F1 m' d' k1 t Hk1 Hne) as [A1 B1].
    destruct (F2 m' d' k2 t Hk2 Hne) as [A2 B2].
    rewrite A1, B1, A2, B2.
    apply (Hcells m' d' k1 k2 t Hk1 Hk2). lia.
  - assert (Hne : (d', t') <> (d, t)) by congruence.
    destruct (F1 m' d' k1 t' Hk1 Hne) as [A1 B1].
    destruct (F2 m' d' k2 t' Hk2 Hne) as [A2 B2].
    rewrite A1, B1, A2, B2.
    apply (Hcells m' d' k1 k2 t' Hk1 Hk2). lia.
Qed.

Lemma loops_of_two_lists_agree u1 u2 u1' u2' :
  agree u1 u2 ->
  for_each dimensions (fun d =>
    for_each (seq 0 n) (fun t => trial_body r1 ms1 alpha d t)) u1 = Ok (tt, u1') ->
  for_each dimensions (fun d =>
    for_each (seq 0 n) (fun t => trial_body r2 ms2 alpha d t)) u2 = Ok (tt, u2') ->
  agree u1' u2'.
Proof.
  apply (for_each_both agree).
  intros d v1 v2 v1' v2' Hd.
  apply (for_each_both agree).
  intros t x1 x2 x1' x2' Ht. apply in_seq in Ht.
  apply trial_bodies_agree; [exact Hd | lia].
Qed.

End Independence.

Section MethodsDoNotInterfere.

Context {RS : RandomSource} {E : Estimator}.

(** X14.  What the harness records for a method does not depend on the other
    methods of the list.  Two calls that differ in the list of methods only,
    started with the generator in the same state and both returning, leave
    the generator in the same state and hold the same two arrays for every
    method and dimension that both tables have: the data of a trial are
    drawn before the methods are run, and no method draws. *)
Theorem methods_do_not_interfere ms1 ms2 alpha n_trial dimensions
    (w1 w2 : world) r1 r2 w1' w2' :
  rng w1 = rng w2 ->
  PIs_vs_dimensions ms1 alpha n_trial dimensions w1 = Ok (r1, w1') ->
  PIs_vs_dimensions ms2 alpha n_trial dimensions w2 = Ok (r2, w2') ->
  rng w1' = rng w2' /\
  forall m d c1 c2,
    lookup r1 m d = Some c1 -> lookup r2 m d = Some c2 ->
    nth_error (heap w1') (Cell.coverage c1)
    = nth_error (heap w2') (Cell.coverage c2) /\
    nth_error (heap w1') (Cell.width_mean c1)
    = nth_error (heap w2') (Cell.width_mean c2).
Proof.
  intros Hg Hrun1 Hrun2.
  pose proof (harness_writes ms1 alpha n_trial dimensions w1 r1 w1' Hrun1)
    as (_ & _ & Hcount).
  destruct (harness_phases ms1 alpha n_trial dimensions w1)
    as (r1' & u1 & _ & Hwf1 & G1 & _ & L1 & _ & _ & K1 & E1).
  destruct (harness_phases ms2 alpha n_trial dimensions w2)
    as (r2' & u2 & _ & Hwf2 & G2 & _ & L2 & _ & _ & K2 & E2).
  rewrite E1 in Hrun1. rewrite E2 in Hrun2.
  destruct (for_each dimensions _ u1) as [[[] v1]|e1] eqn:Hl1; [|discriminate].
  destruct (for_each dimensions _ u2) as [[[] v2]|e2] eqn:Hl2; [|discriminate].
  inversion Hrun1; subst r1' v1. inversion Hrun2; subst r2' v2.
  clear Hrun1 Hrun2.
  assert (Hinit : agree r1 r2 (shape (heap u1)) (shape (heap u2)) (wlog w1) u1 u2).
  { split; [congruence|]. split; [reflexivity|]. split; [reflexivity|].
    intros m d c1 c2 t _ _ Hlt. rewrite L1 in Hlt. lia. }
  pose proof (loops_of_two_lists_agree r1 r2 ms1 ms2 alpha n_trial
                (length (heap w1)) (length (heap w2)) dimensions
                (shape (heap u1)) (shape (heap u2)) (wlog w1)
                Hwf1 Hwf2 K1 K2 u1 u2 w1' w2' Hinit Hl1 Hl2)
    as (Hrng & S1 & S2 & Hcells).
  split; [exact Hrng|].
  intros m d c1 c2 Hc1 Hc2.
  destruct (proj1 (K1 m d) (ex_intro _ c1 Hc1)) as [Hm Hd].
  assert (Hwritten : forall t, (t < n_trial)%nat ->
            (writes (wlog w1) (Cell.coverage c1) t
             < writes (wlog w1') (Cell.coverage c1) t)%nat).
  { intros t Ht.
    rewrite (Hcount m d c1 (Cell.coverage c1) t Hc1 (or_introl eq_refl) Ht).
    apply (count_occ_In string_dec) in Hm.
    apply (count_occ_In Nat.eq_dec) in Hd. nia. }
  destruct Hwf1 as [_ Hall1]. destruct Hwf2 as [_ Hall2].
  assert (Harr : forall sel : cell -> nat,
            In (sel c1) (cell_refs c1) -> In (sel c2) (cell_refs c2) ->
            (forall t, (t < n_trial)%nat ->
               read (heap w1') (sel c1) t = read (heap w2') (sel c2) t) ->
            nth_error (heap w1') (sel c1) = nth_error (heap w2') (sel c2)).
  { intros sel In1 In2 Hread.
    destruct (Hall1 (sel c1)) as [_ N1]; [eapply lookup_refs; eauto|].
    destruct (Hall2 (sel c2)) as [_ N2]; [eapply lookup_refs; eauto|].
    rewrite <- S1 in N1. rewrite <- S2 in N2.
    apply shape_nth in N1 as (a1 & N1 & Ln1).
    apply shape_nth in N2 as (a2 & N2 & Ln2).
    rewrite N1, N2. f_equal.
    apply (nth_error_ext_length a1 a2 n_trial Ln1 Ln2).
    intros t Ht. specialize (Hread t Ht). unfold read in Hread.
    now rewrite N1, N2 in Hread. }
  split; apply Harr; simpl; auto; intros t Ht;
    apply (Hcells m d c1 c2 t Hc1 Hc2 (Hwritten t Ht)).
Qed.

End MethodsDoNotInterfere.

Lemma methods_do_not_interfere_witness :
  let E := constant_estimator (Some 0, Some 0, Some 1) in
  exists r1 w1' r2 w2',
    @PIs_vs_dimensions counting E ["naive"%string] (Some (1 / 10)) 1 [5%nat]
      (@start counting 1%Z) = Ok (r1, w1') /\
    @PIs_vs_dimensions counting E ["naive"%string; "cv"%string] (Some (1 / 10))
      1 [5%nat] (@start counting 1%Z) = Ok (r2, w2') /\
    rng w1' = rng w2' /\
    forall m d c1 c2,
      lookup r1 m d = Some c1 -> lookup r2 m d = Some c2 ->
      nth_error (heap w1') (Cell.coverage c1)
      = nth_error (heap w2') (Cell.coverage c2) /\
      nth_error (heap w1') (Cell.width_mean c1)
      = nth_error (heap w2') (Cell.width_mean c2).
Proof.
  intros E.
  destruct (@harness_total counting E ["naive"%string] (Some (1 / 10)) 1%nat
              [5%nat] (@start counting 1%Z)) as [r1 [w1' Hrun1]].
  { intros d w data w1 m _ Hdata. eapply constant_estimator_total; eauto. }
  destruct (@harness_total counting E ["naive"%string; "cv"%string]
              (Some (1 / 10)) 1%nat [5%nat] (@start counting 1%Z))
    as [r2 [w2' Hrun2]].
  { intros d w data w1 m _ Hdata. eapply constant_estimator_total; eauto. }
  exists r1, w1', r2, w2'. split; [exact Hrun1|]. split; [exact Hrun2|].
  exact (@methods_do_not_interfere counting E ["naive"%string]
           ["naive"%string; "cv"%string] (Some (1 / 10)) 1%nat [5%nat]
           (@start counting 1%Z) (@start counting 1%Z) r1 r2 w1' w2'
           eq_refl Hrun1 Hrun2).
Defined.

(** * The outcome of a call *)

Section Schedule.

Context {RS : RandomSource} {E : Estimator}.

(** The data a trial draws is that of [trial_data_of]. *)
Lemma trial_data_of_run (d : nat) (w : world) :
  draw_trial_data d w
  = Ok (fst (trial_data_of d (rng w)), set_rng w (snd (trial_data_of d (rng w)))).
Proof.
  destruct (draw_trial_data_run d w)
    as (b & g1 & Xtr & g2 & ntr & g3 & nte & g4 & Xte & g5 & Hb & Hx & Hn & Hte
        & Hy & Hrun & _).
  unfold trial_data_of. rewrite Hb, Hx, Hn, Hte, Hy. exact Hrun.
Qed.

Lemma trial_data_of_lengths (d : nat) (g : G) :
  length (X_test (fst (trial_data_of d g))) = n_test /\
  length (y_test (fst (trial_data_of d g))) = n_test.
Proof.
  destruct (draw_trial_data_total d (start g)) as [data [g' [Hdata [Hy Hx]]]].
  rewrite trial_data_of_run in Hdata.
  assert (Hpair : forall (a b : trial_data * world), @Ok E _ a = Ok b -> a = b)
    by (intros a0 b0 H; now inversion H).
  apply Hpair in Hdata. apply (f_equal fst) in Hdata. cbn [fst rng start] in Hdata.
  rewrite Hdata. auto.
Qed.

Lemma first_error_app {A} (xs ys : list (result A)) :
  first_error (xs ++ ys)
  = match first_error xs with
    | Some e => Some e
    | None => first_error ys
    end.
Proof.
  induction xs as [|[a|e] xs IH]; simpl; auto.
Qed.

Lemma first_error_None {A} (xs : list (result A)) :
  first_error xs = None -> forall x, In x xs -> exists a, x = Ok a.
Proof.
  induction xs as [|[a|e] xs IH]; simpl; intros H x Hx.
  - contradiction.
  - destruct Hx as [<-|Hx]; eauto.
  - discriminate.
Qed.

Lemma first_error_Some {A} (xs : list (result A)) (e : error) :
  first_error xs = Some e ->
  exists pre post, xs = pre ++ Err e :: post /\ first_error pre = None.
Proof.
  induction xs as [|[a|e'] xs IH]; simpl; intros H.
  - discriminate.
  - destruct (IH H) as (pre & post & -> & Hpre).
    exists (Ok a :: pre), post. auto.
  - inversion H; subst. exists [], xs. auto.
Qed.

Lemma evaluations_app alpha methods (runs runs' : list (nat * nat * trial_data)) :
  evaluations alpha methods (runs ++ runs')
  = evaluations alpha methods runs ++ evaluations alpha methods runs'.
Proof. apply flat_map_app. Qed.

(** The first error of the evaluations is that of the first method that
    fails on the data of the first trial on which one fails. *)
Lemma evaluations_first_error alpha methods runs (e : error) :
  first_error (evaluations alpha methods runs) = Some e ->
  exists pre d t data post ms1 m ms2,
    runs = pre ++ (d, t, data) :: post /\ methods = ms1 ++ m :: ms2 /\
    first_error (evaluations alpha methods pre) = None /\
    first_error (map (evaluate alpha data) ms1) = None /\
    evaluate alpha data m = Err e.
Proof.
  induction runs as [|[[d t] data] runs IH]; intros H.
  - discriminate.
  - change (evaluations alpha methods ((d, t, data) :: runs))
      with (map (evaluate alpha data) methods ++ evaluations alpha methods runs) in H.
    rewrite first_error_app in H.
    destruct (first_error (map (evaluate alpha data) methods)) as [e'|] eqn:Hm.
    + inversion H; subst e'. clear H.
      apply first_error_Some in Hm as (pre & post & Heq & Hpre).
      apply map_eq_app in Heq as (ms1 & rest & -> & <- & Hrest).
      destruct rest as [|m ms2]; [discriminate|].
      simpl in Hrest. pose proof (f_equal (@hd_error _) Hrest) as Hev.
      simpl in Hev. inversion Hev as [Hev'].
      exists [], d, t, data, runs, ms1, m, ms2. repeat split; auto.
    + destruct (IH H) as (pre & d' & t' & data' & post & ms1 & m & ms2 & -> & Hms
                          & Hpre & Hms1 & Hev).
      exists ((d, t, data) :: pre), d', t', data', post, ms1, m, ms2.
      repeat (split; [first [reflexivity | assumption]|]).
      split; [|auto].
      change (evaluations alpha methods ((d, t, data) :: pre))
        with (map (evaluate alpha data) methods ++ evaluations alpha methods pre).
      now rewrite first_error_app, Hm.
Qed.

(** Without an error, every method returned on the data of every trial. *)
Lemma evaluations_all_ok alpha methods runs :
  first_error (evaluations alpha methods runs) = None ->
  forall d t data m, In (d, t, data) runs -> In m methods ->
    exists cov wid, evaluate alpha data m = Ok (cov, wid).
Proof.
  intros H d t data m Hr Hm.
  destruct (first_error_None _ H (evaluate alpha data m)) as [[cov wid] Hev].
  - unfold evaluations. apply in_flat_map. exists (d, t, data).
    split; [assumption|]. cbn [snd]. now apply in_map.
  - eauto.
Qed.

Lemma last_data_app (runs runs' : list (nat * nat * trial_data)) d t :
  last_data (runs ++ runs') d t
  = match last_data runs' d t with
    | Some later => Some later
    | None => last_data runs d t
    end.
Proof.
  induction runs as [|[[d' t'] data] runs IH]; simpl.
  - destruct (last_data runs' d t); reflexivity.
  - rewrite IH. destruct (last_data runs' d t); reflexivity.
Qed.

Lemma last_data_In (runs : list (nat * nat * trial_data)) d t data :
  In (d, t, data) runs -> exists data', last_data runs d t = Some data'.
Proof.
  induction runs as [|[[d' t'] data0] runs IH]; simpl; intros H.
  - contradiction.
  - destruct H as [H|H].
    + inversion H; subst. rewrite !Nat.eqb_refl. simpl.
      destruct (last_data runs d t); eauto.
    + destruct (IH H) as [x ->]. eauto.
Qed.

Lemma last_data_inv (runs : list (nat * nat * trial_data)) d t data :
  last_data runs d t = Some data -> In (d, t, data) runs.
Proof.
  induction runs as [|[[d' t'] data0] runs IH]; simpl; intros H.
  - discriminate.
  - destruct (last_data runs d t) as [x|].
    + inversion H; subst. right. now apply IH.
    + destruct (Nat.eqb_spec d' d); [|discriminate].
      destruct (Nat.eqb_spec t' t); [|discriminate].
      simpl in H. inversion H; subst. now left.
Qed.

Lemma trials_of_In d ts g t :
  In t ts -> exists data, In (d, t, data) (fst (trials_of d ts g)).
Proof.
  revert g. induction ts as [|t0 ts IH]; intros g H; simpl in *.
  - contradiction.
  - destruct (trial_data_of d g) as [data g1].
    specialize (IH g1).
    destruct (trials_of d ts g1) as [runs g2]. cbn [fst] in *.
    destruct H as [->|H].
    + exists data. now left.
    + destruct (IH H) as [x Hx]. exists x. now right.
Qed.

Lemma schedule_In n ds g d t :
  In d ds -> (t < n)%nat -> exists data, In (d, t, data) (fst (schedule n ds g)).
Proof.
  revert g. induction ds as [|d0 ds IH]; intros g Hd Ht; simpl in *.
  - contradiction.
  - pose proof (trials_of_In d0 (seq 0 n) g t) as Hin.
    destruct (trials_of d0 (seq 0 n) g) as [runs g1].
    specialize (IH g1).
    destruct (schedule n ds g1) as [more g2]. cbn [fst] in *.
    destruct Hd as [->|Hd].
    + destruct Hin as [data Hdata]; [apply in_seq; lia|].
      exists data. apply in_or_app. now left.
    + destruct (IH Hd Ht) as [data Hdata].
      exists data. apply in_or_app. now right.
Qed.

Lemma trials_of_lengths d ts g d' t data :
  In (d', t, data) (fst (trials_of d ts g)) ->
  length (X_test data) = n_test /\ length (y_test data) = n_test.
Proof.
  revert g. induction ts as [|t0 ts IH]; intros g H; simpl in *.
  - contradiction.
  - pose proof (trial_data_of_lengths d g) as Hl.
    destruct (trial_data_of d g) as [data0 g1]. specialize (IH g1).
    destruct (trials_of d ts g1) as [runs g2]. cbn [fst] in *.
    destruct H as [H|H]; [inversion H; subst; exact Hl | auto].
Qed.

Lemma schedule_lengths n ds g d t data :
  In (d, t, data) (fst (schedule n ds g)) ->
  length (X_test data) = n_test /\ length (y_test data) = n_test.
Proof.
  revert g. induction ds as [|d0 ds IH]; intros g H; simpl in *.
  - contradiction.
  - pose proof (trials_of_lengths d0 (seq 0 n) g d t data) as Hl.
    destruct (trials_of d0 (seq 0 n) g) as [runs g1]. specialize (IH g1).
    destruct (schedule n ds g1) as [more g2]. cbn [fst] in *.
    apply in_app_or in H as [H|H]; auto.
Qed.

End Schedule.

Section LoopOutcome.

Context {RS : RandomSource} {E : Estimator}.

Variables (results : table) (methods : list string) (alpha : float).
Variables (n base : nat) (dimensions : list nat) (sh : list nat).

Hypothesis Hwf : table_wf n base results sh.
Hypothesis Hlook : forall m d, In m methods -> In d dimensions ->
                               exists c, lookup results m d = Some c.

(** The loop over the methods fails with the first error of the evaluations
    of the methods, and returns when there is none. *)
Lemma method_loop_outcome d t data ms :
  In d dimensions -> (t < n)%nat -> (forall m, In m ms -> In m methods) ->
  forall w, shape (heap w) = sh ->
    match first_error (map (evaluate alpha data) ms) with
    | Some e => for_each ms (method_body results alpha d t data) w = Err e
    | None => exists w',
                for_each ms (method_body results alpha d t data) w = Ok (tt, w')
    end.
Proof.
  intros Hd Ht. induction ms as [|m ms IH]; intros Hms w Hsh.
  - simpl. eexists. reflexivity.
  - cbn [map first_error for_each].
    destruct (evaluate alpha data m) as [[cov wid]|e] eqn:Hev.
    + destruct (Hlook m d (Hms m (or_introl eq_refl)) Hd) as [c Hc].
      assert (Hwf' : table_wf n base results (shape (heap w)))
        by (rewrite Hsh; exact Hwf).
      destruct (method_body_ok results alpha d t data m w n base c cov wid
                  Hwf' Hc Ht Hev) as (w1 & Hrun & _ & _ & _ & _ & Hs & _).
      specialize (IH (fun y Hy => Hms y (or_intror Hy)) w1 (eq_trans Hs Hsh)).
      destruct (first_error (map (evaluate alpha data) ms)) as [e|];
        unfold bind; rewrite Hrun; exact IH.
    + unfold bind at 1.
      now rewrite (method_body_err results alpha d t data m w e Hev).
Qed.

(** One trial after the trials [done]. *)
Lemma trial_body_outcome done d t w :
  In d dimensions -> (t < n)%nat -> shape (heap w) = sh ->
  filled results alpha methods done (heap w) ->
  match first_error
          (map (evaluate alpha (fst (trial_data_of d (rng w)))) methods) with
  | Some e => trial_body results methods alpha d t w = Err e
  | None =>
      exists w',
        trial_body results methods alpha d t w = Ok (tt, w') /\
        rng w' = snd (trial_data_of d (rng w)) /\
        shape (heap w') = sh /\
        filled results alpha methods
          (done ++ [(d, t, fst (trial_data_of d (rng w)))]) (heap w')
  end.
Proof.
  intros Hd Ht Hsh Hfill.
  pose proof (trial_data_of_run d w) as Hdata.
  destruct (trial_data_of d (rng w)) as [data g]. cbn [fst snd] in *.
  pose proof (method_loop_outcome d t data methods Hd Ht (fun m H => H)
                (set_rng w g) Hsh) as Hloop.
  destruct (first_error (map (evaluate alpha data) methods)) as [e|].
  - unfold trial_body, bind. now rewrite Hdata.
  - destruct Hloop as [w' Hloop].
    assert (Hrun : trial_body results methods alpha d t w = Ok (tt, w')).
    { unfold trial_body, bind. now rewrite Hdata. }
    exists w'. split; [exact Hrun|].
    destruct (trial_body_summary results methods alpha n base dimensions sh
                Hwf Hlook d t w w' Hd Ht Hsh Hrun)
      as (data' & g' & Hdata' & Hg & Hs & Hcells & Hframe).
    rewrite Hdata in Hdata'.
    assert (Hpair : forall (a b : trial_data * world), @Ok E _ a = Ok b -> a = b)
      by (intros a0 b0 H; now inversion H).
    apply Hpair in Hdata'.
    pose proof (f_equal fst Hdata') as Hd1.
    pose proof (f_equal (fun p => rng (snd p)) Hdata') as Hg1.
    cbn [fst snd rng set_rng] in Hd1, Hg1. subst data' g'.
    split; [congruence|]. split; [exact Hs|].
    intros m d' t' data' Hm Hlast.
    rewrite last_data_app in Hlast. cbn [last_data] in Hlast.
    destruct ((d =? d') && (t =? t'))%nat eqn:Heq.
    + apply andb_true_iff in Heq as [Hd' Ht'].
      apply Nat.eqb_eq in Hd', Ht'. subst d' t'.
      inversion Hlast; subst data'. apply Hcells. exact Hm.
    + destruct (Hfill m d' t' data' Hm Hlast)
        as (c & cov & wid & Hc & Hev & Rc & Rw).
      assert (Hne : (d', t') <> (d, t)).
      { intros H. inversion H; subst.
        rewrite !Nat.eqb_refl in Heq. discriminate. }
      destruct (Hframe m d' c t' Hc Hne) as [F1 F2].
      exists c, cov, wid. rewrite F1, F2. auto.
Qed.

(** The trials [ts] of a dimension after the trials [done]. *)
Lemma trial_loop_outcome d ts :
  In d dimensions -> (forall t, In t ts -> (t < n)%nat) ->
  forall done w,
    shape (heap w) = sh -> filled results alpha methods done (heap w) ->
    match first_error
            (evaluations alpha methods (fst (trials_of d ts (rng w)))) with
    | Some e => for_each ts (trial_body results methods alpha d) w = Err e
    | None =>
        exists w',
          for_each ts (trial_body results methods alpha d) w = Ok (tt, w') /\
          rng w' = snd (trials_of d ts (rng w)) /\
          shape (heap w') = sh /\
          filled results alpha methods
            (done ++ fst (trials_of d ts (rng w))) (heap w')
    end.
Proof.
  intros Hd. induction ts as [|t ts IH]; intros Hts done w Hsh Hfill.
  - simpl. exists w. rewrite app_nil_r. auto.
  - pose proof (trial_body_outcome done d t w Hd (Hts t (or_introl eq_refl))
                  Hsh Hfill) as Hbody.
    cbn [trials_of for_each].
    destruct (trial_data_of d (rng w)) as [data g1]. cbn [fst snd] in Hbody.
    destruct (first_error (map (evaluate alpha data) methods)) as [e|] eqn:Hm.
    + destruct (trials_of d ts g1) as [runs g2]. cbn [fst].
      change (evaluations alpha methods ((d, t, data) :: runs))
        with (map (evaluate alpha data) methods ++ evaluations alpha methods runs).
      rewrite first_error_app, Hm. unfold bind. now rewrite Hbody.
    + destruct Hbody as (w1 & Hrun & Hg & Hs & Hfill1).
      specialize (IH (fun y Hy => Hts y (or_intror Hy))
                     (done ++ [(d, t, data)]) w1 Hs Hfill1).
      rewrite Hg in IH.
      destruct (trials_of d ts g1) as [runs g2]. cbn [fst snd] in *.
      change (evaluations alpha methods ((d, t, data) :: runs))
        with (map (evaluate alpha data) methods ++ evaluations alpha methods runs).
      rewrite first_error_app, Hm.
      destruct (first_error (evaluations alpha methods runs)) as [e|];
        unfold bind; rewrite Hrun.
      * exact IH.
      * destruct IH as (w' & Hrest & Hg' & Hs' & Hfill').
        exists w'. rewrite <- app_assoc in Hfill'. auto.
Qed.

(** The dimensions [ds] after the trials [done]. *)
Lemma dimension_loop_outcome ds :
  (forall d, In d ds -> In d dimensions) ->
  forall done w,
    shape (heap w) = sh -> filled results alpha methods done (heap w) ->
    match first_error
            (evaluations alpha methods (fst (schedule n ds (rng w)))) with
    | Some e =>
        for_each ds (fun dimension =>
          for_each (seq 0 n) (fun trial =>
            trial_body results methods alpha dimension trial)) w = Err e
    | None =>
        exists w',
          for_each ds (fun dimension =>
            for_each (seq 0 n) (fun trial =>
              trial_body results methods alpha dimension trial)) w
          = Ok (tt, w') /\
          rng w' = snd (schedule n ds (rng w)) /\
          shape (heap w') = sh /\
          filled results alpha methods
            (done ++ fst (schedule n ds (rng w))) (heap w')
    end.
Proof.
  induction ds as [|d ds IH]; intros Hds done w Hsh Hfill.
  - simpl. exists w. rewrite app_nil_r. auto.
  - pose proof (trial_loop_outcome d (seq 0 n) (Hds d (or_introl eq_refl))
                  (fun t Ht => proj2 (proj1 (in_seq n 0 t) Ht)) done w Hsh Hfill)
      as Hbody.
    cbn [schedule for_each].
    change (trial_body results methods alpha d)
      with (fun trial => trial_body results methods alpha d trial) in Hbody.
    destruct (trials_of d (seq 0 n) (rng w)) as [runs g1]. cbn [fst snd] in Hbody.
    destruct (first_error (evaluations alpha methods runs)) as [e|] eqn:Hm.
    + destruct (schedule n ds g1) as [more g2]. cbn [fst].
      rewrite evaluations_app, first_error_app, Hm.
      unfold bind. now rewrite Hbody.
    + destruct Hbody as (w1 & Hrun & Hg & Hs & Hfill1).
      specialize (IH (fun y Hy => Hds y (or_intror Hy))
                     (done ++ runs) w1 Hs Hfill1).
      rewrite Hg in IH.
      destruct (schedule n ds g1) as [more g2]. cbn [fst snd] in *.
      rewrite evaluations_app, first_error_app, Hm.
      destruct (first_error (evaluations alpha methods more)) as [e|];
        unfold bind; rewrite Hrun.
      * exact IH.
      * destruct IH as (w' & Hrest & Hg' & Hs' & Hfill').
        exists w'. rewrite <- app_assoc in Hfill'. auto.
Qed.

End LoopOutcome.

Section Outcome.

Context {RS : RandomSource} {E : Estimator}.

(** The outcome of a call is fixed by the evaluations of the methods on the
    trials of the call, in the order of the loops: the call fails with their
    first error; without one it returns the table, and every cell holds
    what its method records for the data of the last trial of the cell. *)
Lemma harness_outcome methods alpha n dimensions w0 :
  match first_error
          (evaluations alpha methods (fst (schedule n dimensions (rng w0)))) with
  | Some e => PIs_vs_dimensions methods alpha n dimensions w0 = Err e
  | None =>
      exists results w',
        PIs_vs_dimensions methods alpha n dimensions w0 = Ok (results, w') /\
        rng w' = snd (schedule n dimensions (rng w0)) /\
        filled results alpha methods (fst (schedule n dimensions (rng w0)))
          (heap w')
  end.
Proof.
  destruct (harness_phases methods alpha n dimensions w0)
    as (results & w1 & _ & Hwf & Hg & _ & _ & _ & _ & Hlk & Heq).
  assert (Hlook : forall m d, In m methods -> In d dimensions ->
                              exists c, lookup results m d = Some c).
  { intros m d Hm Hd. apply Hlk. auto. }
  pose proof (dimension_loop_outcome results methods alpha n (length (heap w0))
                dimensions (shape (heap w1)) Hwf Hlook dimensions
                (fun d H => H) [] w1 eq_refl) as Hloop.
  rewrite Hg in Hloop. rewrite Heq.
  destruct (first_error _) as [e|].
  - rewrite Hloop; [reflexivity|].
    intros m d t data _ H. discriminate.
  - destruct Hloop as (w' & Hrun & Hg' & _ & Hfill).
    { intros m d t data _ H. discriminate. }
    exists results, w'. rewrite Hrun. auto.
Qed.

End Outcome.

Section OutcomeClaims.

Context {RS : RandomSource} {E : Estimator}.

Lemma finite_widths (y_preds : list pred_row) :
  Forall finite_bounds y_preds ->
  exists widths, vsub (upper y_preds) (lower y_preds) = map Some widths.
Proof.
  induction 1 as [|[[p lo] up] rows (l & u & Hl & Hu) _ [widths IH]].
  - exists []. reflexivity.
  - cbn [fst snd] in Hl, Hu. subst lo up. exists (u - l :: widths).
    unfold vsub, upper, lower in *. simpl. now rewrite IH.
Qed.

(** C7.  With an estimator that predicts one row per test point, a call of
    the harness has one of two outcomes, for the trials of the call in the
    order of the loops (dimension, trial, method).  Either the estimator
    raised for no method on the data of any trial: the call returns the
    table, and at every index of every array of every method and dimension
    the store holds what the method records for the data of the last trial
    of that dimension and index.  Or there is a first trial and a first
    method on its data for which [fit] or [predict] raises: the call fails
    with that exception, unchanged, and returns no table. *)
Theorem harness_all_or_nothing methods alpha n_trial dimensions w0 :
  (forall ft X yp, predict ft X = inr yp -> length yp = length X) ->
  let runs := fst (schedule n_trial dimensions (rng w0)) in
  (exists results w',
      PIs_vs_dimensions methods alpha n_trial dimensions w0 = Ok (results, w') /\
      (forall d t data m, In (d, t, data) runs -> In m methods ->
         exists cov wid, evaluate alpha data m = Ok (cov, wid)) /\
      forall m d t, In m methods -> In d dimensions -> (t < n_trial)%nat ->
        exists c data cov wid,
          lookup results m d = Some c /\
          last_data runs d t = Some data /\
          evaluate alpha data m = Ok (cov, wid) /\
          read (heap w') (Cell.coverage c) t = Some cov /\
          read (heap w') (Cell.width_mean c) t = Some wid)
  \/
  (exists e pre d t data post ms1 m ms2,
      runs = pre ++ (d, t, data) :: post /\
      methods = ms1 ++ m :: ms2 /\
      (forall d' t' data' m', In (d', t', data') pre -> In m' methods ->
         exists cov wid, evaluate alpha data' m' = Ok (cov, wid)) /\
      (forall m', In m' ms1 ->
         exists cov wid, evaluate alpha data m' = Ok (cov, wid)) /\
      estimator_raises alpha data m e /\
      PIs_vs_dimensions methods alpha n_trial dimensions w0 = Err (Raised e)).
Proof.
  intros Hshape runs.
  pose proof (harness_outcome methods alpha n_trial dimensions w0) as H.
  fold runs in H.
  destruct (first_error (evaluations alpha methods runs)) as [e0|] eqn:Hfe.
  - right.
    destruct (evaluations_first_error _ _ _ _ Hfe)
      as (pre & d & t & data & post & ms1 & m & ms2 & Hruns & Hms & Hpre & Hms1
          & Hev).
    destruct (schedule_lengths n_trial dimensions (rng w0) d t data) as [Hx Hy].
    { fold runs. rewrite Hruns. apply in_elt. }
    destruct (evaluate_err alpha data m e0 Hshape Hx Hy Hev) as [e [-> He]].
    exists e, pre, d, t, data, post, ms1, m, ms2.
    split; [exact Hruns|]. split; [exact Hms|].
    split; [exact (evaluations_all_ok _ _ _ Hpre)|].
    split; [|split; [exact He | exact H]].
    intros m' Hm'.
    destruct (first_error_None _ Hms1 (evaluate alpha data m')) as [[cov wid] Hok].
    + now apply in_map.
    + eauto.
  - left. destruct H as (results & w' & Hrun & _ & Hfill).
    exists results, w'. split; [exact Hrun|].
    split; [exact (evaluations_all_ok _ _ _ Hfe)|].
    intros m d t Hm Hd Ht.
    destruct (schedule_In n_trial dimensions (rng w0) d t Hd Ht) as [data0 Hin].
    destruct (last_data_In _ _ _ _ Hin) as [data Hlast].
    destruct (Hfill m d t data Hm Hlast) as (c & cov & wid & Hc & Hev & Rc & Rw).
    exists c, data, cov, wid. auto.
Qed.

(** C2.  With an estimator that predicts one row per test point, with
    bounds that are numbers, every cell of the table the harness returns
    holds at the index of a trial, for the data of the last trial of its
    dimension with that index and the rows predicted for its method: as
    coverage, the number of test points whose target is between the lower
    and the upper bound of their row, bounds included, over the number of
    test points, which is [100]; as mean width, the arithmetic mean of upper
    bound minus lower bound over the rows. *)
Theorem recorded_metrics methods alpha n_trial dimensions w0 results w' :
  (forall ft X yp, predict ft X = inr yp -> length yp = length X) ->
  (forall ft X yp, predict ft X = inr yp -> Forall finite_bounds yp) ->
  PIs_vs_dimensions methods alpha n_trial dimensions w0 = Ok (results, w') ->
  forall m d c t,
    lookup results m d = Some c -> (t < n_trial)%nat ->
    exists data ft y_preds widths,
      last_data (fst (schedule n_trial dimensions (rng w0))) d t = Some data /\
      fit (mapie_of alpha m) (X_train data) (y_train data) = inr ft /\
      predict ft (X_test data) = inr y_preds /\
      length y_preds = 100%nat /\ length (y_test data) = 100%nat /\
      read (heap w') (Cell.coverage c) t
      = Some (Some (INR (covered y_preds (y_test data)) / 100)) /\
      vsub (upper y_preds) (lower y_preds) = map Some widths /\
      read (heap w') (Cell.width_mean c) t
      = Some (Some (arithmetic_mean widths)).
Proof.
  intros Hshape Hfinite Hrun m d c t Hc Ht.
  destruct (proj1 (harness_keys _ _ _ _ _ _ _ Hrun m d) (ex_intro _ c Hc))
    as [Hm Hd].
  pose proof (harness_outcome methods alpha n_trial dimensions w0) as H.
  destruct (first_error _) as [e0|]; [rewrite Hrun in H; discriminate|].
  destruct H as (results' & w'' & Hrun' & _ & Hfill).
  rewrite Hrun in Hrun'. inversion Hrun'; subst results' w''. clear Hrun'.
  destruct (schedule_In n_trial dimensions (rng w0) d t Hd Ht) as [data0 Hin].
  destruct (last_data_In _ _ _ _ Hin) as [data Hlast].
  destruct (Hfill m d t data Hm Hlast) as (c' & cov & wid & Hc' & Hev & Rc & Rw).
  assert (c' = c) by congruence. subst c'.
  destruct (schedule_lengths n_trial dimensions (rng w0) d t data
              (last_data_inv _ _ _ _ Hlast)) as [Hx Hy].
  destruct (evaluate_inv alpha data m cov wid Hev)
    as (ft & yp & Hf & Hp & Hcov & ->).
  pose proof (Hshape ft (X_test data) yp Hp) as Hl. rewrite Hx in Hl.
  destruct (finite_widths yp (Hfinite ft _ yp Hp)) as [widths Hw].
  exists data, ft, yp, widths.
  do 3 (split; [assumption|]). split; [exact Hl|]. split; [exact Hy|].
  assert (Hne : y_test data <> [])
    by (intros Hn; rewrite Hn in Hy; discriminate).
  rewrite coverage_of_value in Hcov by congruence.
  inversion Hcov; subst cov. rewrite Hy in Rc.
  split; [|split; [exact Hw|]].
  - rewrite Rc. unfold n_test. now rewrite (INR_IZR_INZ 100).
  - rewrite Rw, Hw. rewrite mean_finite; [reflexivity|].
    intros ->. destruct yp; discriminate.
Qed.

End OutcomeClaims.

Lemma harness_all_or_nothing_witness :
  let E := naive_only (Some 0, Some 0, Some 1) in
  let methods := ["naive"%string; "cv"%string] in
  let alpha := Some (1 / 10) in
  let w0 := @start counting 1%Z in
  let runs := fst (@schedule counting 1 [5%nat] (rng w0)) in
  (exists results w',
      @PIs_vs_dimensions counting E methods alpha 1 [5%nat] w0
      = Ok (results, w') /\
      (forall d t data m, In (d, t, data) runs -> In m methods ->
         exists cov wid, @evaluate E alpha data m = Ok (cov, wid)) /\
      forall m d t, In m methods -> In d [5%nat] -> (t < 1)%nat ->
        exists c data cov wid,
          lookup results m d = Some c /\
          last_data runs d t = Some data /\
          @evaluate E alpha data m = Ok (cov, wid) /\
          read (heap w') (Cell.coverage c) t = Some cov /\
          read (heap w') (Cell.width_mean c) t = Some wid)
  \/
  (exists e pre d t data post ms1 m ms2,
      runs = pre ++ (d, t, data) :: post /\
      methods = ms1 ++ m :: ms2 /\
      (forall d' t' data' m', In (d', t', data') pre -> In m' methods ->
         exists cov wid, @evaluate E alpha data' m' = Ok (cov, wid)) /\
      (forall m', In m' ms1 ->
         exists cov wid, @evaluate E alpha data m' = Ok (cov, wid)) /\
      @estimator_raises E alpha data m e /\
      @PIs_vs_dimensions counting E methods alpha 1 [5%nat] w0
      = Err (Raised e)).
Proof.
  intros E methods alpha w0.
  apply (@harness_all_or_nothing counting E methods alpha 1%nat [5%nat] w0).
  apply naive_only_shape.
Defined.

Lemma recorded_metrics_witness :
  let E := constant_estimator (Some 0, Some 0, Some 1) in
  exists results w' c,
    @PIs_vs_dimensions counting E
      ["naive"%string] (Some (1 / 10)) 1 [5%nat] (@start counting 1%Z)
    = Ok (results, w') /\
    lookup results "naive" 5 = Some c /\
    exists data ft y_preds widths,
      last_data (fst (@schedule counting 1 [5%nat] 1%Z)) 5 0 = Some data /\
      @fit E (mapie_of (Some (1 / 10)) "naive") (X_train data) (y_train data)
      = inr ft /\
      @predict E ft (X_test data) = inr y_preds /\
      length y_preds = 100%nat /\ length (y_test data) = 100%nat /\
      read (heap w') (Cell.coverage c) 0
      = Some (Some (INR (covered y_preds (y_test data)) / 100)) /\
      vsub (upper y_preds) (lower y_preds) = map Some widths /\
      read (heap w') (Cell.width_mean c) 0
      = Some (Some (arithmetic_mean widths)).
Proof.
  intros E.
  destruct (example_run (@start counting 1%Z)) as (results & w' & c & Hrun & Hc).
  exists results, w', c. split; [exact Hrun|]. split; [exact Hc|].
  apply (@recorded_metrics counting E ["naive"%string] (Some (1 / 10)) 1%nat
           [5%nat] (@start counting 1%Z) results w'); auto.
  - intros ft X yp Hp. simpl in Hp. inversion Hp. now rewrite length_map.
  - intros ft X yp Hp. simpl in Hp. inversion Hp. apply Forall_forall.
    intros r Hr. apply in_map_iff in Hr as (x & <- & _).
    exists 0, 1. split; reflexivity.
Defined.

(** * Further properties of the 1D example *)

(** ** The data *)

Section HomoscedasticData.

Context {RS : RandomSource} {E : Estimator}.

Lemma exp_draws_finite (k : nat) (g : G) :
  exists rs, fst (exp_draws k g) = map Some rs /\ length rs = k.
Proof.
  revert g. induction k as [|k IH]; intros g; simpl.
  - exists []. auto.
  - destruct (expo g) as [x g1]. specialize (IH g1).
    destruct (exp_draws k g1) as [xs g2]. simpl in *.
    destruct IH as (rs & -> & Hl). exists (x :: rs). simpl. auto.
Qed.

Lemma nth_error_seq_lt (s n i : nat) :
  (i < n)%nat -> nth_error (seq s n) i = Some (s + i)%nat.
Proof.
  revert s i. induction n as [|n IH]; intros s i Hi; [lia|].
  destruct i as [|i]; simpl.
  - f_equal. lia.
  - rewrite IH by lia. f_equal. lia.
Qed.

(** The points of [np.linspace(a, b, n, endpoint=False)]. *)
Lemma linspace_value (a b : R) (n i : nat) :
  (i < n)%nat ->
  nth_error (linspace (Some a) (Some b) n) i
  = Some (Some (a + INR i * ((b - a) / INR n))).
Proof.
  intros Hi. unfold linspace.
  rewrite nth_error_map, nth_error_seq_lt by exact Hi.
  cbn [option_map Nat.add]. f_equal.
  unfold of_nat, fsub, fdiv, flift2.
  destruct (Req_dec_T (INR n) 0) as [H0|_].
  - exfalso. apply (INR_eq n 0) in H0. lia.
  - reflexivity.
Qed.

Lemma f_value (x : R) : f (Some x) = Some (5 * x + 5 * x ^ 4 - 9 * x ^ 2).
Proof. reflexivity. Qed.

(** X16.  The test grid of [get_homoscedastic_data] (lines 71-74), for a
    positive [sigma], for which the call returns: [n_test] evenly spaced
    points that start at 0.001 and stay below 1.2, the end point being left
    out; the test targets are the polynomial [f] on the grid, without
    noise, and the fifth component is [1.8*sigma]. *)
Theorem homoscedastic_test_grid (n_samples n_test : nat) (sigma : R)
    (w : world) :
  0 < sigma ->
  match get_homoscedastic_data n_samples n_test (Some sigma) w with
  | Ok ((_, _, X_test, y_test, y_test_sig), _) =>
      length X_test = n_test /\ length y_test = n_test /\
      y_test_sig = Some (18 / 10 * sigma) /\
      forall i, (i < n_test)%nat ->
        exists x,
          x = 1 / 1000 + INR i * (1199 / 1000 / INR n_test) /\
          1 / 1000 <= x < 12 / 10 /\
          nth_error X_test i = Some (Some x) /\
          nth_error y_test i = Some (Some (5 * x + 5 * x ^ 4 - 9 * x ^ 2))
  | Err _ => False
  end.
Proof.
  intros Hsigma.
  rewrite homoscedastic_data_run, (negative_false sigma) by lra.
  split; [|split; [|split]].
  - unfold linspace. now rewrite length_map, length_seq.
  - unfold linspace. now rewrite !length_map, length_seq.
  - reflexivity.
  - intros i Hi.
    exists (1 / 1000 + INR i * ((12 / 10 - 1 / 1000) / INR n_test)).
    assert (Hn : 0 < INR n_test) by (apply lt_0_INR; lia).
    assert (Hin : 0 <= INR i < INR n_test).
    { split; [apply pos_INR | apply lt_INR; exact Hi]. }
    split; [|split; [|split]].
    + f_equal. f_equal. f_equal. lra.
    + set (q := (12 / 10 - 1 / 1000) / INR n_test).
      assert (Hq : 0 < q).
      { unfold q. apply Rdiv_lt_0_compat; lra. }
      assert (Hnq : INR n_test * q = 12 / 10 - 1 / 1000).
      { unfold q. field. lra. }
      split; nra.
    + apply linspace_value. exact Hi.
    + rewrite nth_error_map, linspace_value by exact Hi.
      cbn [option_map]. now rewrite f_value.
Qed.

(** X17.  The training data of [get_homoscedastic_data] (lines 68-72).  A
    negative [sigma] makes the call fail with the [ValueError] of
    [np.random.normal].  For a positive [sigma] the call returns [n_samples]
    inputs and as many targets, all of them numbers, and leaves the
    generator where the seed 59 and the draws of the call put it. *)
Theorem homoscedastic_training_data (n_samples n_test : nat) (w : world) :
  (forall sigma, sigma < 0 ->
     get_homoscedastic_data n_samples n_test (Some sigma) w = Err ValueError) /\
  (forall sigma, 0 < sigma ->
     match get_homoscedastic_data n_samples n_test (Some sigma) w with
     | Ok ((X_train, y_train, _, _, _), w') =>
         length X_train = n_samples /\ length y_train = n_samples /\
         (forall x, In x X_train -> x <> None) /\
         (forall y, In y y_train -> y <> None) /\
         rng w' = snd (draws n_samples (snd (exp_draws n_samples (seed 59))))
     | Err _ => False
     end).
Proof.
  split.
  { intros s Hs. rewrite homoscedastic_data_run, negative_true by exact Hs.
    reflexivity. }
  intros s Hs.
  rewrite homoscedastic_data_run, (negative_false s) by lra.
  destruct (exp_draws_finite n_samples (seed 59)) as (es & Hes & Hles).
  destruct (draws_finite n_samples (snd (exp_draws n_samples (seed 59))))
    as (gs & Hgs & Hlgs).
  rewrite Hes, Hgs.
  split; [|split; [|split; [|split]]].
  - now rewrite !length_map.
  - rewrite vadd_length; rewrite !length_map; congruence.
  - intros x Hx. apply in_map_iff in Hx. destruct Hx as (e & <- & He).
    apply in_map_iff in He. destruct He as (r & <- & _). discriminate.
  - intros y Hy.
    apply vadd_In in Hy. destruct Hy as (a & b & Ha & Hb & ->).
    apply in_map_iff in Ha. destruct Ha as (x & <- & Hx).
    apply in_map_iff in Hx. destruct Hx as (e & <- & He).
    apply in_map_iff in He. destruct He as (r & <- & _).
    apply in_map_iff in Hb. destruct Hb as (g & <- & Hg).
    apply in_map_iff in Hg. destruct Hg as (r' & <- & _).
    discriminate.
  - reflexivity.
Qed.

End HomoscedasticData.

Lemma homoscedastic_test_grid_witness :
  match @get_homoscedastic_data counting
          (constant_estimator (Some 0, Some 0, Some 1)) 3 2 (Some (1 / 10))
          (@start counting 1%Z) with
  | Ok ((_, _, X_test, y_test, y_test_sig), _) =>
      length X_test = 2%nat /\ length y_test = 2%nat /\
      y_test_sig = Some (18 / 10 * (1 / 10)) /\
      forall i, (i < 2)%nat ->
        exists x,
          x = 1 / 1000 + INR i * (1199 / 1000 / INR 2) /\
          1 / 1000 <= x < 12 / 10 /\
          nth_error X_test i = Some (Some x) /\
          nth_error y_test i = Some (Some (5 * x + 5 * x ^ 4 - 9 * x ^ 2))
  | Err _ => False
  end.
Proof.
  apply (@homoscedastic_test_grid counting
           (constant_estimator (Some 0, Some 0, Some 1)) 3 2 (1 / 10)
           (@start counting 1%Z)).
  lra.
Defined.

(** ** The panels and the script *)

Section HomoscedasticPanels.

Context {RS : RandomSource} {E : Estimator} {PE : PipelineEstimator}.

Variables (X_train y_train X_test y_test : list float) (y_test_sigma : float).

Local Abbreviation data := (X_train, y_train, X_test, y_test, y_test_sigma).
Local Abbreviation panel_of := (panel_of X_train y_train X_test y_test y_test_sigma).
Local Abbreviation raises := (raises X_train y_train X_test).

Lemma panel_body_run (axs : list axis) (i : nat) (method : string) (w : world) :
  panel_body data axs i method w
  = match fit_pipeline (pireg_of method) (reshape_column X_train) y_train with
    | inl e => Err (Raised e)
    | inr ft =>
        match predict ft (reshape_column X_test) with
        | inl e => Err (Raised e)
        | inr y_preds =>
            match nth_error axs i with
            | Some ax =>
                Ok (update i
                      (plot_1d_data X_train y_train X_test y_test y_test_sigma
                         (column_0 y_preds) (lower y_preds) (upper y_preds)
                         ax method) axs, w)
            | None => Err IndexError
            end
        end
    end.
Proof.
  unfold panel_body, bind, call, axis_at, lift, ret, raise.
  destruct (fit_pipeline _ _ _) as [e|ft]; [reflexivity|].
  destruct (predict _ _) as [e|yp]; [reflexivity|].
  destruct (nth_error axs i); reflexivity.
Qed.

Lemma panel_loop_run (ms : list string) :
  forall (done : list axis) (w : world),
    match panel_loop data (combine (seq (length done) (length ms)) ms)
            (done ++ repeat [] (length ms)) w with
    | Ok (axs, w') =>
        w' = w /\
        exists new, axs = done ++ new /\ Forall2 panel_of ms new
    | Err e0 =>
        exists ms1 m ms2 e,
          ms = ms1 ++ m :: ms2 /\ e0 = Raised e /\
          (forall m', In m' ms1 -> exists ax, panel_of m' ax) /\
          raises m e
    end.
Proof.
  induction ms as [|m ms IH]; intros done w.
  - simpl. split; [reflexivity|]. exists []. split; [|constructor].
    reflexivity.
  - cbn [length seq combine panel_loop repeat]. unfold bind at 1.
    rewrite panel_body_run.
    destruct (fit_pipeline _ _ _) as [e|ft] eqn:Hfit.
    { exists [], m, ms, e. split; [reflexivity|]. split; [reflexivity|].
      split; [intros m' []|]. left. exact Hfit. }
    destruct (predict ft _) as [e|yp] eqn:Hpred.
    { exists [], m, ms, e. split; [reflexivity|]. split; [reflexivity|].
      split; [intros m' []|]. right. eauto. }
    rewrite nth_error_mid, update_app.
    set (p := plot_1d_data X_train y_train X_test y_test y_test_sigma
                (column_0 yp) (lower yp) (upper yp) [] m).
    assert (Hp : panel_of m p).
    { exists ft, yp. auto. }
    specialize (IH (done ++ [p]) w).
    rewrite length_app, Nat.add_1_r, <- app_assoc in IH. cbn [app] in IH.
    destruct (panel_loop _ _ _ w) as [[axs w']|e0].
    + destruct IH as (-> & new & -> & Hnew).
      split; [reflexivity|]. exists (p :: new).
      split; [now rewrite <- app_assoc | now constructor].
    + destruct IH as (ms1 & m1 & ms2 & e & -> & -> & Hpre & Hr).
      exists (m :: ms1), m1, ms2, e.
      split; [reflexivity|]. split; [reflexivity|]. split; [|exact Hr].
      intros m' [<-|Hin]; [eauto | auto].
Qed.

(** The loop does not look at the world. *)
Lemma panel_loop_world (items : list (nat * string)) :
  forall (axs : list axis) (w1 w2 : world),
    same_outcome (fun p q => fst p = fst q /\ snd p = w1 /\ snd q = w2)
      (panel_loop data items axs w1) (panel_loop data items axs w2).
Proof.
  induction items as [|[i m] items IH]; intros axs w1 w2.
  - simpl. auto.
  - cbn [panel_loop]. unfold bind. rewrite !panel_body_run.
    destruct (fit_pipeline _ _ _) as [e|ft]; [reflexivity|].
    destruct (predict ft _) as [e|yp]; [reflexivity|].
    destruct (nth_error axs i); [apply IH | reflexivity].
Qed.

End HomoscedasticPanels.

Section HomoscedasticScriptProperties.

Context {RS : RandomSource} {E : Estimator} {PE : PipelineEstimator}.

(** X18.  The script of the 1D example (lines 131-167).  All six methods are
    fitted on the training data that [get_homoscedastic_data] returned and
    asked for predictions on its grid.  When none of them raises, the figure
    has six axes; the axis of a method is in the position of the method in
    the list and received the twelve calls of [plot_1d_data], with the
    method as title, and nothing else.  Otherwise the outcome of the script
    is the exception of the first method, in the order of the list, for
    which [fit] or [predict] raises; the script never fails with an index
    out of range. *)
Theorem script_1d_outcome (w : world) :
  match get_homoscedastic_data 200 200 (Some (1 / 10)) w with
  | Ok ((X_train, y_train, X_test, y_test, y_test_sigma), w1) =>
      match script_1d w with
      | Ok (axs, w') =>
          rng w' = rng w1 /\ heap w' = heap w /\
          drawn w' = drawn w ++ [Subplots 2 3] /\
          Forall2 (panel_of X_train y_train X_test y_test y_test_sigma)
                  methods_1d axs
      | Err e0 =>
          exists ms1 m ms2 e,
            methods_1d = ms1 ++ m :: ms2 /\ e0 = Raised e /\
            (forall m', In m' ms1 ->
               exists ax, panel_of X_train y_train X_test y_test y_test_sigma
                            m' ax) /\
            raises X_train y_train X_test m e
      end
  | Err _ => False
  end.
Proof.
  unfold script_1d, bind.
  rewrite homoscedastic_data_run, (negative_false (1 / 10)) by lra. cbv zeta.
  set (X_train := map (fmul (Some (4 / 10))) _).
  set (y_train := vadd _ _).
  set (X_test := linspace _ _ _).
  set (sig := fmul _ _).
  set (w1 := set_rng w _).
  unfold draw.
  set (w2 := {| rng := rng w1; heap := heap w1;
                drawn := drawn w1 ++ [Subplots 2 3];
                wlog := wlog w1; junk := junk w1 |}).
  pose proof (panel_loop_run X_train y_train X_test (map f X_test) sig
                methods_1d [] w2) as Hloop.
  cbn [length app methods_1d repeat] in Hloop.
  unfold enumerate. cbn [length methods_1d].
  destruct (panel_loop _ _ _ w2) as [[axs w']|e0].
  - destruct Hloop as (-> & new & -> & Hnew). cbn [app].
    split; [reflexivity|]. split; [reflexivity|]. split; [reflexivity|].
    exact Hnew.
  - exact Hloop.
Qed.

(** X19.  The figure of the 1D script does not depend on the state in which
    the script finds the generator, the store or the backend: two runs give
    the same six axes and leave the generator in the same state, or raise
    the same exception. *)
Theorem script_1d_reproducible (w1 w2 : world) :
  same_outcome (fun p q => fst p = fst q /\ rng (snd p) = rng (snd q))
    (script_1d w1) (script_1d w2).
Proof.
  unfold script_1d, bind.
  rewrite !homoscedastic_data_run, (negative_false (1 / 10)) by lra. cbv zeta.
  unfold draw.
  match goal with
  | |- same_outcome _ (panel_loop ?d ?items ?axs ?u1) (panel_loop _ _ _ ?u2) =>
      pose proof (panel_loop_world
                    (fst (fst (fst (fst d)))) (snd (fst (fst (fst d))))
                    (snd (fst (fst d))) (snd (fst d)) (snd d)
                    items axs u1 u2) as H; cbn [fst snd] in H;
      destruct (panel_loop d items axs u1) as [[a1 v1]|e1];
      destruct (panel_loop d items axs u2) as [[a2 v2]|e2];
      simpl in H |- *; try contradiction; try exact H
  end.
  destruct H as (-> & -> & ->). split; reflexivity.
Qed.

End HomoscedasticScriptProperties.

(** With an estimator that knows ["jackknife"] only, the script raises on the
    second method of its list. *)
Example script_1d_second_method_raises :
  let E := naive_only (Some 0, Some 0, Some 1) in
  @script_1d counting E (jackknife_only (Some 0, Some 0, Some 1))
    (@start counting 1%Z)
  = @Err E _ (@Raised E "jackknife_plus"%string).
Proof.
  intros E. unfold script_1d, bind.
  rewrite homoscedastic_data_run, (negative_false (1 / 10)) by lra.
  cbv zeta. unfold draw.
  unfold enumerate. cbn [length methods_1d seq combine panel_loop].
  unfold bind at 1. rewrite panel_body_run.
  cbn [fit_pipeline jackknife_only pireg_of OneD.method String.eqb Ascii.eqb
       Bool.eqb predict naive_only E nth_error repeat].
  unfold bind at 1. rewrite panel_body_run. reflexivity.
Qed.
